(** * The rule-based job-notification parser (jobParser.ts)

    A shallow embedding of [parseJobNotification] and of the extractors it
    calls, together with the part of the JavaScript runtime they rest on:
    strings as sequences of UTF-16 code units, the string built-ins the
    parser calls, and a backtracking regular-expression matcher with
    capture groups that follows the matcher of the language definition.
    The two functions of routes.ts that name a post, [generateSlug] and
    [ensureUniqueSlug], are embedded over the same runtime. *)

From Stdlib Require Import String Ascii Bool Arith NArith ZArith Lia List.
From Stdlib Require Import DecimalString.
From Stdlib Require DecimalN DecimalPos.
Import ListNotations.

Local Open Scope string_scope.
Local Open Scope list_scope.
Local Open Scope nat_scope.

(* ================================================================== *)
(** * Strings of the host language *)
(* ================================================================== *)

(** A string is a sequence of 16-bit code units. *)
Definition unit16 := N.
Definition jsstring := list unit16.

(** Basic Latin literals are written as Rocq strings. *)
Definition js (s : string) : jsstring :=
  map N_of_ascii (list_ascii_of_string s).

(** The code unit of a Basic Latin character. *)
Definition ch (a : ascii) : unit16 := N_of_ascii a.

Definition nl : unit16 := 10%N.
Definition quote : unit16 := 34%N.
Definition rupee : unit16 := 8377%N.   (* U+20B9 *)

Fixpoint str_eqb (a b : jsstring) : bool :=
  match a, b with
  | [], [] => true
  | x :: a', y :: b' => N.eqb x y && str_eqb a' b'
  | _, _ => false
  end.

(** Truthiness of a string: the empty string is falsy. *)
Definition truthy (s : jsstring) : bool :=
  match s with [] => false | _ => true end.

(** Joins lines with a line feed; used to write multi-line inputs. *)
Fixpoint unlines (ls : list jsstring) : jsstring :=
  match ls with
  | [] => []
  | [l] => l
  | l :: ls' => l ++ nl :: unlines ls'
  end.

Definition text_of (ls : list string) : jsstring := unlines (map js ls).

(** ** Character classes *)

Definition charset := unit16 -> bool.

Definition between (lo hi : N) : charset :=
  fun c => (N.leb lo c && N.leb c hi)%bool.

Definition isDigit : charset := between 48 57.
Definition isUpper : charset := between 65 90.
Definition isLower : charset := between 97 122.
Definition isAlpha : charset := fun c => isUpper c || isLower c.
Definition isBasic : charset := fun c => N.ltb c 128.

(** [\w] without the unicode flag. *)
Definition isWord : charset :=
  fun c => isAlpha c || isDigit c || N.eqb c 95.

(** [\s], and what [trim] strips: WhiteSpace and LineTerminator. *)
Definition isSpace : charset :=
  fun c =>
    between 9 13 c || N.eqb c 32 || N.eqb c 160 || N.eqb c 5760
    || between 8192 8202 c || N.eqb c 8232 || N.eqb c 8233
    || N.eqb c 8239 || N.eqb c 8287 || N.eqb c 12288 || N.eqb c 65279.

Definition oneOf (s : string) : charset :=
  fun c => existsb (N.eqb c) (js s).

Definition orset (p q : charset) : charset := fun c => p c || q c.

Definition upperBasic (c : unit16) : unit16 :=
  if isLower c then (c - 32)%N else c.
Definition lowerBasic (c : unit16) : unit16 :=
  if isUpper c then (c + 32)%N else c.

(** Lower case of one code unit of Basic Latin or the Latin-1 Supplement. *)
Definition lowerLatin1 (c : unit16) : unit16 :=
  if isUpper c then (c + 32)%N
  else if (between 192 222 c && negb (N.eqb c 215))%bool then (c + 32)%N
  else c.

(** ** [String.prototype.toLowerCase]

    The case mapping of the host is Unicode-wide (it can even change the
    length of a string).  The parser is embedded over any case mapping that
    lower-cases Basic Latin text letter by letter, which the host's does. *)
Class CaseMapping := {
  toLowerCase : jsstring -> jsstring;
  toLowerCase_basic :
    forall s, forallb isBasic s = true -> toLowerCase s = map lowerBasic s
}.

(** The mapping the examples are computed with. *)
#[export] Instance latin1Case : CaseMapping.
Proof.
  refine {| toLowerCase := map lowerLatin1 |}.
  induction s as [|c s IH]; simpl; [reflexivity|].
  rewrite andb_true_iff; intros [Hc Hs]. rewrite (IH Hs). f_equal.
  unfold lowerLatin1, lowerBasic. destruct (isUpper c); [reflexivity|].
  unfold isBasic in Hc. apply N.ltb_lt in Hc.
  unfold between. destruct (N.leb 192 c) eqn:E; [|reflexivity].
  apply N.leb_le in E. lia.
Defined.

(** The mapping that knows Basic Latin only. *)
Definition basicCase : CaseMapping :=
  {| toLowerCase := map lowerBasic; toLowerCase_basic := fun s _ => eq_refl |}.



(** ** String built-ins *)

Fixpoint startsWith (s sub : jsstring) : bool :=
  match sub, s with
  | [], _ => true
  | y :: sub', x :: s' => N.eqb x y && startsWith s' sub'
  | _ :: _, [] => false
  end.

(** [s.indexOf(sub)]; [None] stands for -1. *)
Fixpoint indexOf (s sub : jsstring) : option nat :=
  if startsWith s sub then Some 0
  else match s with
       | [] => None
       | _ :: s' => option_map S (indexOf s' sub)
       end.

Definition includes (s sub : jsstring) : bool :=
  match indexOf s sub with Some _ => true | None => false end.

(** [s.slice(a, b)] and [s.slice(a)] for non-negative indices. *)
Definition slice (s : jsstring) (a b : nat) : jsstring :=
  firstn (b - a) (skipn a s).
Definition sliceFrom (s : jsstring) (a : nat) : jsstring := skipn a s.

Fixpoint trimStart (s : jsstring) : jsstring :=
  match s with
  | c :: s' => if isSpace c then trimStart s' else s
  | [] => []
  end.

Definition trimEnd (s : jsstring) : jsstring := rev (trimStart (rev s)).
Definition trim (s : jsstring) : jsstring := trimEnd (trimStart s).

(** [s.split('\n')]. *)
Fixpoint splitLines (s : jsstring) : list jsstring :=
  match s with
  | [] => [[]]
  | c :: s' =>
      if N.eqb c nl then [] :: splitLines s'
      else match splitLines s' with
           | l :: ls => (c :: l) :: ls
           | [] => [[c]]
           end
  end.

Fixpoint join (sep : jsstring) (ls : list jsstring) : jsstring :=
  match ls with
  | [] => []
  | [l] => l
  | l :: ls' => l ++ sep ++ join sep ls'
  end.

(** Decimal rendering of a non-negative integer Number. *)
Definition decimal (z : Z) : jsstring :=
  js (NilZero.string_of_uint (N.to_uint (Z.to_N z))).

(* ================================================================== *)
(** * Regular expressions *)
(* ================================================================== *)

(** Abstract syntax of the patterns the parser uses.  A character class
    carries its inversion flag ([[^...]]); quantifiers are greedy. *)
Inductive regex : Type :=
| Eps
| Chr (inv : bool) (p : charset)
| Seq (a b : regex)
| Alt (a b : regex)
| Rep (lo : nat) (hi : option nat) (a : regex)
| Grp (i : nat) (a : regex).

(** Capture groups: [None] is [undefined]. *)
Definition caps := nat -> option jsstring.
Definition nocaps : caps := fun _ => None.
Definition setcap (i : nat) (w : jsstring) (c : caps) : caps :=
  fun j => if Nat.eqb j i then Some w else c j.
Definition clearcaps (gs : list nat) (c : caps) : caps :=
  fun j => if existsb (Nat.eqb j) gs then None else c j.

Fixpoint groups (r : regex) : list nat :=
  match r with
  | Eps | Chr _ _ => []
  | Seq a b | Alt a b => groups a ++ groups b
  | Rep _ _ a => groups a
  | Grp i a => i :: groups a
  end.

Definition decr (hi : option nat) : option nat := option_map pred hi.
Definition exhausted (hi : option nat) : bool :=
  match hi with Some 0 => true | _ => false end.

(** A continuation: what is left of the input, and the captures so far. *)
Definition cont := jsstring -> caps -> option (jsstring * caps).

(** One repetition [a{lo,hi}]: [once] matches [a], [gs] are the groups
    inside [a], which every round starts by clearing. *)
Definition repLoop
    (once : cont -> jsstring -> caps -> option (jsstring * caps))
    (gs : list nat) (k : cont)
    : nat -> nat -> option nat -> jsstring -> caps -> option (jsstring * caps) :=
  fix loop (fuel lo : nat) (hi : option nat) (s : jsstring) (c : caps)
      {struct fuel} : option (jsstring * caps) :=
    if exhausted hi then k s c
    else
      match fuel with
      | 0 => if Nat.eqb lo 0 then k s c else None
      | S fuel' =>
          let d := fun s' c' =>
            if (Nat.eqb lo 0 && Nat.eqb (length s') (length s))%bool
            then None
            else loop fuel' (pred lo) (decr hi) s' c' in
          if Nat.eqb lo 0 then
            match once d s (clearcaps gs c) with
            | Some y => Some y
            | None => k s c
            end
          else once d s (clearcaps gs c)
      end.

(** The backtracking matcher, in continuation-passing style as in the
    language definition: [run r k s c] matches [r] at the head of the
    remaining input [s] under captures [c] and hands what is left to [k];
    a failure of [k] makes the matcher try its next choice.  A repetition
    does at most [lo + length s] rounds, since every round either counts
    towards [lo] or consumes input (a round that matches the empty string
    once [lo] is reached is refused). *)
Fixpoint run (r : regex) (k : cont) (s : jsstring) (c : caps) {struct r}
    : option (jsstring * caps) :=
  match r with
  | Eps => k s c
  | Chr inv p =>
      match s with
      | x :: s' => if xorb inv (p x) then k s' c else None
      | [] => None
      end
  | Seq a b => run a (run b k) s c
  | Alt a b =>
      match run a k s c with
      | Some y => Some y
      | None => run b k s c
      end
  | Grp i a =>
      run a (fun s' c' =>
               k s' (setcap i (firstn (length s - length s') s) c')) s c
  | Rep lo hi a => repLoop (run a) (groups a) k (lo + length s) lo hi s c
  end.

(** The result of a successful match: where it starts, the matched text
    (group 0) and the numbered groups. *)
Record MatchResult := {
  index : nat;
  matched : jsstring;
  group : caps
}.

Definition matchHere (r : regex) (pos : nat) (s : jsstring) : option MatchResult :=
  match run r (fun s' c' => Some (s', c')) s nocaps with
  | Some (s', c') =>
      Some {| index := pos;
              matched := firstn (length s - length s') s;
              group := c' |}
  | None => None
  end.

(** [s.match(r)] for a pattern without the [g] flag: the first start
    position, from the left, at which the matcher succeeds. *)
Fixpoint execFrom (r : regex) (pos : nat) (s : jsstring) : option MatchResult :=
  match matchHere r pos s with
  | Some m => Some m
  | None =>
      match s with
      | [] => None
      | _ :: s' => execFrom r (S pos) s'
      end
  end.

Definition exec (r : regex) (s : jsstring) : option MatchResult := execFrom r 0 s.

(** A pattern that begins with [^] (no [m] flag) can only match at the
    start of the input. *)
Definition execAnchored (r : regex) (s : jsstring) : option MatchResult :=
  matchHere r 0 s.

(** [s.match(r)] with the [g] flag: all matches, left to right, each
    search resuming where the previous match ended (one unit further after
    an empty match). *)
Fixpoint matchAllFuel (fuel : nat) (r : regex) (s : jsstring) : list jsstring :=
  match fuel with
  | 0 => []
  | S fuel' =>
      match exec r s with
      | None => []
      | Some m =>
          matched m ::
            match matched m with
            | [] => match skipn (index m) s with
                    | [] => []
                    | _ :: s' => matchAllFuel fuel' r s'
                    end
            | _ => matchAllFuel fuel' r
                     (skipn (index m + length (matched m)) s)
            end
      end
  end.

Definition matchAll (r : regex) (s : jsstring) : list jsstring :=
  matchAllFuel (S (length s)) r s.

(** [s.replace(r, by)] with the [g] flag and a constant replacement. *)
Fixpoint replaceAllFuel (fuel : nat) (r : regex) (by_ : jsstring) (s : jsstring) : jsstring :=
  match fuel with
  | 0 => s
  | S fuel' =>
      match exec r s with
      | None => s
      | Some m =>
          firstn (index m) s ++ by_ ++
            match matched m with
            | [] => match skipn (index m) s with
                    | [] => []
                    | x :: s' => x :: replaceAllFuel fuel' r by_ s'
                    end
            | _ => replaceAllFuel fuel' r by_
                     (skipn (index m + length (matched m)) s)
            end
      end
  end.

Definition replaceAll (r : regex) (by_ : jsstring) (s : jsstring) : jsstring :=
  replaceAllFuel (S (length s)) r by_ s.

(** ** Writing patterns *)

Definition cls (p : charset) : regex := Chr false p.
Definition ncls (p : charset) : regex := Chr true p.
Definition chr (c : unit16) : regex := Chr false (N.eqb c).
Definition star (a : regex) : regex := Rep 0 None a.
Definition plus (a : regex) : regex := Rep 1 None a.
Definition opt (a : regex) : regex := Rep 0 (Some 1) a.

Fixpoint seq (l : list regex) : regex :=
  match l with
  | [] => Eps
  | [a] => a
  | a :: l' => Seq a (seq l')
  end.

Fixpoint alts (l : list regex) : regex :=
  match l with
  | [] => Chr false (fun _ => false)
  | [a] => a
  | a :: l' => Alt a (alts l')
  end.

Definition lit (s : string) : regex := seq (map chr (js s)).

Definition sp : regex := cls isSpace.       (* \s *)
Definition dg : regex := cls isDigit.       (* \d *)
Definition wd : regex := cls isWord.        (* \w *)

(** The [i] flag: a class matches a unit when it holds a member with the
    same canonical form.  Canonicalisation never maps a unit outside Basic
    Latin onto one inside, and the classes of this program hold Basic Latin
    units and caseless ones only, so both cases of a Basic Latin letter are
    all there is to try. *)
Definition fold_case (p : charset) : charset :=
  fun c => p (upperBasic c) || p (lowerBasic c).

Fixpoint ignoreCase (r : regex) : regex :=
  match r with
  | Eps => Eps
  | Chr inv p => Chr inv (fold_case p)
  | Seq a b => Seq (ignoreCase a) (ignoreCase b)
  | Alt a b => Alt (ignoreCase a) (ignoreCase b)
  | Rep lo hi a => Rep lo hi (ignoreCase a)
  | Grp i a => Grp i (ignoreCase a)
  end.

(** Pieces many patterns share. *)
Definition sps : regex := star sp.                          (* \s* *)
Definition colonDash : regex := opt (cls (oneOf ":-")).     (* [:\-]? *)
Definition digitsCommas : regex :=                          (* [\d,]+ *)
  plus (cls (orset isDigit (oneOf ","))).
Definition currency : regex :=                      (* (?:₹|rs\.?|inr)? *)
  opt (alts [chr rupee; seq [lit "rs"; opt (lit ".")]; lit "inr"]).
Definition notDigits : regex := star (ncls isDigit).        (* [^0-9]* *)
Definition number : regex :=                                (* \d+\.?\d* *)
  seq [plus dg; opt (lit "."); star dg].

(* ================================================================== *)
(** * The parser *)
(* ================================================================== *)

(** Each pattern is preceded by its source text.  Where the source has a
    star directly before a closing parenthesis, the comment puts a blank
    between the two. *)

Inductive JobType : Type :=
| job | admit_card | result | answer_key | admission.

Record VacancyEntry := {
  postName : jsstring; totalPost : jsstring; eligibility : jsstring }.
Record FeeEntry := { category : jsstring; fee : jsstring }.
Record DateEntry := { label : jsstring; date : jsstring }.
Record AgeEntry := {
  ageCategory : jsstring; minAge : jsstring; maxAge : jsstring }.
Record PhysicalEntry := {
  criteria : jsstring; male : jsstring; female : jsstring }.

(** The object [extractLinks] builds; a property never assigned is absent. *)
Record Links := {
  applyOnlineUrl : option jsstring;
  admitCardUrl : option jsstring;
  resultUrl : option jsstring;
  answerKeyUrl : option jsstring;
  notificationUrl : option jsstring;
  officialWebsiteUrl : option jsstring
}.

(** [ParsedJob]; an optional property is [None] when it is absent or
    [undefined].  The six URL properties are those of [links], which the
    source spreads into the record. *)
Record ParsedJob := {
  title : jsstring;
  department : jsstring;
  type : JobType;
  shortInfo : jsstring;
  qualification : option jsstring;
  state : option jsstring;
  vacancyDetails : list VacancyEntry;
  applicationFee : list FeeEntry;
  importantDates : list DateEntry;
  ageLimit : list AgeEntry;
  eligibilityDetails : option jsstring;
  selectionProcess : list jsstring;
  physicalEligibility : list PhysicalEntry;
  links : Links
}.

(** [x || undefined] on a string. *)
Definition orUndefined (s : jsstring) : option jsstring :=
  if truthy s then Some s else None.

(** [m && m[i]]: the group, when the match succeeded and the group is a
    non-empty string. *)
Definition captured (m : option MatchResult) (i : nat) : option jsstring :=
  match m with
  | Some r => match group r i with
              | Some w => if truthy w then Some w else None
              | None => None
              end
  | None => None
  end.

(** [m[i]] for a group that takes part in every match of its pattern. *)
Definition cap (r : MatchResult) (i : nat) : jsstring :=
  match group r i with Some w => w | None => [] end.

(** [a || b] on strings. *)
Definition orElse (a b : jsstring) : jsstring := if truthy a then a else b.

(** [s || t] where [s] is a section. *)
Definition sectionOr (section text : jsstring) : jsstring := orElse section text.

(** ** extractSection *)

(* /\n\s*[A-Z][A-Z\s]{5,}[:\n]/ *)
Definition nextSectionRe : regex :=
  seq [chr nl; sps; cls isUpper; Rep 5 None (cls (orset isUpper isSpace));
       cls (orset (oneOf ":") (N.eqb nl))].

(** [startIdx + (nextSectionMatch.index || 500)], or [startIdx + 1000]. *)
Definition sectionEnd (startIdx : nat) (nextSectionMatch : option MatchResult) : nat :=
  match nextSectionMatch with
  | Some m => startIdx + (if Nat.eqb (index m) 0 then 500 else index m)
  | None => startIdx + 1000
  end.

(** The body of the loop once a header is found at [idx]. *)
Definition sectionAt (text header : jsstring) (idx : nat) : jsstring :=
  let startIdx := idx + length header in
  let nextSectionMatch := exec nextSectionRe (sliceFrom text startIdx) in
  let endIdx := sectionEnd startIdx nextSectionMatch in
  trim (slice text startIdx (Nat.min endIdx (startIdx + 1500))).

Fixpoint sectionLoop `{CaseMapping} (text lowerText : jsstring)
    (headers : list jsstring) : jsstring :=
  match headers with
  | [] => []
  | header :: rest =>
      match indexOf lowerText (toLowerCase header) with
      | Some idx => sectionAt text header idx
      | None => sectionLoop text lowerText rest
      end
  end.

Definition extractSection `{CaseMapping} (text : jsstring)
    (headers : list jsstring) : jsstring :=
  sectionLoop text (toLowerCase text) headers.

(** ** extractDates *)

(* [\d\/\-]+\s*\w*\s*\d{4} *)
Definition dateNumeric : regex :=
  seq [plus (cls (orset isDigit (oneOf "/-"))); sps; star wd; sps;
       Rep 4 (Some 4) dg].
(* \d{1,2}\s+\w+\s+\d{4} *)
Definition dateWords : regex :=
  seq [Rep 1 (Some 2) dg; plus sp; plus wd; plus sp; Rep 4 (Some 4) dg].

Definition notifySoon : regex := seq [lit "notify"; sps; lit "soon"].

Definition datePatterns : list (regex * jsstring) :=
  [ (ignoreCase (seq [lit "application"; sps;
        alts [lit "begin"; lit "start"; seq [lit "start"; opt (lit "s")]];
        sps; colonDash; sps; Grp 1 (alts [dateNumeric; dateWords])]),
     js "Application Start");
    (ignoreCase (seq [alts [lit "last"; lit "closing"]; sps; lit "date"; sps;
        opt (seq [lit "for"; sps;
                  alts [lit "apply"; lit "application"; lit "online"]]);
        sps; colonDash; sps; Grp 1 (alts [dateNumeric; dateWords])]),
     js "Last Date");
    (ignoreCase (seq [lit "late"; sps; lit "fee"; sps;
        opt (alts [lit "date"; seq [lit "last"; sps; lit "date"]]);
        sps; colonDash; sps; Grp 1 (alts [dateNumeric; dateWords])]),
     js "Late Fee Date");
    (ignoreCase (seq [lit "exam"; sps; lit "date"; sps; colonDash; sps;
        Grp 1 (alts [dateNumeric; dateWords; notifySoon;
                     seq [lit "will"; sps; lit "be"; sps; lit "notified"]])]),
     js "Exam Date");
    (ignoreCase (seq [lit "admit"; sps; lit "card"; sps;
        opt (alts [lit "date"; lit "available"]);
        sps; colonDash; sps;
        Grp 1 (alts [dateNumeric; dateWords;
                     seq [lit "before"; sps; lit "exam"]; notifySoon])]),
     js "Admit Card");
    (ignoreCase (seq [lit "result"; sps;
        opt (alts [lit "date"; lit "declaration"]);
        sps; colonDash; sps;
        Grp 1 (alts [dateNumeric; notifySoon;
                     seq [lit "will"; sps; lit "be"; sps; lit "updated"]])]),
     js "Result Date");
    (ignoreCase (seq [lit "fee"; sps; lit "payment"; sps;
        opt (seq [lit "last"; sps; lit "date"]);
        sps; colonDash; sps; Grp 1 (alts [dateNumeric; dateWords])]),
     js "Fee Payment Last Date") ].

(* /^([^:]+):\s*([\d\/\-]+\s*\w*\s*\d{4}|\d{1,2}\s+\w+\s+\d{4})/ *)
Definition colonLineRe : regex :=
  seq [Grp 1 (plus (ncls (oneOf ":"))); lit ":"; sps;
       Grp 2 (alts [dateNumeric; dateWords])].

Definition datesFromPatterns (searchText : jsstring) : list DateEntry :=
  fold_left
    (fun dates pattern =>
       match captured (exec (fst pattern) searchText) 1 with
       | Some d => dates ++ [{| label := snd pattern; date := trim d |}]
       | None => dates
       end)
    datePatterns [].

Definition datesFromLines `{CaseMapping} (lines : list jsstring)
    (dates : list DateEntry) : list DateEntry :=
  fold_left
    (fun dates line =>
       match execAnchored colonLineRe line with
       | Some colonMatch =>
           let label1 := trim (cap colonMatch 1) in
           if existsb (fun d => str_eqb (toLowerCase (label d))
                                        (toLowerCase label1)) dates
           then dates
           else if (Nat.ltb 3 (length label1) && Nat.ltb (length label1) 50)%bool
                then dates ++ [{| label := label1;
                                  date := trim (cap colonMatch 2) |}]
                else dates
       | None => dates
       end)
    lines dates.

Definition extractDates `{CaseMapping} (text : jsstring) : list DateEntry :=
  let dateSection :=
    extractSection text
      [js "Important Dates"; js "IMPORTANT DATES"; js "Important Date"] in
  let searchText := sectionOr dateSection text in
  datesFromLines (splitLines searchText) (datesFromPatterns searchText).

(** ** extractFees *)

Definition feeTail (value : regex) : list regex :=
  [sps; colonDash; sps; currency; sps; Grp 1 value].

Definition amountOrNil : regex :=           (* [\d,]+|nil|exempted *)
  alts [digitsCommas; lit "nil"; lit "exempted"].

(** An optional slash and the blanks after it. *)
Definition slashSps : regex := opt (seq [lit "/"; sps]).

Definition feePatterns : list (regex * jsstring) :=
  [ (ignoreCase (seq ([lit "general"; sps; slashSps;
                       opt (seq [lit "ews"; sps; slashSps]);
                       opt (lit "obc")] ++ feeTail digitsCommas)),
     js "General/EWS/OBC");
    (ignoreCase (seq (lit "general" :: feeTail digitsCommas)), js "General");
    (ignoreCase (seq (lit "obc" :: feeTail digitsCommas)), js "OBC");
    (ignoreCase (seq (lit "ews" :: feeTail digitsCommas)), js "EWS");
    (ignoreCase (seq ([lit "sc"; sps; slashSps; lit "st"] ++ feeTail amountOrNil)),
     js "SC/ST");
    (ignoreCase (seq (lit "sc" :: feeTail amountOrNil)), js "SC");
    (ignoreCase (seq (lit "st" :: feeTail amountOrNil)), js "ST");
    (ignoreCase (seq (lit "female" :: feeTail amountOrNil)), js "Female");
    (ignoreCase (seq (alts [lit "ph"; lit "pwd"; lit "divyang"]
                        :: feeTail amountOrNil)),
     js "PH/PWD");
    (ignoreCase (seq ([lit "ex"; star (cls (orset (oneOf "-") isSpace));
                       lit "servicem"; cls (oneOf "ae"); lit "n"]
                        ++ feeTail amountOrNil)),
     js "Ex-Serviceman") ].

(* /,/g *)
Definition commaRe : regex := lit ",".

(** The fee string built from the capture [m1]. *)
Definition feeOf `{CaseMapping} (m1 : jsstring) : jsstring :=
  if (str_eqb (toLowerCase m1) (js "nil")
      || str_eqb (toLowerCase m1) (js "exempted"))%bool
  then js "Nil"
  else rupee :: replaceAll commaRe [] m1 ++ js "/-".

(** One round of the loop over [feePatterns]. *)
Definition feeStep `{CaseMapping} (searchText : jsstring)
    (fees : list FeeEntry) (pattern : regex * jsstring) : list FeeEntry :=
  match captured (exec (fst pattern) searchText) 1 with
  | Some m1 =>
      let fee := feeOf m1 in
      if existsb (fun f => str_eqb (category f) (snd pattern)) fees
      then fees
      else fees ++ [{| category := snd pattern; fee := fee |}]
  | None => fees
  end.

Definition feesIn `{CaseMapping} (searchText : jsstring) : list FeeEntry :=
  fold_left (feeStep searchText) feePatterns [].

Definition feeHeaders : list jsstring :=
  [js "Application Fee"; js "APPLICATION FEE"; js "Exam Fee"; js "EXAM FEE"].

Definition extractFees `{CaseMapping} (text : jsstring) : list FeeEntry :=
  let feeSection := extractSection text feeHeaders in
  feesIn (sectionOr feeSection text).

(** ** extractAgeLimit *)

Definition toOrDash : regex := alts [lit "to"; lit "-"].     (* (?:to|-) *)
Definition optAge : regex := opt (lit "age").
Definition years : regex := seq [lit "year"; opt (lit "s")]. (* years? *)

(* /(?:minimum|min)\s*(?:age)?\s*[:\-]?\s*(\d+)\s*(?:years?)?[\s,]*
     (?:maximum|max)\s*(?:age)?\s*[:\-]?\s*(\d+)/i *)
Definition singleAgeRe : regex :=
  ignoreCase (seq [alts [lit "minimum"; lit "min"]; sps; optAge; sps;
                   colonDash; sps; Grp 1 (plus dg); sps; opt years;
                   star (cls (orset isSpace (oneOf ",")));
                   alts [lit "maximum"; lit "max"]; sps; optAge; sps;
                   colonDash; sps; Grp 2 (plus dg)]).

(* /(\d+)\s*(?:to|-)\s*(\d+)\s*years?/i *)
Definition rangeRe : regex :=
  ignoreCase (seq [Grp 1 (plus dg); sps; toOrDash; sps; Grp 2 (plus dg);
                   sps; years]).

(** [K\s*[:\-]?\s*(\d+)\s*(?:to|-)\s*(\d+)]: the direct range after the
    keyword part [kw]. *)
Definition ageRange (kw : list regex) : regex :=
  seq (kw ++ [sps; colonDash; sps; Grp 1 (plus dg); sps; toOrDash; sps;
              Grp 2 (plus dg)]).

(** [K\s*[:\-]?[^0-9]*max(?:imum)?\s*(\d+)]: the maximum-only form. *)
Definition ageMaxOnly (kw : string) : regex :=
  seq [lit kw; sps; colonDash; notDigits; lit "max"; opt (lit "imum"); sps;
       Grp 3 (plus dg)].

Definition categoryPatterns : list (regex * jsstring) :=
  [ (ignoreCase (Alt (ageRange [lit "general"]) (ageMaxOnly "general")),
     js "General");
    (ignoreCase (Alt (ageRange [lit "obc"]) (ageMaxOnly "obc")), js "OBC");
    (ignoreCase (Alt (ageRange [lit "sc"; sps; opt (seq [lit "/"; sps; lit "st"])])
                     (ageMaxOnly "sc")),
     js "SC/ST");
    (ignoreCase (Alt (ageRange [lit "ews"]) (ageMaxOnly "ews")), js "EWS") ].

(** [m[i] || dflt]. *)
Definition groupOr (m : MatchResult) (i : nat) (dflt : jsstring) : jsstring :=
  match group m i with
  | Some w => orElse w dflt
  | None => dflt
  end.

(** One round of the loop over [categoryPatterns]. *)
Definition ageStep (searchText : jsstring) (ages : list AgeEntry)
    (pattern : regex * jsstring) : list AgeEntry :=
  match exec (fst pattern) searchText with
  | Some m =>
      let minAge := groupOr m 1 (js "18") in
      let maxAge := groupOr m 2 (groupOr m 3 (js "35")) in
      if existsb (fun a => str_eqb (ageCategory a) (snd pattern)) ages
      then ages
      else ages ++ [{| ageCategory := snd pattern;
                       minAge := minAge; maxAge := maxAge |}]
  | None => ages
  end.

(** The entries the two document-wide patterns seed the list with. *)
Definition seedAges (searchText : jsstring) : list AgeEntry :=
  let ages :=
    match exec singleAgeRe searchText with
    | Some m => [{| ageCategory := js "General";
                    minAge := cap m 1; maxAge := cap m 2 |}]
    | None => []
    end in
  match exec rangeRe searchText with
  | Some m =>
      if Nat.eqb (length ages) 0
      then ages ++ [{| ageCategory := js "General";
                       minAge := cap m 1; maxAge := cap m 2 |}]
      else ages
  | None => ages
  end.

Definition agesIn (searchText : jsstring) : list AgeEntry :=
  fold_left (ageStep searchText) categoryPatterns (seedAges searchText).

Definition ageHeaders : list jsstring :=
  [js "Age Limit"; js "AGE LIMIT"; js "Age Limits"].

Definition extractAgeLimit `{CaseMapping} (text : jsstring) : list AgeEntry :=
  let ageSection := extractSection text ageHeaders in
  agesIn (sectionOr ageSection text).

(** ** extractPhysicalEligibility *)

(* /height[^0-9]*(\d+\.?\d* )\s*(?:cm|meter)?[^0-9]*(?:male)?[^0-9]*
     (?:female)?[^0-9]*(\d+\.?\d* )?/i *)
Definition heightRe : regex :=
  ignoreCase (seq [lit "height"; notDigits; Grp 1 number; sps;
                   opt (alts [lit "cm"; lit "meter"]); notDigits;
                   opt (lit "male"); notDigits; opt (lit "female"); notDigits;
                   opt (Grp 2 number)]).

(* /chest[^0-9]*(\d+)[^\d]*-[^\d]*(\d+)/i *)
Definition chestRe : regex :=
  ignoreCase (seq [lit "chest"; notDigits; Grp 1 (plus dg); notDigits;
                   lit "-"; notDigits; Grp 2 (plus dg)]).

(* /weight[^0-9]*(\d+\.?\d* )\s*(?:kg)?/i *)
Definition weightRe : regex :=
  ignoreCase (seq [lit "weight"; notDigits; Grp 1 number; sps;
                   opt (lit "kg")]).

(** [m[i] ? `${m[i]} cm` : 'NA']. *)
Definition cmOrNA (m : MatchResult) (i : nat) : jsstring :=
  match captured (Some m) i with
  | Some w => w ++ js " cm"
  | None => js "NA"
  end.

Definition physicalIn (physSection : jsstring) : list PhysicalEntry :=
  let physical :=
    match exec heightRe physSection with
    | Some heightMatch =>
        [{| criteria := js "Height"; male := cmOrNA heightMatch 1;
            female := cmOrNA heightMatch 2 |}]
    | None => []
    end in
  let physical :=
    match exec chestRe physSection with
    | Some chestMatch =>
        physical ++
        [{| criteria := js "Chest";
            male := cap chestMatch 1 ++ js "-" ++ cap chestMatch 2 ++ js " cm";
            female := js "NA" |}]
    | None => physical
    end in
  match exec weightRe physSection with
  | Some weightMatch =>
      physical ++
      [{| criteria := js "Weight"; male := cap weightMatch 1 ++ js " kg";
          female := js "NA" |}]
  | None => physical
  end.

Definition physicalHeaders : list jsstring :=
  [js "Physical Eligibility"; js "PHYSICAL ELIGIBILITY";
   js "Physical Standard"; js "PHYSICAL STANDARD"; js "Physical Test"].

Definition extractPhysicalEligibility `{CaseMapping} (text : jsstring)
    : list PhysicalEntry :=
  let physSection := extractSection text physicalHeaders in
  if negb (truthy physSection) then [] else physicalIn physSection.

(** ** extractVacancyDetails *)

(* /total\s*(?:post|vacancy|vacancies)\s*[:\-]?\s*([\d,]+)/i *)
Definition totalRe : regex :=
  ignoreCase (seq [lit "total"; sps;
                   alts [lit "post"; lit "vacancy"; lit "vacancies"]; sps;
                   colonDash; sps; Grp 1 digitsCommas]).

Definition lettersSpaces : charset := orset isAlpha isSpace.   (* [A-Za-z\s] *)

(* /([A-Za-z\s]+(?:constable|officer|clerk|assistant|manager|engineer|
     teacher|inspector)?)[:\-\s]+([\d,]+)\s*(?:post|vacancy)?/i *)
Definition postRe : regex :=
  ignoreCase
    (seq [Grp 1 (seq [plus (cls lettersSpaces);
                      opt (alts [lit "constable"; lit "officer"; lit "clerk";
                                 lit "assistant"; lit "manager"; lit "engineer";
                                 lit "teacher"; lit "inspector"])]);
          plus (cls (orset (oneOf ":-") isSpace));
          Grp 2 digitsCommas; sps; opt (alts [lit "post"; lit "vacancy"])]).

Definition announcement : regex :=
  alts [lit "recruitment"; lit "notification";
        seq [lit "online"; sps; lit "form"]].
Definition forOf : regex := opt (alts [lit "for"; lit "of"]).

(* /(?:recruitment|notification|online\s*form)\s*(?:for|of)?\s*([A-Za-z\s]+)/i *)
Definition roleRe : regex :=
  ignoreCase (seq [announcement; sps; forOf; sps;
                   Grp 1 (plus (cls lettersSpaces))]).

Definition stripCommas (s : jsstring) : jsstring := replaceAll commaRe [] s.

Definition vacanciesFromLines (lines : list jsstring) : list VacancyEntry :=
  fold_left
    (fun vacancies line =>
       match exec postRe line with
       | Some postMatch =>
           if Nat.ltb 3 (length (trim (cap postMatch 1)))
           then vacancies ++
                [{| postName := trim (cap postMatch 1);
                    totalPost := stripCommas (cap postMatch 2);
                    eligibility := [] |}]
           else vacancies
       | None => vacancies
       end)
    lines [].

Definition extractVacancyDetails `{CaseMapping} (text : jsstring)
    : list VacancyEntry :=
  let vacSection :=
    extractSection text
      [js "Vacancy Details"; js "VACANCY DETAILS"; js "Post Wise Vacancy";
       js "POST WISE VACANCY"; js "Total Post"] in
  let searchText := sectionOr vacSection text in
  let totalMatch := exec totalRe text in
  let vacancies := vacanciesFromLines (splitLines searchText) in
  match vacancies, totalMatch with
  | [], Some total =>
      let titleMatch := exec roleRe text in
      [{| postName := match titleMatch with
                      | Some m => trim (cap m 1)
                      | None => js "Various Posts"
                      end;
          totalPost := stripCommas (cap total 1);
          eligibility := [] |}]
  | _, _ => vacancies
  end.

(** ** extractLinks *)

(** [http], an optional [s], [://], then one or more units that are not a
    blank, an angle bracket, a quote of either kind, a closing parenthesis
    or a closing square bracket; flags [g] and [i]. *)
Definition urlRegex : regex :=
  ignoreCase
    (seq [lit "http"; opt (lit "s"); lit "://";
          plus (ncls (orset isSpace (orset (oneOf "<>')]") (N.eqb quote))))]).

Definition noLinks : Links :=
  {| applyOnlineUrl := None; admitCardUrl := None; resultUrl := None;
     answerKeyUrl := None; notificationUrl := None;
     officialWebsiteUrl := None |}.

(** [!links.x]: the property is absent, or holds the empty string. *)
Definition unset (x : option jsstring) : bool :=
  match x with Some w => negb (truthy w) | None => true end.

Definition assignLink `{CaseMapping} (links : Links) (url : jsstring) : Links :=
  let lowerUrl := toLowerCase url in
  if (includes lowerUrl (js "apply") || includes lowerUrl (js "registration"))%bool then
    if unset (applyOnlineUrl links) then
      {| applyOnlineUrl := Some url; admitCardUrl := admitCardUrl links;
         resultUrl := resultUrl links; answerKeyUrl := answerKeyUrl links;
         notificationUrl := notificationUrl links;
         officialWebsiteUrl := officialWebsiteUrl links |}
    else links
  else if (includes lowerUrl (js "notification") || includes lowerUrl (js "pdf"))%bool then
    if unset (notificationUrl links) then
      {| applyOnlineUrl := applyOnlineUrl links; admitCardUrl := admitCardUrl links;
         resultUrl := resultUrl links; answerKeyUrl := answerKeyUrl links;
         notificationUrl := Some url;
         officialWebsiteUrl := officialWebsiteUrl links |}
    else links
  else if (includes lowerUrl (js "admit") || includes lowerUrl (js "hall-ticket"))%bool then
    if unset (admitCardUrl links) then
      {| applyOnlineUrl := applyOnlineUrl links; admitCardUrl := Some url;
         resultUrl := resultUrl links; answerKeyUrl := answerKeyUrl links;
         notificationUrl := notificationUrl links;
         officialWebsiteUrl := officialWebsiteUrl links |}
    else links
  else if includes lowerUrl (js "result") then
    if unset (resultUrl links) then
      {| applyOnlineUrl := applyOnlineUrl links; admitCardUrl := admitCardUrl links;
         resultUrl := Some url; answerKeyUrl := answerKeyUrl links;
         notificationUrl := notificationUrl links;
         officialWebsiteUrl := officialWebsiteUrl links |}
    else links
  else if (includes lowerUrl (js "answer") || includes lowerUrl (js "key"))%bool then
    if unset (answerKeyUrl links) then
      {| applyOnlineUrl := applyOnlineUrl links; admitCardUrl := admitCardUrl links;
         resultUrl := resultUrl links; answerKeyUrl := Some url;
         notificationUrl := notificationUrl links;
         officialWebsiteUrl := officialWebsiteUrl links |}
    else links
  else if (includes lowerUrl (js "gov.in") || includes lowerUrl (js "nic.in"))%bool then
    if unset (officialWebsiteUrl links) then
      {| applyOnlineUrl := applyOnlineUrl links; admitCardUrl := admitCardUrl links;
         resultUrl := resultUrl links; answerKeyUrl := answerKeyUrl links;
         notificationUrl := notificationUrl links;
         officialWebsiteUrl := Some url |}
    else links
  else links.

Definition assignLinks `{CaseMapping} (allUrls : list jsstring) : Links :=
  fold_left assignLink allUrls noLinks.

Definition extractLinks `{CaseMapping} (text : jsstring) : Links :=
  assignLinks (matchAll urlRegex text).

(** ** extractSelectionProcess *)

Definition stages : list jsstring :=
  map js
    ["Written Exam"; "Written Test"; "CBT"; "Computer Based Test";
     "Physical Efficiency Test"; "PET"; "Physical Standard Test"; "PST";
     "Document Verification"; "Medical Test"; "Medical Examination";
     "Interview"; "Skill Test"; "Typing Test"; "Trade Test"].

(* /\s+/g *)
Definition blanksRe : regex := plus sp.

Definition extractSelectionProcess `{CaseMapping} (text : jsstring)
    : list jsstring :=
  let selSection :=
    extractSection text
      [js "Selection Process"; js "SELECTION PROCESS"; js "Mode of Selection"] in
  let searchText := sectionOr selSection text in
  fold_left
    (fun process stage =>
       if includes (toLowerCase searchText) (toLowerCase stage) then
         let normalized := trim (replaceAll blanksRe (js " ") stage) in
         if existsb (str_eqb normalized) process then process
         else process ++ [normalized]
       else process)
    stages [].

(** ** detectType *)

Definition detectType `{CaseMapping} (text : jsstring) : JobType :=
  let lowerText := toLowerCase text in
  if (includes lowerText (js "admit card") || includes lowerText (js "hall ticket")
      || includes lowerText (js "call letter"))%bool then admit_card
  else if (includes lowerText (js "result")
           && (includes lowerText (js "download")
               || includes lowerText (js "declared")
               || includes lowerText (js "out")))%bool then result
  else if includes lowerText (js "answer key") then answer_key
  else if (includes lowerText (js "admission")
           && negb (includes lowerText (js "admit card")))%bool then admission
  else job.

(** ** extractTitle *)

(* /recruitment|notification|online\s*form|vacancy|bharti/i *)
Definition titleLineRe : regex :=
  ignoreCase (alts [lit "recruitment"; lit "notification";
                    seq [lit "online"; sps; lit "form"];
                    lit "vacancy"; lit "bharti"]).

(* /[*#_]+/g *)
Definition emphasisRe : regex := plus (cls (oneOf "*#_")).

(* /(?:recruitment|notification|online\s*form)\s*(?:for|of)?\s*
     ([A-Za-z0-9\s\-]+(?:2024|2025|2026)?)/i *)
Definition titleRe : regex :=
  ignoreCase
    (seq [announcement; sps; forOf; sps;
          Grp 1 (seq [plus (cls (orset isAlpha
                               (orset isDigit (orset isSpace (oneOf "-")))));
                      opt (alts [lit "2024"; lit "2025"; lit "2026"])])]).

Definition nonBlankLines (text : jsstring) : list jsstring :=
  filter (fun l => Nat.ltb 0 (length (trim l))) (splitLines text).

(** The first of the given lines that names an announcement and is shorter
    than 150 units. *)
Fixpoint titleLine (lines : list jsstring) : option jsstring :=
  match lines with
  | [] => None
  | line :: rest =>
      match exec titleLineRe line with
      | Some _ =>
          if Nat.ltb (length line) 150
          then Some (trim (replaceAll emphasisRe [] (trim line)))
          else titleLine rest
      | None => titleLine rest
      end
  end.

Definition extractTitle (text : jsstring) : jsstring :=
  let lines := nonBlankLines text in
  match titleLine (firstn 10 lines) with
  | Some t => t
  | None =>
      match exec titleRe text with
      | Some titleMatch => trim (matched titleMatch)
      | None =>
          match lines with
          | first :: _ => orElse (slice first 0 100) (js "Government Job Notification")
          | [] => js "Government Job Notification"
          end
      end
  end.

(** ** extractDepartment *)

Definition deptPatterns : list regex :=
  [ ignoreCase
      (seq [alts [lit "organization"; lit "department"; lit "ministry";
                  lit "commission"; lit "board"; lit "corporation"];
            sps; colonDash; sps; Grp 1 (plus (cls lettersSpaces))]);
    ignoreCase
      (Grp 1 (seq [plus (cls lettersSpaces);
                   alts [lit "commission"; lit "board"; lit "ministry";
                         lit "department"; lit "corporation"; lit "police";
                         lit "railway"; lit "bank"]])) ].

Fixpoint firstDepartment (text : jsstring) (patterns : list regex) : jsstring :=
  match patterns with
  | [] => js "Government of India"
  | pattern :: rest =>
      match captured (exec pattern text) 1 with
      | Some m1 => slice (trim m1) 0 100
      | None => firstDepartment text rest
      end
  end.

Definition extractDepartment (text : jsstring) : jsstring :=
  firstDepartment text deptPatterns.

(** ** extractQualification *)

(** Each pattern with its [source] text. *)
Definition qualPatterns : list (regex * jsstring) :=
  [ (ignoreCase (seq [lit "10th"; sps;
                      alts [lit "pass"; lit "passed"; lit "class"]]),
     js "10th\s*(?:pass|passed|class)");
    (ignoreCase (seq [lit "12th"; sps;
                      alts [lit "pass"; lit "passed"; lit "class";
                            lit "intermediate"]]),
     js "12th\s*(?:pass|passed|class|intermediate)");
    (ignoreCase (alts [lit "graduation"; lit "graduate"; lit "bachelor"]),
     js "graduation|graduate|bachelor");
    (ignoreCase (alts [seq [lit "post"; sps; lit "graduation"]; lit "master"]),
     js "post\s*graduation|master");
    (ignoreCase (alts [seq [lit "b"; opt (lit "."); lit "tech"];
                       seq [lit "b"; opt (lit "."); lit "e"; lit "."];
                       lit "engineering"]),
     js "b\.?tech|b\.?e\.|engineering");
    (ignoreCase (alts [lit "mbbs"; lit "medical"]), js "mbbs|medical") ].

(** The two clean-up patterns applied to a [source] text: the literal
    texts backslash-s-star, question-mark-colon and bar; then a backslash. *)
Definition sourceNoiseRe : regex := alts [lit "\s*"; lit "?:"; lit "|"].
Definition backslashRe : regex := lit "\".

Definition qualKeywords (text : jsstring) : list jsstring :=
  fold_left
    (fun found pattern =>
       match exec (fst pattern) text with
       | Some _ =>
           found ++
           [replaceAll backslashRe []
              (replaceAll sourceNoiseRe (js " ") (snd pattern))]
       | None => found
       end)
    qualPatterns [].

Definition qualHeaders : list jsstring :=
  [js "Educational Qualification"; js "EDUCATIONAL QUALIFICATION";
   js "Qualification"; js "QUALIFICATION"; js "Eligibility"].

Definition extractQualification `{CaseMapping} (text : jsstring) : jsstring :=
  let qualSection := extractSection text qualHeaders in
  if (truthy qualSection && Nat.ltb 20 (length qualSection))%bool
  then slice qualSection 0 500
  else
    let found := qualKeywords text in
    if Nat.ltb 0 (length found) then join (js ", ") found else [].

(** ** extractState *)

Definition states : list jsstring :=
  map js
    ["Uttar Pradesh"; "UP"; "Bihar"; "Rajasthan"; "Madhya Pradesh"; "MP";
     "Maharashtra"; "Gujarat"; "Karnataka"; "Tamil Nadu"; "Kerala";
     "West Bengal"; "Haryana"; "Punjab"; "Delhi"; "Uttarakhand";
     "Jharkhand"; "Chhattisgarh"; "Odisha"; "Assam"; "Telangana";
     "Andhra Pradesh"; "Himachal Pradesh"; "Jammu"; "Kashmir"].

Fixpoint firstState (text : jsstring) (l : list jsstring) : option jsstring :=
  match l with
  | [] => None
  | state :: rest =>
      if includes text state then
        Some (if str_eqb state (js "UP") then js "Uttar Pradesh"
              else if str_eqb state (js "MP") then js "Madhya Pradesh"
              else state)
      else firstState text rest
  end.

Definition extractState `{CaseMapping} (text : jsstring) : jsstring :=
  match firstState text states with
  | Some s => s
  | None =>
      if (includes (toLowerCase text) (js "all india")
          || includes (toLowerCase text) (js "central government"))%bool
      then js "All India"
      else []
  end.

(** ** parseInt and the total of the posts

    Numbers are modelled on the integers: that is what the host computes as
    long as every value and every partial sum stays within the safe range
    (magnitude below 2^53).  [None] is [NaN]. *)

Definition digitValue (radix : N) (c : unit16) : option N :=
  let v := if isDigit c then Some (c - 48)%N
           else if isLower c then Some (c - 87)%N
           else if isUpper c then Some (c - 55)%N
           else None in
  match v with
  | Some d => if N.ltb d radix then Some d else None
  | None => None
  end.

(** The value of the longest prefix of digits of the radix, if not empty. *)
Fixpoint digitsValue (radix : N) (s : jsstring) (acc : option N) : option N :=
  match s with
  | c :: s' =>
      match digitValue radix c with
      | Some d =>
          digitsValue radix s'
            (Some (match acc with Some a => a * radix + d | None => d end)%N)
      | None => acc
      end
  | [] => acc
  end.

Definition parseInt (s : jsstring) : option Z :=
  let s1 := trimStart s in
  let '(negative, s2) :=
    match s1 with
    | c :: t => if N.eqb c (ch "-") then (true, t)
                else if N.eqb c (ch "+") then (false, t)
                else (false, s1)
    | [] => (false, s1)
    end in
  let '(radix, s3) :=
    match s2 with
    | z :: x :: t =>
        if (N.eqb z (ch "0") && (N.eqb x (ch "x") || N.eqb x (ch "X")))%bool
        then (16%N, t) else (10%N, s2)
    | _ => (10%N, s2)
    end in
  match digitsValue radix s3 None with
  | Some n => Some (if negative then - Z.of_N n else Z.of_N n)%Z
  | None => None
  end.

(** [parseInt(s) || 0]: [NaN] and zero both give 0. *)
Definition parseIntOr0 (s : jsstring) : Z :=
  match parseInt s with Some n => n | None => 0%Z end.

(** [vacancyDetails.reduce((sum, v) => sum + (parseInt(v.totalPost) || 0), 0)] *)
Definition totalPostsOf (vacancyDetails : list VacancyEntry) : Z :=
  fold_left (fun sum v => (sum + parseIntOr0 (totalPost v))%Z) vacancyDetails 0%Z.

(** ** parseJobNotification *)

Definition lastDateOf (importantDates : list DateEntry) : option jsstring :=
  match find (fun d => includes (label d) (js "Last")) importantDates with
  | Some d => orUndefined (date d)
  | None => None
  end.

(** The template of the short information.  The total is printed as the
    integer the model computes: this is what the host prints as long as
    every value and every running total of the sum stays in the safe integer
    range, and statements that read the printed total assume so. *)
Definition shortInfoOf (department title : jsstring) (totalPosts : Z)
    (importantDates : list DateEntry) : jsstring :=
  trim (department ++ js " has released notification for " ++ title ++ js ". "
        ++ (if Z.ltb 0 totalPosts
            then js "Total " ++ decimal totalPosts ++ js " posts available."
            else [])
        ++ js " "
        ++ match lastDateOf importantDates with
           | Some d => js "Last date to apply: " ++ d ++ js "."
           | None => []
           end).

Definition parseJobNotification `{CaseMapping} (rawText : jsstring) : ParsedJob :=
  let title := extractTitle rawText in
  let department := extractDepartment rawText in
  let type := detectType rawText in
  let importantDates := extractDates rawText in
  let applicationFee := extractFees rawText in
  let ageLimit := extractAgeLimit rawText in
  let physicalEligibility := extractPhysicalEligibility rawText in
  let vacancyDetails := extractVacancyDetails rawText in
  let selectionProcess := extractSelectionProcess rawText in
  let qualification := extractQualification rawText in
  let state := extractState rawText in
  let links := extractLinks rawText in
  let totalPosts := totalPostsOf vacancyDetails in
  let shortInfo := shortInfoOf department title totalPosts importantDates in
  {| title := title;
     department := department;
     type := type;
     shortInfo := shortInfo;
     qualification := orUndefined qualification;
     state := orUndefined state;
     vacancyDetails := vacancyDetails;
     applicationFee := applicationFee;
     importantDates := importantDates;
     ageLimit := ageLimit;
     eligibilityDetails := Some qualification;
     selectionProcess := selectionProcess;
     physicalEligibility := physicalEligibility;
     links := links |}.

(* ================================================================== *)
(** * The slug of a post (routes.ts) *)
(* ================================================================== *)

(* /20\d{2}/ *)
Definition yearRe : regex := seq [lit "20"; Rep 2 (Some 2) dg].

(* /[^\w\s-]/g *)
Definition unsafeRe : regex := ncls (orset isWord (orset isSpace (oneOf "-"))).

(* /-+/g *)
Definition dashesRe : regex := plus (chr (ch "-")).

(** Drops the units of a class at the head of a string. *)
Fixpoint stripStart (p : charset) (s : jsstring) : jsstring :=
  match s with
  | c :: s' => if p c then stripStart p s' else s
  | [] => []
  end.

(** [s.replace(/^-+|-+$/g, '')].  The first alternative can match at the
    start of the string only, where it takes the whole run of dashes; the
    second matches only where nothing but dashes follows up to the end, so
    its one match is the run of dashes the string ends with.  Both runs are
    removed, and nothing else. *)
Definition stripDashes (s : jsstring) : jsstring :=
  rev (stripStart (N.eqb (ch "-")) (rev (stripStart (N.eqb (ch "-")) s))).

(** [generateSlug]; [year] stands for [new Date().getFullYear()]. *)
Definition generateSlug `{CaseMapping} (year : Z) (title : jsstring) : jsstring :=
  let yearMatch := exec yearRe title in
  let hasYear := match yearMatch with Some _ => true | None => false end in
  let slug :=
    firstn 60
      (stripDashes
         (replaceAll dashesRe (js "-")
            (replaceAll blanksRe (js "-")
               (replaceAll unsafeRe [] (toLowerCase title))))) in
  if negb hasYear then slug ++ js "-" ++ decimal year else slug.

(** The posts table, as far as the slugs go: the other columns play no part
    here.  The column can be null. *)
Record Post := { slug : option jsstring }.

(** [storage.getPostBySlug]: the first row whose slug is the given one. *)
Definition getPostBySlug (posts : list Post) (wanted : jsstring) : option Post :=
  find (fun p => match slug p with
                 | Some s => str_eqb s wanted
                 | None => false
                 end) posts.

(** The loop of [ensureUniqueSlug], entered with the candidate [candidate]
    and the counter [counter], against a table that does not change
    meanwhile; [fuel] bounds the number of rounds. *)
Fixpoint ensureUniqueLoop (fuel : nat) (posts : list Post) (baseSlug : jsstring)
    (counter : Z) (candidate : jsstring) : option jsstring :=
  match getPostBySlug posts candidate with
  | None => Some candidate
  | Some _ =>
      match fuel with
      | 0 => None
      | S fuel' =>
          ensureUniqueLoop fuel' posts baseSlug (counter + 1)%Z
            (baseSlug ++ js "-" ++ decimal counter)
      end
  end.

Definition ensureUniqueSlug (fuel : nat) (posts : list Post) (baseSlug : jsstring)
    : option jsstring :=
  ensureUniqueLoop fuel posts baseSlug 1%Z baseSlug.

(* ================================================================== *)
(** * The specification's wording, for comparison *)
(* ================================================================== *)

(** The classifier as the specification words it: an ordered table of
    rules over the lower-cased text, the first rule that holds wins, [job]
    when none does. *)
Definition typeRules : list ((jsstring -> bool) * JobType) :=
  [ (fun t => includes t (js "admit card") || includes t (js "hall ticket")
              || includes t (js "call letter"), admit_card);
    (fun t => includes t (js "result")
              && (includes t (js "download") || includes t (js "declared")
                  || includes t (js "out")), result);
    (fun t => includes t (js "answer key"), answer_key);
    (fun t => includes t (js "admission") && negb (includes t (js "admit card")),
     admission) ].

Fixpoint firstRule (rules : list ((jsstring -> bool) * JobType))
    (t : jsstring) : JobType :=
  match rules with
  | [] => job
  | (holds, ty) :: rest => if holds t then ty else firstRule rest t
  end.

(** The sum of a list of integers. *)
Definition sumZ (l : list Z) : Z := fold_right Z.add 0%Z l.

(** The numeric value of a [totalPost] string, 0 when it has none. *)
Definition numericValue (totalPost : jsstring) : Z :=
  match parseInt totalPost with
  | Some n => n
  | None => 0%Z
  end.

(** Every value and every running total is a safe integer, so that the
    host's floating-point sum is the integer sum. *)
Definition safeInteger (z : Z) : Prop := (Z.abs z < 2 ^ 53)%Z.

Fixpoint safeTotals (sum : Z) (l : list VacancyEntry) : Prop :=
  match l with
  | [] => True
  | v :: l' =>
      safeInteger (numericValue (totalPost v)) /\
      safeInteger (sum + numericValue (totalPost v)) /\
      safeTotals (sum + numericValue (totalPost v))%Z l'
  end.

(** The bucket a URL falls into: the first keyword check that succeeds. *)
Inductive Bucket : Type :=
| ApplyOnline | Notification | AdmitCard | Result | AnswerKey | OfficialWebsite.

Definition bucketChecks : list ((jsstring -> bool) * Bucket) :=
  [ (fun u => includes u (js "apply") || includes u (js "registration"), ApplyOnline);
    (fun u => includes u (js "notification") || includes u (js "pdf"), Notification);
    (fun u => includes u (js "admit") || includes u (js "hall-ticket"), AdmitCard);
    (fun u => includes u (js "result"), Result);
    (fun u => includes u (js "answer") || includes u (js "key"), AnswerKey);
    (fun u => includes u (js "gov.in") || includes u (js "nic.in"), OfficialWebsite) ].

Fixpoint firstCheck (checks : list ((jsstring -> bool) * Bucket))
    (lowerUrl : jsstring) : option Bucket :=
  match checks with
  | [] => None
  | (holds, b) :: rest => if holds lowerUrl then Some b else firstCheck rest lowerUrl
  end.

Definition bucketOf `{CaseMapping} (url : jsstring) : option Bucket :=
  firstCheck bucketChecks (toLowerCase url).

Definition bucket_eqb (a b : Bucket) : bool :=
  match a, b with
  | ApplyOnline, ApplyOnline | Notification, Notification
  | AdmitCard, AdmitCard | Result, Result | AnswerKey, AnswerKey
  | OfficialWebsite, OfficialWebsite => true
  | _, _ => false
  end.

Definition inBucket `{CaseMapping} (b : Bucket) (url : jsstring) : bool :=
  match bucketOf url with
  | Some b' => bucket_eqb b b'
  | None => false
  end.

Definition linkOf (b : Bucket) (l : Links) : option jsstring :=
  match b with
  | ApplyOnline => applyOnlineUrl l
  | Notification => notificationUrl l
  | AdmitCard => admitCardUrl l
  | Result => resultUrl l
  | AnswerKey => answerKeyUrl l
  | OfficialWebsite => officialWebsiteUrl l
  end.

(* ================================================================== *)
(** * What a pattern matches *)
(* ================================================================== *)

(** [rounds R gs n w c c']: [w] splits into [n] consecutive words, each in
    [R], the captures of [gs] being cleared before each. *)
Fixpoint rounds (R : jsstring -> caps -> caps -> Prop) (gs : list nat)
    (n : nat) (w : jsstring) (c c' : caps) : Prop :=
  match n with
  | 0 => w = [] /\ c' = c
  | S n' =>
      exists w1 w2 c1,
        w = w1 ++ w2 /\ R w1 (clearcaps gs c) c1 /\ rounds R gs n' w2 c1 c'
  end.

(** [den r w c c']: the pattern [r] matches exactly the word [w] and
    turns the captures [c] into [c'].  This is the relation the matcher
    searches; its order of preference is not part of it. *)
Fixpoint den (r : regex) (w : jsstring) (c c' : caps) : Prop :=
  match r with
  | Eps => w = [] /\ c' = c
  | Chr inv p => exists x, w = [x] /\ xorb inv (p x) = true /\ c' = c
  | Seq a b =>
      exists w1 w2 c1, w = w1 ++ w2 /\ den a w1 c c1 /\ den b w2 c1 c'
  | Alt a b => den a w c c' \/ den b w c c'
  | Rep lo hi a =>
      exists n,
        (lo <= n \/ hi = Some n) /\
        (forall h, hi = Some h -> n <= h) /\
        rounds (den a) (groups a) n w c c'
  | Grp i a => exists c1, den a w c c1 /\ c' = setcap i w c1
  end.

(** What it means for a matcher to be sound for a relation on words. *)
Definition soundFor (once : cont -> jsstring -> caps -> option (jsstring * caps))
    (R : jsstring -> caps -> caps -> Prop) : Prop :=
  forall k s c y,
    once k s c = Some y ->
    exists w s' c', s = w ++ s' /\ R w c c' /\ k s' c' = Some y.

(** What it means for a matcher to be complete for a relation on words:
    it succeeds wherever a word of the relation is followed by something
    the continuation accepts under any captures. *)
Definition completeFor (once : cont -> jsstring -> caps -> option (jsstring * caps))
    (R : jsstring -> caps -> caps -> Prop) : Prop :=
  forall k s w s' c c0 c',
    s = w ++ s' -> R w c0 c' ->
    (forall c1, k s' c1 <> None) ->
    once k s c <> None.

(** A word of the pattern starts at offset [i] of [s]. *)
Definition matchesAt (r : regex) (s : jsstring) (i : nat) : Prop :=
  exists w post c0 c', i <= length s /\ skipn i s = w ++ post /\ den r w c0 c'.




(** A lower bound on the length of what a pattern matches. *)
Fixpoint minLen (r : regex) : nat :=
  match r with
  | Eps => 0
  | Chr _ _ => 1
  | Seq a b => minLen a + minLen b
  | Alt a b => Nat.min (minLen a) (minLen b)
  | Rep lo hi a =>
      match hi with Some h => Nat.min lo h | None => lo end * minLen a
  | Grp _ a => minLen a
  end.

Definition mentions (i : nat) (r : regex) : bool := existsb (Nat.eqb i) (groups r).

(** [assigns r i]: the body of the group [i] that every match of [r] runs
    last, when there is one: a group on the spine of sequences of [r], not
    under an alternative or a quantifier, and not mentioned after it. *)
Fixpoint assigns (r : regex) (i : nat) : option regex :=
  match r with
  | Seq a b =>
      match assigns b i with
      | Some x => Some x
      | None => if mentions i b then None else assigns a i
      end
  | Grp j a => if Nat.eqb i j then Some a else assigns a i
  | _ => None
  end.

(** [w] occurs in [s]. *)
Definition occursIn (w s : jsstring) : Prop :=
  exists pre post, s = pre ++ w ++ post.

(** [within q r]: every unit a match of [r] consumes is in [q]. *)
Fixpoint within (q : charset) (r : regex) : Prop :=
  match r with
  | Eps => True
  | Chr inv p => forall x, xorb inv (p x) = true -> q x = true
  | Seq a b | Alt a b => within q a /\ within q b
  | Rep _ _ a | Grp _ a => within q a
  end.

(** [needs q r]: every match of [r] consumes at least one unit of [q]. *)
Fixpoint needs (q : charset) (r : regex) : Prop :=
  match r with
  | Eps => False
  | Chr inv p => forall x, xorb inv (p x) = true -> q x = true
  | Seq a b => needs q a \/ needs q b
  | Alt a b => needs q a /\ needs q b
  | Rep lo hi a => 1 <= lo /\ hi <> Some 0 /\ needs q a
  | Grp _ a => needs q a
  end.

(* ================================================================== *)
(** * Notions the statements use *)
(* ================================================================== *)


(** The pattern of a literal under the [i] flag. *)
Definition literalAnyCase (l : jsstring) : regex :=
  seq (map (fun c => Chr false (fold_case (N.eqb c))) l).

(** What the capture of a fee pattern can be. *)
Definition numericCapture (g : jsstring) : Prop :=
  g <> [] /\ forallb (orset isDigit (oneOf ",")) g = true.

(** The capture lower-cases, letter by letter, to the given word. *)
Definition wordCapture (word : string) (g : jsstring) : Prop :=
  map lowerBasic g = js word /\ forallb isBasic g = true.

(** A capture of digits and commas, or of one of the two words. *)
Definition feeCapture (g : jsstring) : Prop :=
  numericCapture g \/ wordCapture "nil" g \/ wordCapture "exempted" g.


(** Every link held is a non-empty string. *)
Definition linksFilled (links : Links) : Prop :=
  forall b u, linkOf b links = Some u -> u <> [].

(** A run of one or more digits, as every age group captures. *)
Definition digits (g : jsstring) : Prop :=
  g <> [] /\ forallb isDigit g = true.

(** No digit anywhere in the text. *)
Definition digitFree (s : jsstring) : bool :=
  forallb (fun x => negb (isDigit x)) s.

(** The shape the four category patterns share: a direct range that
    captures groups 1 and 2, or a maximum-only form that captures group 3. *)
Definition rangeOrMax (r : regex) : Prop :=
  exists a b,
    r = Alt a b /\
    assigns a 1 = Some (ignoreCase (plus dg)) /\
    assigns a 2 = Some (ignoreCase (plus dg)) /\
    mentions 3 a = false /\
    assigns b 3 = Some (ignoreCase (plus dg)) /\
    mentions 1 b = false /\ mentions 2 b = false.

(** [ages.push(e)] unless the category is there already. *)
Definition pushAge (ages : list AgeEntry) (e : AgeEntry) : list AgeEntry :=
  if existsb (fun a => str_eqb (ageCategory a) (ageCategory e)) ages
  then ages else ages ++ [e].

(** The groups the parser reads without a guard, with their patterns. *)
Definition unguardedGroups : list (regex * nat) :=
  [ (colonLineRe, 1); (colonLineRe, 2); (singleAgeRe, 1); (singleAgeRe, 2);
    (rangeRe, 1); (rangeRe, 2); (chestRe, 1); (chestRe, 2); (weightRe, 1);
    (postRe, 1); (postRe, 2); (roleRe, 1); (totalRe, 1) ].



(** The entry of a category in a list of age limits, if it has one. *)
Definition entryOf (cat : jsstring) (ages : list AgeEntry) : option AgeEntry :=
  find (fun a => str_eqb (ageCategory a) cat) ages.

(** The entry a category pattern builds from its match. *)
Definition categoryEntry (pattern : regex * jsstring) (m : MatchResult)
    : AgeEntry :=
  {| ageCategory := snd pattern;
     minAge := groupOr m 1 (js "18");
     maxAge := groupOr m 2 (groupOr m 3 (js "35")) |}.

(** Any unit but a blank. *)
Definition notSpace : charset := fun x => negb (isSpace x).

(** The shape of a vacancy entry: a name of letters and white space, a
    count of digits, no eligibility text. *)
Definition vacancyShape (v : VacancyEntry) : Prop :=
  forallb lettersSpaces (postName v) = true /\
  forallb isDigit (totalPost v) = true /\
  eligibility v = [].

(** The values [extractState] can return: no state, the whole country, or
    a name of the table written in full. *)
Definition stateNames : list jsstring :=
  [] :: js "All India" ::
  filter (fun s => negb (str_eqb s (js "UP") || str_eqb s (js "MP"))) states.

(** The units a link can hold: all but white space, the angle brackets, the
    two quotes, the closing parenthesis and the closing square bracket. *)
Definition urlUnit : charset :=
  fun x => negb (orset isSpace (orset (oneOf "<>')]") (N.eqb quote)) x).

(** Where an entry of the date list comes from: its date is a non-empty
    piece of the text without blanks at its ends; its label is one of the
    pattern table, or a piece of a line of the text of 4 to 49 units without
    a colon. *)
Definition dateEntryFrom (text : jsstring) (d : DateEntry) : Prop :=
  date d <> [] /\ trim (date d) = date d /\ occursIn (date d) text /\
  (In (label d) (map snd datePatterns) \/
   (3 < length (label d) < 50 /\
    forallb (fun x => negb (oneOf ":" x)) (label d) = true /\
    occursIn (label d) text)).

(** The shape of an entry of the age list: one of the four categories,
    with a minimum and a maximum written in digits. *)
Definition ageShape (a : AgeEntry) : Prop :=
  In (ageCategory a) (map snd categoryPatterns) /\
  digits (minAge a) /\ digits (maxAge a).

(** The units a slug is made of: small letters, digits, the underscore and
    the dash. *)
Definition slugUnit : charset :=
  fun x => isLower x || isDigit x || oneOf "_-" x.

(** The title holds "20" followed by two digits. *)
Definition holdsYear (title : jsstring) : Prop :=
  exists pre a b post,
    title = pre ++ js "20" ++ a :: b :: post /\
    isDigit a = true /\ isDigit b = true.

(** The [k]-th candidate of [ensureUniqueSlug]. *)
Definition candidateSlug (baseSlug : jsstring) (k : nat) : jsstring :=
  match k with
  | 0 => baseSlug
  | S _ => baseSlug ++ js "-" ++ decimal (Z.of_nat k)
  end.

(** The slug is taken by a row of the table. *)
Definition taken (posts : list Post) (s : jsstring) : Prop :=
  In (Some s) (map slug posts).

(* ================================================================== *)
(** * Inputs of the examples *)
(* ================================================================== *)



(** A minimum and a maximum for everybody, then a maximum for General. *)
Definition minMaxThenGeneral : jsstring :=
  js "Minimum age 21 years, maximum age 30. General: maximum 35".

(** A notice with a title line, a vacancy line and a last date. *)
Definition constableNotice : jsstring :=
  text_of ["Staff Selection Commission Recruitment 2026";
           "Constable : 1,200 Posts";
           "Last Date: 15/03/2026"].

(** More than 50 units, none of the qualification keywords. *)
Definition clerkNotice : jsstring :=
  js "Staff Selection Commission invites applications for 250 clerks in Delhi.".

(** A height given outside any physical-standards section. *)
Definition heightNoSection : jsstring :=
  js "Constable Recruitment 2026. Height: 165 cm. Chest: 80-85 cm.".

(** The three vacancy entries of the specification's example. *)
Definition threeVacancies : list VacancyEntry :=
  [ {| postName := js "Clerk"; totalPost := js "100"; eligibility := [] |};
    {| postName := js "Officer"; totalPost := js "50"; eligibility := [] |};
    {| postName := js "Helper"; totalPost := js "abc"; eligibility := [] |} ].

(** Two links, as in the specification's example. *)
Definition twoLinks : jsstring :=
  js "Apply at https://ssc.nic.in/apply-online and read https://ssc.nic.in/notification.pdf first".

(** All four category keywords, no number. *)
Definition agesAsPerRules : jsstring :=
  js "Age Limit: General, OBC, SC/ST and EWS candidates: maximum age as per rules.".

(* ================================================================== *)
(** * Properties *)
(* ================================================================== *)

(** ** Strings *)

Lemma str_eqb_eq a b : str_eqb a b = true <-> a = b.
Proof.
  revert b; induction a as [|x a IH]; intros [|y b]; simpl;
    try (split; [discriminate | congruence]); try tauto.
  rewrite andb_true_iff, N.eqb_eq, IH. split.
  - intros [-> ->]; reflexivity.
  - intros E; injection E; auto.
Qed.

Lemma str_eqb_refl a : str_eqb a a = true.
Proof. apply str_eqb_eq; reflexivity. Qed.

Lemma str_eqb_neq a b : str_eqb a b = false <-> a <> b.
Proof.
  split.
  - intros E ->. rewrite str_eqb_refl in E; discriminate.
  - intros NE. destruct (str_eqb a b) eqn:E; [|reflexivity].
    apply str_eqb_eq in E; contradiction.
Qed.

Lemma firstn_app_length {A : Type} (w s : list A) :
  firstn (length (w ++ s) - length s) (w ++ s) = w.
Proof.
  rewrite length_app, Nat.add_sub.
  rewrite firstn_app, Nat.sub_diag, firstn_all. simpl. apply app_nil_r.
Qed.

(** ** The matcher finds only what the pattern denotes *)

Lemma repLoop_sound once R gs k :
  soundFor once R ->
  forall fuel lo hi s c y,
    repLoop once gs k fuel lo hi s c = Some y ->
    exists n w s' c',
      (lo <= n \/ hi = Some n) /\ (forall h, hi = Some h -> n <= h) /\
      s = w ++ s' /\ rounds R gs n w c c' /\ k s' c' = Some y.
Proof.
  intros Honce. induction fuel as [|fuel IH]; intros lo hi s c y H.
  - simpl in H. destruct (exhausted hi) eqn:Ex.
    + exists 0, [], s, c. destruct hi as [[|h]|]; try discriminate.
      repeat split; auto; intros h E; injection E; lia.
    + destruct (Nat.eqb lo 0) eqn:El; [|discriminate].
      apply Nat.eqb_eq in El. exists 0, [], s, c.
      repeat split; auto; try lia; intros h E; lia.
  - simpl in H. destruct (exhausted hi) eqn:Ex.
    + exists 0, [], s, c. destruct hi as [[|h]|]; try discriminate.
      repeat split; auto; intros h E; injection E; lia.
    + assert (Hround : forall y0,
        once (fun s' c' =>
                if (Nat.eqb lo 0 && Nat.eqb (length s') (length s))%bool
                then None
                else repLoop once gs k fuel (pred lo) (decr hi) s' c')
             s (clearcaps gs c) = Some y0 ->
        exists n w s' c',
          (lo <= n \/ hi = Some n) /\ (forall h, hi = Some h -> n <= h) /\
          s = w ++ s' /\ rounds R gs n w c c' /\ k s' c' = Some y0).
      { intros y0 Hy. apply Honce in Hy.
        destruct Hy as (w1 & s1 & c1 & Es & HR & Hd).
        destruct (Nat.eqb lo 0 && Nat.eqb (length s1) (length s))%bool;
          [discriminate|].
        apply IH in Hd.
        destruct Hd as (n & w & s' & c' & Hlo & Hhi & Es1 & Hrs & Hk).
        exists (S n), (w1 ++ w), s', c'. repeat split.
        - destruct Hlo as [Hlo|Hlo]; [left; lia|].
          right. destruct hi as [[|h]|]; try discriminate.
          simpl in Hlo. injection Hlo as <-. reflexivity.
        - intros h E. subst hi. destruct h as [|h]; [discriminate|].
          specialize (Hhi h eq_refl). lia.
        - subst s s1. now rewrite app_assoc.
        - simpl. exists w1, w, c1. auto.
        - exact Hk. }
      destruct (Nat.eqb lo 0) eqn:El.
      * destruct (once _ s (clearcaps gs c)) as [y0|] eqn:Ho.
        -- injection H as <-. apply Hround. reflexivity.
        -- apply Nat.eqb_eq in El. exists 0, [], s, c.
           repeat split; auto; try lia; intros h E; lia.
      * apply Hround. exact H.
Qed.

Lemma run_sound r : soundFor (run r) (den r).
Proof.
  induction r as [|inv p|a IHa b IHb|a IHa b IHb|lo hi a IHa|i a IHa];
    intros k s c y H; simpl in H.
  - exists [], s, c. simpl. auto.
  - destruct s as [|x s']; [discriminate|].
    destruct (xorb inv (p x)) eqn:E; [|discriminate].
    exists [x], s', c. simpl. repeat split; auto. exists x; auto.
  - apply IHa in H. destruct H as (w1 & s1 & c1 & -> & Ha & H).
    apply IHb in H. destruct H as (w2 & s2 & c2 & -> & Hb & H).
    exists (w1 ++ w2), s2, c2. rewrite app_assoc. repeat split; auto.
    simpl. exists w1, w2, c1. auto.
  - destruct (run a k s c) as [y0|] eqn:Ea.
    + injection H as <-. apply IHa in Ea.
      destruct Ea as (w & s' & c' & ? & ? & ?).
      exists w, s', c'. simpl. auto.
    + apply IHb in H. destruct H as (w & s' & c' & ? & ? & ?).
      exists w, s', c'. simpl. auto.
  - apply (repLoop_sound _ _ (groups a) k IHa) in H.
    destruct H as (n & w & s' & c' & Hlo & Hhi & Es & Hr & Hk).
    exists w, s', c'. repeat split; auto. simpl. exists n. auto.
  - apply IHa in H. destruct H as (w & s' & c1 & -> & Ha & H).
    rewrite firstn_app_length in H.
    exists w, s', (setcap i w c1). repeat split; auto. simpl. exists c1; auto.
Qed.

Lemma matchHere_sound r pos s m :
  matchHere r pos s = Some m ->
  index m = pos /\ den r (matched m) nocaps (group m) /\
  exists post, s = matched m ++ post.
Proof.
  unfold matchHere. intros H.
  destruct (run r _ s nocaps) as [[s' c']|] eqn:E; [|discriminate].
  injection H as <-. simpl.
  apply run_sound in E. destruct E as (w & s1 & c1 & -> & Hd & Hk).
  injection Hk as <- <-. rewrite firstn_app_length.
  repeat split; auto. exists s1; reflexivity.
Qed.

Lemma execFrom_sound r s : forall pos m,
  execFrom r pos s = Some m ->
  den r (matched m) nocaps (group m) /\
  exists pre post,
    s = pre ++ matched m ++ post /\ index m = pos + length pre.
Proof.
  induction s as [|x s IH]; intros pos m H; simpl in H.
  - destruct (matchHere r pos []) as [m0|] eqn:E; [|discriminate].
    injection H as ->. apply matchHere_sound in E.
    destruct E as (Hi & Hd & post & Hp). split; [exact Hd|].
    exists [], post. simpl. split; [exact Hp | lia].
  - destruct (matchHere r pos (x :: s)) as [m0|] eqn:E.
    + injection H as ->. apply matchHere_sound in E.
      destruct E as (Hi & Hd & post & Hp). split; [exact Hd|].
      exists [], post. simpl. split; [exact Hp | lia].
    + apply IH in H. destruct H as (Hd & pre & post & Hs & Hi).
      split; [exact Hd|]. exists (x :: pre), post. simpl.
      split; [now rewrite Hs | lia].
Qed.

Lemma exec_sound r s m :
  exec r s = Some m ->
  den r (matched m) nocaps (group m) /\
  exists pre post, s = pre ++ matched m ++ post /\ index m = length pre.
Proof. intros H. apply execFrom_sound in H. exact H. Qed.

(** ** Static facts about what a pattern matches *)

Lemma rounds_minLen R gs m :
  (forall w c c', R w c c' -> m <= length w) ->
  forall n w c c', rounds R gs n w c c' -> n * m <= length w.
Proof.
  intros HR. induction n as [|n IH]; intros w c c' H; simpl in *.
  - lia.
  - destruct H as (w1 & w2 & c1 & -> & H1 & H2).
    apply HR in H1. apply IH in H2. rewrite length_app. lia.
Qed.

Lemma den_minLen r : forall w c c', den r w c c' -> minLen r <= length w.
Proof.
  induction r as [|inv p|a IHa b IHb|a IHa b IHb|lo hi a IHa|i a IHa];
    intros w c c' H; simpl in *.
  - lia.
  - destruct H as (x & -> & _). simpl; lia.
  - destruct H as (w1 & w2 & c1 & -> & H1 & H2).
    apply IHa in H1. apply IHb in H2. rewrite length_app. lia.
  - destruct H as [H|H]; [apply IHa in H | apply IHb in H]; lia.
  - destruct H as (n & Hlo & Hhi & Hr).
    apply (rounds_minLen _ (groups a) _ IHa) in Hr.
    assert (match hi with Some h => Nat.min lo h | None => lo end <= n).
    { destruct hi as [h|].
      - destruct Hlo as [Hlo|Hlo]; [lia|]. injection Hlo as ->. lia.
      - destruct Hlo as [Hlo|Hlo]; [lia|discriminate]. }
    nia.
  - destruct H as (c1 & H & _). apply IHa in H. exact H.
Qed.

Lemma mentions_app i a b :
  existsb (Nat.eqb i) (groups a ++ groups b) = false ->
  mentions i a = false /\ mentions i b = false.
Proof.
  unfold mentions. rewrite existsb_app. apply orb_false_iff.
Qed.

Lemma rounds_frame R gs i :
  existsb (Nat.eqb i) gs = false ->
  (forall w c c', R w c c' -> c' i = c i) ->
  forall n w c c', rounds R gs n w c c' -> c' i = c i.
Proof.
  intros Hi HR. induction n as [|n IH]; intros w c c' H; simpl in H.
  - destruct H as [_ ->]. reflexivity.
  - destruct H as (w1 & w2 & c1 & _ & H1 & H2).
    apply IH in H2. apply HR in H1. rewrite H2, H1.
    unfold clearcaps. now rewrite Hi.
Qed.

(** A match leaves the groups the pattern does not mention as they were. *)
Lemma den_frame i r : forall w c c',
  mentions i r = false -> den r w c c' -> c' i = c i.
Proof.
  induction r as [|inv p|a IHa b IHb|a IHa b IHb|lo hi a IHa|j a IHa];
    intros w c c' Hm H; simpl in *.
  - destruct H as [_ ->]; reflexivity.
  - destruct H as (x & _ & _ & ->); reflexivity.
  - apply mentions_app in Hm. destruct Hm as [Ha Hb].
    destruct H as (w1 & w2 & c1 & _ & H1 & H2).
    rewrite (IHb _ _ _ Hb H2). apply (IHa _ _ _ Ha H1).
  - apply mentions_app in Hm. destruct Hm as [Ha Hb].
    destruct H as [H|H]; [apply (IHa _ _ _ Ha H) | apply (IHb _ _ _ Hb H)].
  - destruct H as (n & _ & _ & Hr).
    apply (rounds_frame (den a) (groups a) i Hm) in Hr; auto.
    intros; eapply IHa; eauto.
  - unfold mentions in Hm. simpl in Hm. apply orb_false_iff in Hm.
    destruct Hm as [Hij Ha]. destruct H as (c1 & H & ->).
    unfold setcap. rewrite Hij. apply (IHa _ _ _ Ha H).
Qed.

Lemma occursIn_refl w : occursIn w w.
Proof. exists [], []. simpl. now rewrite app_nil_r. Qed.

Lemma occursIn_app_l g w1 w2 : occursIn g w1 -> occursIn g (w1 ++ w2).
Proof.
  intros (pre & post & ->). exists pre, (post ++ w2).
  now rewrite <- !app_assoc.
Qed.

Lemma occursIn_app_r g w1 w2 : occursIn g w2 -> occursIn g (w1 ++ w2).
Proof.
  intros (pre & post & ->). exists (w1 ++ pre), post.
  now rewrite <- !app_assoc.
Qed.

Lemma occursIn_trans a b c : occursIn a b -> occursIn b c -> occursIn a c.
Proof.
  intros (p1 & q1 & ->) (p2 & q2 & ->). exists (p2 ++ p1), (q1 ++ q2).
  now rewrite <- !app_assoc.
Qed.

(** The group a pattern always assigns holds a word of the group's body,
    taken from the matched text. *)
Lemma assigns_sound i r : forall x w c c',
  assigns r i = Some x -> den r w c c' ->
  exists g c0 c1, c' i = Some g /\ den x g c0 c1 /\ occursIn g w.
Proof.
  induction r as [|inv p|a IHa b IHb|a IHa b IHb|lo hi a IHa|j a IHa];
    intros x w c c' Ha H; simpl in Ha; try discriminate.
  - simpl in H. destruct H as (w1 & w2 & c1 & -> & H1 & H2).
    destruct (assigns b i) as [xb|] eqn:Eb.
    + injection Ha as ->.
      destruct (IHb _ _ _ _ eq_refl H2) as (g & c0 & c2 & Hg & Hd & Ho).
      exists g, c0, c2. repeat split; auto. now apply occursIn_app_r.
    + destruct (mentions i b) eqn:Em; [discriminate|].
      destruct (IHa _ _ _ _ Ha H1) as (g & c0 & c2 & Hg & Hd & Ho).
      exists g, c0, c2. repeat split; auto.
      * rewrite (den_frame i b _ _ _ Em H2). exact Hg.
      * now apply occursIn_app_l.
  - simpl in H. destruct H as (c1 & H & ->).
    destruct (Nat.eqb i j) eqn:Eij.
    + injection Ha as ->. exists w, c, c1. unfold setcap. rewrite Eij.
      repeat split; auto. apply occursIn_refl.
    + destruct (IHa _ _ _ _ Ha H) as (g & c0 & c2 & Hg & Hd & Ho).
      exists g, c0, c2. unfold setcap. rewrite Eij. auto.
Qed.

(** ** The matcher finds a match wherever the pattern has one *)

(** The first non-empty round of a non-empty repetition. *)
Lemma rounds_first_nonempty (R : jsstring -> caps -> caps -> Prop) gs :
  forall n w c c',
    rounds R gs n w c c' -> w <> [] ->
    exists m w1 w2 ca cb cc,
      m < n /\ w = w1 ++ w2 /\ w1 <> [] /\ R w1 ca cb /\ rounds R gs m w2 cb cc.
Proof.
  induction n as [|n IH]; intros w c c' H Hne; simpl in H.
  - destruct H as [-> _]. contradiction.
  - destruct H as (w1 & w2 & c1 & -> & H1 & H2).
    destruct w1 as [|x w1].
    + simpl in Hne. destruct (IH _ _ _ H2 Hne) as (m & v1 & v2 & ca & cb & cc & Hm & E & Hv & HR & Hr).
      exists m, v1, v2, ca, cb, cc. repeat split; auto; lia.
    + exists n, (x :: w1), w2, (clearcaps gs c), c1, c'.
      repeat split; auto. discriminate.
Qed.

Lemma repLoop_complete once R gs k :
  completeFor once R ->
  forall fuel lo hi s n w s' c c0 c',
    lo + length s <= fuel -> s = w ++ s' ->
    rounds R gs n w c0 c' ->
    (lo <= n \/ hi = Some n) -> (forall h, hi = Some h -> n <= h) ->
    (forall c1, k s' c1 <> None) ->
    repLoop once gs k fuel lo hi s c <> None.
Proof.
  intros Honce. induction fuel as [|fuel IH];
    intros lo hi s n w s' c c0 c' Hfuel Es Hr Hlo Hhi Hk.
  - destruct s as [|x s]; [|simpl in Hfuel; lia].
    destruct lo as [|lo]; [|simpl in Hfuel; lia].
    symmetry in Es. apply app_eq_nil in Es. destruct Es as [-> ->].
    simpl. destruct (exhausted hi); apply Hk.
  - cbn [repLoop]. destruct (exhausted hi) eqn:Ex.
    + destruct hi as [[|h]|]; try discriminate.
      assert (n = 0) by (specialize (Hhi 0 eq_refl); lia). subst n.
      simpl in Hr. destruct Hr as [-> _]. simpl in Es. subst s'. apply Hk.
    + destruct (Nat.eqb lo 0) eqn:El.
      * apply Nat.eqb_eq in El. subst lo.
        destruct w as [|x w].
        { simpl in Es. subst s'. destruct (once _ s _); [discriminate | apply Hk]. }
        destruct (rounds_first_nonempty R gs n _ _ _ Hr ltac:(discriminate))
          as (m & w1 & w2 & ca & cb & cc & Hm & Ew & Hw1 & HR & Hrest).
        assert (Hsome : once (fun s1 c1 =>
                  if (Nat.eqb 0 0 && Nat.eqb (length s1) (length s))%bool
                  then None
                  else repLoop once gs k fuel (pred 0) (decr hi) s1 c1)
                  s (clearcaps gs c) <> None).
        { apply (Honce _ s w1 (w2 ++ s') _ ca cb).
          - rewrite Es, Ew. now rewrite app_assoc.
          - exact HR.
          - intros c1.
            assert (Hlen : length (w2 ++ s') < length s).
            { rewrite Es, Ew, <- app_assoc, (length_app w1).
              destruct w1; [contradiction | simpl; lia]. }
            replace (Nat.eqb (length (w2 ++ s')) (length s)) with false
              by (symmetry; apply Nat.eqb_neq; lia).
            simpl andb. cbv iota.
            apply (IH _ _ _ m w2 s' _ cb cc); auto.
            + simpl in *. lia.
            + left; lia.
            + intros h Eh. destruct hi as [h0|]; [|discriminate].
              simpl in Eh. injection Eh as <-. specialize (Hhi h0 eq_refl).
              destruct h0; [discriminate|]. simpl. lia. }
        destruct (once _ s (clearcaps gs c)); [discriminate | contradiction].
      * apply Nat.eqb_neq in El.
        destruct n as [|n].
        { destruct Hlo as [Hlo|Hlo]; [lia|]. subst hi. discriminate. }
        simpl in Hr. destruct Hr as (w1 & w2 & c1 & -> & HR & Hrest).
        apply (Honce _ s w1 (w2 ++ s') _ (clearcaps gs c0) c1).
        -- rewrite Es. now rewrite app_assoc.
        -- exact HR.
        -- intros c2. replace (Nat.eqb lo 0) with false
             by (symmetry; apply Nat.eqb_neq; exact El).
           simpl andb. cbv iota.
           apply (IH _ _ _ n w2 s' _ c1 c'); auto.
           ++ rewrite Es, <- app_assoc, length_app in Hfuel. lia.
           ++ destruct Hlo as [Hlo|Hlo]; [left; lia|]. right. subst hi. reflexivity.
           ++ intros h Eh. destruct hi as [h0|]; [|discriminate].
              simpl in Eh. injection Eh as <-. specialize (Hhi h0 eq_refl). lia.
Qed.

Lemma run_complete r : completeFor (run r) (den r).
Proof.
  induction r as [|inv p|a IHa b IHb|a IHa b IHb|lo hi a IHa|i a IHa];
    intros k s w s' c c0 c' Es H Hk; simpl in H; cbn [run].
  - destruct H as [-> _]. simpl in Es. subst s'. apply Hk.
  - destruct H as (x & -> & Hx & _). subst s. simpl. rewrite Hx. apply Hk.
  - destruct H as (w1 & w2 & c1 & -> & H1 & H2).
    apply (IHa _ s w1 (w2 ++ s') _ c0 c1); [now rewrite Es, app_assoc | exact H1 |].
    intros c2. apply (IHb _ _ w2 s' _ c1 c' eq_refl H2 Hk).
  - destruct H as [H|H].
    + pose proof (IHa k s w s' c c0 c' Es H Hk) as Ha.
      destruct (run a k s c); [discriminate | contradiction].
    + destruct (run a k s c); [discriminate|].
      apply (IHb k s w s' c c0 c' Es H Hk).
  - destruct H as (n & Hlo & Hhi & Hr).
    apply (repLoop_complete _ _ (groups a) k IHa _ lo hi s n w s' c c0 c'); auto.
  - destruct H as (c1 & H & _).
    apply (IHa _ s w s' c c0 c1 Es H). intros c2. apply Hk.
Qed.

Lemma matchHere_complete r pos s w post c0 c' :
  s = w ++ post -> den r w c0 c' -> matchHere r pos s <> None.
Proof.
  intros Es H. unfold matchHere.
  pose proof (run_complete r (fun s' c' => Some (s', c')) s w post nocaps c0 c' Es H) as Hc.
  destruct (run r _ s nocaps) as [[s1 c1]|]; [discriminate|].
  exfalso. apply Hc; [intros; discriminate | reflexivity].
Qed.

Lemma matchesAt_tail r x s i : matchesAt r (x :: s) (S i) <-> matchesAt r s i.
Proof.
  unfold matchesAt. simpl. split;
    intros (w & post & c0 & c' & Hi & E & H); exists w, post, c0, c'; repeat split; auto; lia.
Qed.

(** [execFrom] returns the leftmost start of a match, or [None] when the
    pattern matches nowhere. *)
Lemma execFrom_leftmost r s : forall pos,
  match execFrom r pos s with
  | Some m =>
      pos <= index m /\ matchesAt r s (index m - pos) /\
      forall j, j < index m - pos -> ~ matchesAt r s j
  | None => forall j, ~ matchesAt r s j
  end.
Proof.
  assert (Hhere : forall pos s0, matchHere r pos s0 = None -> ~ matchesAt r s0 0).
  { intros pos s0 Hn (w & post & c0 & c' & _ & E & H). simpl in E.
    apply (matchHere_complete r pos s0 w post c0 c' E H). exact Hn. }
  induction s as [|x s IH]; intros pos; cbn [execFrom].
  - destruct (matchHere r pos []) as [m|] eqn:E.
    + apply matchHere_sound in E. destruct E as (Hi & Hd & post & Hp).
      rewrite Hi, Nat.sub_diag. repeat split; [lia| |intros j Hj; lia].
      exists (matched m), post, nocaps, (group m). simpl. repeat split; auto.
    + intros j Hj. assert (j = 0).
      { destruct Hj as (w & post & c0 & c' & Hi & _). simpl in Hi. lia. }
      subst j. revert Hj. apply (Hhere pos). exact E.
  - destruct (matchHere r pos (x :: s)) as [m|] eqn:E.
    + apply matchHere_sound in E. destruct E as (Hi & Hd & post & Hp).
      rewrite Hi, Nat.sub_diag. repeat split; [lia| |intros j Hj; lia].
      exists (matched m), post, nocaps, (group m). simpl. repeat split; auto. lia.
    + specialize (IH (S pos)). destruct (execFrom r (S pos) s) as [m|].
      * destruct IH as (Hle & Hat & Hmin).
        replace (index m - pos) with (S (index m - S pos)) by lia.
        repeat split; [lia | now apply matchesAt_tail |].
        intros [|j] Hj; [apply (Hhere pos); exact E|].
        rewrite matchesAt_tail. apply Hmin. lia.
      * intros [|j]; [apply (Hhere pos); exact E|].
        rewrite matchesAt_tail. apply IH.
Qed.

Lemma exec_leftmost r s :
  match exec r s with
  | Some m => matchesAt r s (index m) /\ forall j, j < index m -> ~ matchesAt r s j
  | None => forall j, ~ matchesAt r s j
  end.
Proof.
  unfold exec. pose proof (execFrom_leftmost r s 0) as H.
  destruct (execFrom r 0 s) as [m|]; [|exact H].
  rewrite Nat.sub_0_r in H. destruct H as (_ & H1 & H2). auto.
Qed.

(** ** Groups read without a guard *)

Lemma unguardedGroups_assigned :
  Forall (fun ri => assigns (fst ri) (snd ri) <> None) unguardedGroups.
Proof. repeat constructor; discriminate. Qed.

(** Where the parser reads [m[i]] without testing it, the group has taken
    part in the match: [cap] never falls back on its default. *)
Lemma cap_defined r i s m :
  In (r, i) unguardedGroups ->
  exec r s = Some m \/ execAnchored r s = Some m ->
  group m i = Some (cap m i).
Proof.
  intros Hin Hm. pose proof unguardedGroups_assigned as Ha.
  rewrite Forall_forall in Ha. specialize (Ha _ Hin). simpl in Ha.
  destruct (assigns r i) as [x|] eqn:Ex; [|contradiction].
  assert (Hd : den r (matched m) nocaps (group m)).
  { destruct Hm as [Hm|Hm].
    - apply exec_sound in Hm. apply Hm.
    - apply matchHere_sound in Hm. apply Hm. }
  destruct (assigns_sound i r x _ _ _ Ex Hd) as (g & _ & _ & Hg & _).
  unfold cap. now rewrite Hg.
Qed.

(** ** Sections *)

Lemma includes_false_indexOf s sub :
  includes s sub = false -> indexOf s sub = None.
Proof. unfold includes. destruct (indexOf s sub); [discriminate | reflexivity]. Qed.

Lemma toLowerCase_same `{CaseMapping} (a b : jsstring) :
  forallb isBasic a = true -> forallb isBasic b = true ->
  map lowerBasic a = map lowerBasic b -> toLowerCase a = toLowerCase b.
Proof.
  intros Ha Hb E. rewrite (toLowerCase_basic a Ha), (toLowerCase_basic b Hb).
  exact E.
Qed.

Lemma sectionLoop_none `{CaseMapping} text lowerText headers :
  Forall (fun h => indexOf lowerText (toLowerCase h) = None) headers ->
  sectionLoop text lowerText headers = [].
Proof.
  induction 1 as [|h hs Hh _ IH]; simpl; [reflexivity|].
  rewrite Hh. exact IH.
Qed.


Lemma trimStart_length s : length (trimStart s) <= length s.
Proof.
  induction s as [|c s IH]; simpl; [lia|].
  destruct (isSpace c); simpl; lia.
Qed.

Lemma trim_length s : length (trim s) <= length s.
Proof.
  unfold trim, trimEnd. rewrite length_rev.
  etransitivity; [apply trimStart_length|]. rewrite length_rev.
  apply trimStart_length.
Qed.


(** ** The classifier *)

Lemma detectType_firstRule `{CaseMapping} text :
  detectType text = firstRule typeRules (toLowerCase text).
Proof. reflexivity. Qed.

(** C4.  [detectType] is the ordered rule table, first true rule wins; a
    text that contains both "admit card" and "admission" (in any case) is an
    admit card, never an admission; a text no rule holds for is a job. *)
Theorem detectType_first_rule_wins `{CaseMapping} (text : jsstring) :
  detectType text = firstRule typeRules (toLowerCase text) /\
  (includes (toLowerCase text) (js "admit card") = true ->
   includes (toLowerCase text) (js "admission") = true ->
   detectType text = admit_card /\ detectType text <> admission) /\
  (Forall (fun rule => fst rule (toLowerCase text) = false) typeRules ->
   detectType text = job).
Proof.
  split; [reflexivity|]. split.
  - intros Hcard _. unfold detectType. rewrite Hcard. simpl.
    split; [reflexivity | discriminate].
  - intros Hnone. rewrite detectType_firstRule.
    induction Hnone as [|[holds ty] rules Hr _ IH]; simpl; [reflexivity|].
    simpl in Hr. rewrite Hr. exact IH.
Qed.

Lemma detectType_first_rule_wins_witness :
  detectType (js "Download Admit Card for the Admission Test 2026") = admit_card /\
  detectType (js "Apply online for 250 posts of clerk") = job.
Proof.
  split.
  - apply (detectType_first_rule_wins
             (js "Download Admit Card for the Admission Test 2026"));
      vm_compute; reflexivity.
  - apply (detectType_first_rule_wins (js "Apply online for 250 posts of clerk")).
    repeat constructor.
Defined.

(** ** Physical eligibility *)

(** C5.  When none of "Physical Eligibility", "Physical Standard" and
    "Physical Test" occurs in the text, case ignored, no physical entry is
    extracted, whatever heights or weights the text mentions. *)
Theorem extractPhysicalEligibility_needs_section `{CaseMapping} (text : jsstring) :
  (forall h,
     In h [js "Physical Eligibility"; js "Physical Standard"; js "Physical Test"] ->
     includes (toLowerCase text) (toLowerCase h) = false) ->
  extractPhysicalEligibility text = [].
Proof.
  intros Hno.
  assert (He : indexOf (toLowerCase text) (toLowerCase (js "Physical Eligibility")) = None)
    by (apply includes_false_indexOf, Hno; simpl; auto).
  assert (Hs : indexOf (toLowerCase text) (toLowerCase (js "Physical Standard")) = None)
    by (apply includes_false_indexOf, Hno; simpl; auto).
  assert (Ht : indexOf (toLowerCase text) (toLowerCase (js "Physical Test")) = None)
    by (apply includes_false_indexOf, Hno; simpl; auto).
  unfold extractPhysicalEligibility, extractSection.
  rewrite sectionLoop_none; [reflexivity|].
  unfold physicalHeaders. repeat constructor; auto.
  - rewrite (toLowerCase_same (js "PHYSICAL ELIGIBILITY") (js "Physical Eligibility"));
      [exact He | reflexivity | reflexivity | reflexivity].
  - rewrite (toLowerCase_same (js "PHYSICAL STANDARD") (js "Physical Standard"));
      [exact Hs | reflexivity | reflexivity | reflexivity].
Qed.

Lemma extractPhysicalEligibility_needs_section_witness :
  includes heightNoSection (js "Height: 165 cm") = true /\
  extractPhysicalEligibility heightNoSection = [].
Proof.
  split; [reflexivity|].
  apply (extractPhysicalEligibility_needs_section heightNoSection).
  intros h [<-|[<-|[<-|[]]]]; vm_compute; reflexivity.
Defined.

(** ** The total of the posts *)

Lemma fold_sum_from (l : list VacancyEntry) : forall sum,
  fold_left (fun sum v => (sum + parseIntOr0 (totalPost v))%Z) l sum =
  (sum + sumZ (map (fun v => numericValue (totalPost v)) l))%Z.
Proof.
  induction l as [|v l IH]; intros sum; simpl.
  - lia.
  - rewrite IH. unfold parseIntOr0, numericValue. lia.
Qed.

(** C8.  The total the aggregator computes is the sum of the numeric
    values of the [totalPost] fields, a field without a numeric value
    counting for 0; the entries "100", "50", "abc" total 150.  (Stated for
    values and running totals in the safe integer range, where the host's
    addition is exact.) *)
Theorem totalPosts_is_sum (vacancyDetails : list VacancyEntry) :
  safeTotals 0 vacancyDetails ->
  totalPostsOf vacancyDetails =
    sumZ (map (fun v => numericValue (totalPost v)) vacancyDetails) /\
  (map totalPost vacancyDetails = [js "100"; js "50"; js "abc"] ->
   totalPostsOf vacancyDetails = 150%Z).
Proof.
  intros _. unfold totalPostsOf. rewrite fold_sum_from. split; [lia|].
  intros E. rewrite <- (map_map totalPost numericValue), E. reflexivity.
Qed.

Lemma totalPosts_is_sum_witness : totalPostsOf threeVacancies = 150%Z.
Proof.
  refine (proj2 (totalPosts_is_sum threeVacancies _) eq_refl).
  unfold safeInteger; simpl; unfold safeInteger; repeat split; vm_compute; reflexivity.
Defined.

(** ** More on matches: captures come from the input *)

Lemma rounds_caps_occur (R : jsstring -> caps -> caps -> Prop) gs i g :
  (forall w c c', R w c c' -> c' i = Some g -> c i = Some g \/ occursIn g w) ->
  forall n w c c', rounds R gs n w c c' ->
    c' i = Some g -> c i = Some g \/ occursIn g w.
Proof.
  intros HR. induction n as [|n IH]; intros w c c' H Hg; simpl in H.
  - destruct H as [_ ->]. now left.
  - destruct H as (w1 & w2 & c1 & -> & H1 & H2).
    destruct (IH _ _ _ H2 Hg) as [Hc1|Ho]; [|right; now apply occursIn_app_r].
    destruct (HR _ _ _ H1 Hc1) as [Hc|Ho]; [|right; now apply occursIn_app_l].
    left. unfold clearcaps in Hc. destruct (existsb _ gs); [discriminate|exact Hc].
Qed.

(** A group that holds a word after a match either held it before or took it
    from the matched text. *)
Lemma den_caps_occur i g r : forall w c c',
  den r w c c' -> c' i = Some g -> c i = Some g \/ occursIn g w.
Proof.
  induction r as [|inv p|a IHa b IHb|a IHa b IHb|lo hi a IHa|j a IHa];
    intros w c c' H Hg; simpl in H.
  - destruct H as [_ ->]. now left.
  - destruct H as (x & _ & _ & ->). now left.
  - destruct H as (w1 & w2 & c1 & -> & H1 & H2).
    destruct (IHb _ _ _ H2 Hg) as [Hc1|Ho]; [|right; now apply occursIn_app_r].
    destruct (IHa _ _ _ H1 Hc1) as [Hc|Ho]; [now left|].
    right; now apply occursIn_app_l.
  - destruct H as [H|H]; [apply (IHa _ _ _ H Hg) | apply (IHb _ _ _ H Hg)].
  - destruct H as (n & _ & _ & Hr).
    apply (rounds_caps_occur (den a) (groups a) i g IHa _ _ _ _ Hr Hg).
  - destruct H as (c1 & H & ->). unfold setcap in Hg.
    destruct (Nat.eqb i j).
    + injection Hg as <-. right. apply occursIn_refl.
    + apply (IHa _ _ _ H Hg).
Qed.

Lemma forallb_occursIn (p : charset) g s :
  occursIn g s -> forallb p s = true -> forallb p g = true.
Proof.
  intros (pre & post & ->). rewrite !forallb_app, !andb_true_iff. tauto.
Qed.

Lemma occursIn_firstn n (s : jsstring) : occursIn (firstn n s) s.
Proof.
  exists [], (skipn n s). simpl. now rewrite firstn_skipn.
Qed.

Lemma occursIn_skipn n (s : jsstring) : occursIn (skipn n s) s.
Proof.
  exists (firstn n s), []. now rewrite app_nil_r, firstn_skipn.
Qed.

Lemma occursIn_trimStart s : occursIn (trimStart s) s.
Proof.
  induction s as [|c s IH]; simpl; [apply occursIn_refl|].
  destruct (isSpace c); [|apply occursIn_refl].
  destruct IH as (pre & post & E). exists (c :: pre), post. simpl. now f_equal.
Qed.

Lemma occursIn_rev a b : occursIn a b -> occursIn (rev a) (rev b).
Proof.
  intros (pre & post & ->). exists (rev post), (rev pre).
  now rewrite !rev_app_distr, <- app_assoc.
Qed.

Lemma occursIn_trim s : occursIn (trim s) s.
Proof.
  unfold trim, trimEnd.
  apply (occursIn_trans _ (trimStart s)); [|apply occursIn_trimStart].
  rewrite <- (rev_involutive (trimStart s)) at 2.
  apply occursIn_rev, occursIn_trimStart.
Qed.

Lemma occursIn_slice s a b : occursIn (slice s a b) s.
Proof.
  unfold slice.
  apply (occursIn_trans _ (skipn a s)); [apply occursIn_firstn | apply occursIn_skipn].
Qed.

Lemma sectionAt_occurs text header idx : occursIn (sectionAt text header idx) text.
Proof.
  unfold sectionAt.
  eapply occursIn_trans; [apply occursIn_trim | apply occursIn_slice].
Qed.

Lemma sectionLoop_occurs `{CaseMapping} text lowerText headers :
  occursIn (sectionLoop text lowerText headers) text.
Proof.
  induction headers as [|h hs IH]; simpl.
  - exists [], text. reflexivity.
  - destruct (indexOf lowerText (toLowerCase h)); [apply sectionAt_occurs | exact IH].
Qed.

(** What an extractor searches, the section or else the whole text, is
    made of units of the text. *)
Lemma searchText_occurs `{CaseMapping} text headers :
  occursIn (sectionOr (extractSection text headers) text) text.
Proof.
  unfold sectionOr, orElse.
  destruct (truthy (extractSection text headers));
    [apply sectionLoop_occurs | apply occursIn_refl].
Qed.

(** ** Matching with the [g] flag *)

Lemma matchAllFuel_sound r : forall fuel s u,
  In u (matchAllFuel fuel r s) ->
  exists m s1, exec r s1 = Some m /\ u = matched m /\ occursIn s1 s.
Proof.
  induction fuel as [|fuel IH]; intros s u H; simpl in H; [contradiction|].
  destruct (exec r s) as [m|] eqn:E; [|contradiction].
  destruct H as [<-|H].
  - exists m, s. repeat split; auto. apply occursIn_refl.
  - destruct (matched m) as [|x w] eqn:Em.
    + destruct (skipn (index m) s) as [|y s'] eqn:Es; [contradiction|].
      apply IH in H. destruct H as (m1 & s1 & H1 & H2 & H3).
      exists m1, s1. repeat split; auto.
      apply (occursIn_trans _ s'); [exact H3|].
      exists (firstn (index m) s ++ [y]), [].
      rewrite app_nil_r, <- app_assoc. simpl. rewrite <- Es.
      now rewrite firstn_skipn.
    + apply IH in H. destruct H as (m1 & s1 & H1 & H2 & H3).
      exists m1, s1. repeat split; auto.
      apply (occursIn_trans _ _ _ H3). apply occursIn_skipn.
Qed.

Lemma matchAll_sound r s u :
  In u (matchAll r s) ->
  minLen r <= length u /\ occursIn u s.
Proof.
  intros H. apply matchAllFuel_sound in H.
  destruct H as (m & s1 & E & -> & Hs).
  apply exec_sound in E. destruct E as (Hd & pre & post & E & _).
  split; [apply (den_minLen _ _ _ _ Hd)|].
  apply (occursIn_trans _ s1); [|exact Hs]. exists pre, post. exact E.
Qed.

(** ** Removing the commas *)

Lemma execFrom_chr c s : forall pos,
  execFrom (chr c) pos s =
  match s with
  | [] => None
  | x :: s' =>
      if N.eqb c x
      then Some {| index := pos; matched := [x]; group := nocaps |}
      else execFrom (chr c) (S pos) s'
  end.
Proof.
  destruct s as [|x s']; intros pos; [reflexivity|].
  cbn [execFrom]. unfold matchHere, chr. cbn [run xorb].
  destruct (N.eqb c x); [|reflexivity].
  replace (length (x :: s') - length s') with 1 by (cbn [length]; lia). reflexivity.
Qed.

Lemma execFrom_chr_spec c s : forall pos,
  match execFrom (chr c) pos s with
  | None => filter (fun x => negb (N.eqb c x)) s = s
  | Some m =>
      exists pre post,
        s = pre ++ c :: post /\
        filter (fun x => negb (N.eqb c x)) pre = pre /\
        index m = pos + length pre /\ matched m = [c]
  end.
Proof.
  induction s as [|x s IH]; intros pos; rewrite execFrom_chr; [reflexivity|].
  destruct (N.eqb c x) eqn:E.
  - apply N.eqb_eq in E. subst x. exists [], s. simpl. repeat split; auto.
  - specialize (IH (S pos)). destruct (execFrom (chr c) (S pos) s) as [m|].
    + destruct IH as (pre & post & -> & Hf & Hi & Hm).
      exists (x :: pre), post. simpl. rewrite E. simpl. rewrite Hf.
      repeat split; auto. lia.
    + simpl. rewrite E. simpl. now rewrite IH.
Qed.

Lemma replaceAllFuel_chr c : forall fuel s,
  length s < fuel ->
  replaceAllFuel fuel (chr c) [] s = filter (fun x => negb (N.eqb c x)) s.
Proof.
  induction fuel as [|fuel IH]; intros s Hlen; [lia|].
  cbn [replaceAllFuel]. unfold exec.
  pose proof (execFrom_chr_spec c s 0) as Hs.
  destruct (execFrom (chr c) 0 s) as [m|].
  - destruct Hs as (pre & post & -> & Hf & Hi & Hm).
    rewrite Hm, Hi. simpl Nat.add. cbn [length app].
    rewrite firstn_app, Nat.sub_diag, firstn_all. cbn [firstn]. rewrite app_nil_r.
    replace (length pre + 1) with (length pre + 1 + 0) by lia.
    rewrite skipn_app.
    replace (length pre + 1 + 0 - length pre) with 1 by lia.
    rewrite skipn_all2 by lia. cbn [skipn app].
    rewrite filter_app. cbn [filter]. rewrite N.eqb_refl. cbn [negb].
    f_equal; [symmetry; exact Hf|].
    apply IH. rewrite length_app in Hlen. simpl in Hlen. lia.
  - symmetry. exact Hs.
Qed.

Lemma stripCommas_filter s :
  stripCommas s = filter (fun x => negb (N.eqb (ch ",") x)) s.
Proof.
  unfold stripCommas, replaceAll. apply (replaceAllFuel_chr (ch ",")). lia.
Qed.

(** ** Classes under the [i] flag *)

Ltac char_step :=
  match goal with
  | |- context [N.leb ?a ?b] => destruct (N.leb_spec a b)
  | H : context [N.leb ?a ?b] |- _ => destruct (N.leb_spec a b)
  | |- context [N.ltb ?a ?b] => destruct (N.ltb_spec a b)
  | H : context [N.ltb ?a ?b] |- _ => destruct (N.ltb_spec a b)
  | |- context [N.eqb ?a ?b] => destruct (N.eqb_spec a b)
  | H : context [N.eqb ?a ?b] |- _ => destruct (N.eqb_spec a b)
  end.

(** Decides a fact about character classes by cases on the comparisons. *)
Ltac char_cases :=
  unfold fold_case, orset, oneOf, upperBasic, lowerBasic, isWord, isAlpha in *;
  unfold isDigit, isUpper, isLower, isBasic in *;
  unfold between in *;
  repeat match goal with
         | |- context [js ?s] =>
             let v := eval vm_compute in (js s) in change (js s) with v
         | H : context [js ?s] |- _ =>
             let v := eval vm_compute in (js s) in change (js s) with v in H
         | |- context [ch ?a] =>
             let v := eval vm_compute in (ch a) in change (ch a) with v
         | H : context [ch ?a] |- _ =>
             let v := eval vm_compute in (ch a) in change (ch a) with v in H
         end;
  cbn [existsb map] in *;
  repeat (char_step; cbn [andb orb negb xorb] in *);
  try discriminate; try reflexivity; try (exfalso; lia); try lia.

(** A lower-case letter of a pattern matches, case ignored, the letter and
    its capital, both of Basic Latin. *)
Lemma fold_case_letter c x :
  isLower c = true -> fold_case (N.eqb c) x = true ->
  lowerBasic x = c /\ isBasic x = true.
Proof. intros Hc Hx. split; char_cases. Qed.

Lemma fold_case_digit x : fold_case isDigit x = isDigit x.
Proof. char_cases. Qed.

Lemma fold_case_digitComma x :
  fold_case (orset isDigit (oneOf ",")) x = orset isDigit (oneOf ",") x.
Proof. char_cases. Qed.

Lemma digitComma_basic x :
  orset isDigit (oneOf ",") x = true -> isBasic x = true /\ lowerBasic x = x.
Proof. intros Hx. split; char_cases. Qed.

(** ** Repetitions of a class, and literals *)

Lemma forallb_impl {A : Type} (p q : A -> bool) l :
  (forall x, p x = true -> q x = true) ->
  forallb p l = true -> forallb q l = true.
Proof.
  intros Hpq. induction l as [|x l IH]; simpl; [auto|].
  rewrite !andb_true_iff. intros [Hx Hl]. auto.
Qed.

Lemma rounds_cls inv p : forall n w c c',
  rounds (den (Chr inv p)) [] n w c c' ->
  length w = n /\ forallb (fun x => xorb inv (p x)) w = true /\ c' = c.
Proof.
  induction n as [|n IH]; intros w c c' H; simpl in H.
  - destruct H as [-> ->]. auto.
  - destruct H as (w1 & w2 & c1 & -> & (x & -> & Hx & ->) & H2).
    apply IH in H2. destruct H2 as (Hl & Hf & ->).
    simpl. rewrite Hx, Hf, Hl. auto.
Qed.

Lemma den_rep_cls lo hi inv p w c c' :
  den (Rep lo hi (Chr inv p)) w c c' ->
  (lo <= length w \/ hi = Some (length w)) /\
  forallb (fun x => xorb inv (p x)) w = true /\ c' = c.
Proof.
  simpl. intros (n & Hlo & _ & Hr). apply rounds_cls in Hr.
  destruct Hr as (<- & Hf & ->). auto.
Qed.

Lemma den_literalAnyCase l :
  forallb isLower l = true ->
  forall g c c', den (literalAnyCase l) g c c' ->
    map lowerBasic g = l /\ forallb isBasic g = true.
Proof.
  unfold literalAnyCase.
  induction l as [|a l IH]; intros Hl g c c' H.
  - simpl in H. destruct H as [-> _]. auto.
  - simpl in Hl. apply andb_true_iff in Hl. destruct Hl as [Ha Hl].
    destruct l as [|b l].
    + simpl in H. destruct H as (x & -> & Hx & _).
      destruct (fold_case_letter a x Ha Hx) as [E B]. simpl. now rewrite E, B.
    + cbn [map seq] in H. cbn [den] in H.
      destruct H as (w1 & w2 & c1 & -> & (x & -> & Hx & _) & H2).
      destruct (fold_case_letter a x Ha Hx) as [E B].
      destruct (IH Hl _ _ _ H2) as [E2 B2].
      simpl. rewrite E, B. simpl in E2. rewrite E2, B2. auto.
Qed.

(** ** The next-section marker *)

Lemma rounds_cls_intro inv p c : forall w,
  forallb (fun x => xorb inv (p x)) w = true ->
  rounds (den (Chr inv p)) [] (length w) w c c.
Proof.
  induction w as [|x w IH]; simpl; intros Hf; [auto|].
  apply andb_true_iff in Hf. destruct Hf as [Hx Hf].
  exists [x], w, c. repeat split; auto. exists x. auto.
Qed.

Lemma den_rep_cls_intro lo inv p w c :
  lo <= length w -> forallb (fun x => xorb inv (p x)) w = true ->
  den (Rep lo None (Chr inv p)) w c c.
Proof.
  intros Hlo Hf. simpl. exists (length w). repeat split; auto.
  - intros h E; discriminate.
  - now apply rounds_cls_intro.
Qed.






(** ** The section that is located *)











(** ** Fees *)

Lemma den_digitsCommas g c c' :
  den (ignoreCase digitsCommas) g c c' -> numericCapture g.
Proof.
  intros H. apply den_rep_cls in H. destruct H as (Hlo & Hf & _).
  split.
  - destruct Hlo as [Hlo|Hlo]; [|discriminate].
    destruct g; [simpl in Hlo; lia | discriminate].
  - revert Hf. apply forallb_impl. intros x. simpl.
    now rewrite fold_case_digitComma.
Qed.

Lemma den_amountOrNil g c c' :
  den (ignoreCase amountOrNil) g c c' -> feeCapture g.
Proof.
  intros [H|[H|H]].
  - left. eapply den_digitsCommas; exact H.
  - right; left. apply (den_literalAnyCase (js "nil") eq_refl _ _ _ H).
  - right; right. apply (den_literalAnyCase (js "exempted") eq_refl _ _ _ H).
Qed.

Lemma feePatterns_assign :
  Forall (fun pattern =>
            assigns (fst pattern) 1 = Some (ignoreCase digitsCommas) \/
            assigns (fst pattern) 1 = Some (ignoreCase amountOrNil))
         feePatterns.
Proof.
  repeat constructor; (left; reflexivity) || (right; reflexivity).
Qed.

Lemma fee_captured pattern searchText m1 :
  In pattern feePatterns ->
  captured (exec (fst pattern) searchText) 1 = Some m1 ->
  feeCapture m1.
Proof.
  intros Hin Hc. pose proof feePatterns_assign as Ha.
  rewrite Forall_forall in Ha. specialize (Ha _ Hin).
  unfold captured in Hc. destruct (exec _ searchText) as [m|] eqn:E; [|discriminate].
  apply exec_sound in E. destruct E as (Hd & _).
  destruct (group m 1) as [w|] eqn:Eg; [|discriminate].
  destruct (truthy w); [|discriminate]. injection Hc as ->.
  destruct Ha as [Ha|Ha];
    destruct (assigns_sound 1 _ _ _ _ _ Ha Hd) as (g & c0 & c1 & Hg & Hdg & _);
    rewrite Eg in Hg; injection Hg as <-.
  - left. eapply den_digitsCommas; exact Hdg.
  - eapply den_amountOrNil; exact Hdg.
Qed.

Lemma numericCapture_lower `{CaseMapping} g :
  numericCapture g -> toLowerCase g = g.
Proof.
  intros [_ Hf].
  assert (forallb isBasic g = true /\ map lowerBasic g = g) as [Hb Hm].
  { induction g as [|x g IH]; simpl in *; [auto|].
    apply andb_true_iff in Hf. destruct Hf as [Hx Hf].
    destruct (digitComma_basic x Hx) as [B L]. destruct (IH Hf) as [B2 L2].
    now rewrite B, L, B2, L2. }
  now rewrite (toLowerCase_basic g Hb).
Qed.

Lemma numericCapture_not_word g (word : string) x rest :
  numericCapture g -> js word = x :: rest -> isLower x = true -> g <> js word.
Proof.
  intros [Hne Hf] Ew Hx ->. rewrite Ew in Hf. simpl in Hf.
  apply andb_true_iff in Hf. destruct Hf as [Hd _]. clear - Hd Hx. char_cases.
Qed.

(** The fee string of each kind of capture. *)
Lemma feeOf_capture `{CaseMapping} g :
  feeCapture g ->
  (numericCapture g /\
   feeOf g = rupee :: filter (fun x => negb (N.eqb (ch ",") x)) g ++ js "/-") \/
  ((toLowerCase g = js "nil" \/ toLowerCase g = js "exempted") /\
   feeOf g = js "Nil").
Proof.
  intros [Hn|[[Hw Hb]|[Hw Hb]]].
  - left. split; [exact Hn|]. unfold feeOf.
    rewrite (numericCapture_lower g Hn).
    assert (E1 : str_eqb g (js "nil") = false).
    { apply str_eqb_neq. eapply numericCapture_not_word; eauto; reflexivity. }
    assert (E2 : str_eqb g (js "exempted") = false).
    { apply str_eqb_neq. eapply numericCapture_not_word; eauto; reflexivity. }
    rewrite E1, E2. simpl. f_equal. f_equal. apply stripCommas_filter.
  - right. assert (E : toLowerCase g = js "nil")
      by now rewrite (toLowerCase_basic g Hb).
    split; [now left|]. unfold feeOf. rewrite E. reflexivity.
  - right. assert (E : toLowerCase g = js "exempted")
      by now rewrite (toLowerCase_basic g Hb).
    split; [now right|]. unfold feeOf. rewrite E. reflexivity.
Qed.

Lemma feeOf_numeric `{CaseMapping} g :
  numericCapture g ->
  feeOf g = rupee :: filter (fun x => negb (N.eqb (ch ",") x)) g ++ js "/-".
Proof.
  intros Hn. destruct (feeOf_capture g (or_introl Hn)) as [[_ E]|[[E|E] _]].
  - exact E.
  - rewrite (numericCapture_lower g Hn) in E.
    exfalso. revert E. eapply numericCapture_not_word; eauto; reflexivity.
  - rewrite (numericCapture_lower g Hn) in E.
    exfalso. revert E. eapply numericCapture_not_word; eauto; reflexivity.
Qed.

Lemma feeOf_word `{CaseMapping} g :
  wordCapture "nil" g \/ wordCapture "exempted" g -> feeOf g = js "Nil".
Proof.
  intros [[Hw Hb]|[Hw Hb]]; unfold feeOf;
    rewrite (toLowerCase_basic g Hb), Hw; reflexivity.
Qed.

(** On the captures of the fee patterns the fee string does not depend on
    the case mapping of the host. *)
Lemma feeOf_same `{H : CaseMapping} g :
  feeCapture g -> @feeOf H g = @feeOf latin1Case g.
Proof.
  intros [Hn|Hw].
  - now rewrite (@feeOf_numeric H g Hn), (@feeOf_numeric latin1Case g Hn).
  - now rewrite (@feeOf_word H g Hw), (@feeOf_word latin1Case g Hw).
Qed.

Lemma feeStep_same `{H : CaseMapping} searchText fees pattern :
  In pattern feePatterns ->
  @feeStep H searchText fees pattern = @feeStep latin1Case searchText fees pattern.
Proof.
  intros Hin. unfold feeStep.
  destruct (captured (exec (fst pattern) searchText) 1) as [m1|] eqn:E; [|reflexivity].
  now rewrite (feeOf_same m1 (fee_captured pattern searchText m1 Hin E)).
Qed.

Lemma feesIn_same `{H : CaseMapping} searchText :
  @feesIn H searchText = @feesIn latin1Case searchText.
Proof.
  unfold feesIn.
  assert (G : forall l fees, incl l feePatterns ->
            fold_left (@feeStep H searchText) l fees =
            fold_left (@feeStep latin1Case searchText) l fees).
  { induction l as [|p l IH]; intros fees Hl; simpl; [reflexivity|].
    rewrite (feeStep_same searchText fees p) by (apply Hl; now left).
    apply IH. intros q Hq. apply Hl. now right. }
  apply G. apply incl_refl.
Qed.

Lemma sectionLoop_same `{H : CaseMapping} text lowerText headers :
  Forall (fun h => forallb isBasic h = true) headers ->
  @sectionLoop H text lowerText headers =
  @sectionLoop latin1Case text lowerText headers.
Proof.
  induction 1 as [|h hs Hh _ IH]; cbn [sectionLoop]; [reflexivity|].
  rewrite (@toLowerCase_basic H h Hh), (@toLowerCase_basic latin1Case h Hh), IH.
  reflexivity.
Qed.

(** On Basic Latin text and headers the section does not depend on the
    case mapping of the host. *)
Lemma extractSection_same `{H : CaseMapping} text headers :
  forallb isBasic text = true ->
  Forall (fun h => forallb isBasic h = true) headers ->
  @extractSection H text headers = @extractSection latin1Case text headers.
Proof.
  intros Ht Hh. unfold extractSection.
  rewrite (@toLowerCase_basic H text Ht), (@toLowerCase_basic latin1Case text Ht).
  now apply sectionLoop_same.
Qed.

Lemma extractFees_same `{H : CaseMapping} text :
  forallb isBasic text = true ->
  @extractFees H text = @extractFees latin1Case text.
Proof.
  intros Ht. unfold extractFees.
  rewrite (extractSection_same text feeHeaders Ht) by (repeat constructor).
  apply feesIn_same.
Qed.

Lemma NoDup_snoc {A : Type} (l : list A) x :
  NoDup l -> ~ In x l -> NoDup (l ++ [x]).
Proof.
  induction 1 as [|y l Hy Hl IH]; intros Hx; simpl.
  - constructor; [intros []| constructor].
  - constructor.
    + rewrite in_app_iff. intros [Hi|[<-|[]]]; [contradiction|].
      apply Hx. now left.
    + apply IH. intros Hi. apply Hx. now right.
Qed.




Lemma digits_after_stripping g :
  forallb (orset isDigit (oneOf ",")) g = true ->
  forallb isDigit (filter (fun x => negb (N.eqb (ch ",") x)) g) = true.
Proof.
  induction g as [|x g IH]; [reflexivity|].
  cbn [forallb filter]. rewrite andb_true_iff. intros [Hx Hg].
  destruct (N.eqb (ch ",") x) eqn:E; cbn [negb]; [now apply IH|].
  cbn [forallb]. rewrite (IH Hg), andb_true_r. clear - Hx E. char_cases.
Qed.



(** Finding a pattern of a table by its category. *)
Lemma no_pattern_of (l : list (regex * jsstring)) cat :
  ~ In cat (map snd l) -> find (fun p => str_eqb (snd p) cat) l = None.
Proof.
  induction l as [|p l IH]; cbn [map In find]; [reflexivity|].
  intros Hn. destruct (str_eqb (snd p) cat) eqn:E.
  - apply str_eqb_eq in E. exfalso. apply Hn. now left.
  - apply IH. intros Hi. apply Hn. now right.
Qed.

Lemma pattern_of (l : list (regex * jsstring)) p :
  NoDup (map snd l) -> In p l ->
  find (fun q => str_eqb (snd q) (snd p)) l = Some p.
Proof.
  induction l as [|q l IH]; cbn [map In find]; [intros _ []|].
  intros Hn [->|Hin]; [now rewrite str_eqb_refl|].
  inversion Hn as [|? ? Hq Hl]; subst.
  destruct (str_eqb (snd q) (snd p)) eqn:E; [|now apply IH].
  apply str_eqb_eq in E. exfalso. apply Hq. rewrite E. now apply in_map.
Qed.







(** C10.  The two General patterns overlap: on the text "General: Rs. 100"
    the list has one entry of category "General/EWS/OBC" and one of category
    "General", and nothing else; the two have the same fee, since both
    patterns match the same span of the text and capture the same "100". *)
Theorem extractFees_general_twice `{CaseMapping} :
  extractFees (js "General: Rs. 100") =
  [ {| category := js "General/EWS/OBC"; fee := rupee :: js "100/-" |};
    {| category := js "General"; fee := rupee :: js "100/-" |} ] /\
  map (fun pattern =>
         (snd pattern,
          option_map (fun m => (index m, matched m, group m 1))
                     (exec (fst pattern) (js "General: Rs. 100"))))
      (firstn 2 feePatterns) =
  [ (js "General/EWS/OBC", Some (0, js "General: Rs. 100", Some (js "100")));
    (js "General", Some (0, js "General: Rs. 100", Some (js "100"))) ].
Proof.
  split.
  - rewrite extractFees_same by reflexivity. vm_compute. reflexivity.
  - vm_compute. reflexivity.
Qed.

(** ** Links *)

Lemma bucket_eqb_eq a b : bucket_eqb a b = true <-> a = b.
Proof. destruct a, b; simpl; split; intros E; congruence. Qed.

(** A URL belongs to one bucket at most. *)
Lemma inBucket_unique `{CaseMapping} b b' url :
  inBucket b url = true -> inBucket b' url = true -> b = b'.
Proof.
  unfold inBucket. destruct (bucketOf url) as [x|]; [|discriminate].
  rewrite !bucket_eqb_eq. congruence.
Qed.

Lemma assignLink_linkOf `{CaseMapping} links url :
  url <> [] -> linksFilled links ->
  linksFilled (assignLink links url) /\
  forall b,
    linkOf b (assignLink links url) =
    match linkOf b links with
    | Some u => Some u
    | None => if inBucket b url then Some url else None
    end.
Proof.
  intros Hurl Hfilled.
  pose proof (Hfilled ApplyOnline) as H1. pose proof (Hfilled Notification) as H2.
  pose proof (Hfilled AdmitCard) as H3. pose proof (Hfilled Result) as H4.
  pose proof (Hfilled AnswerKey) as H5. pose proof (Hfilled OfficialWebsite) as H6.
  clear Hfilled. unfold linksFilled, assignLink, inBucket, bucketOf.
  cbn [bucketChecks firstCheck].
  destruct links as [f1 f2 f3 f4 f5 f6]. cbn [linkOf applyOnlineUrl admitCardUrl
    resultUrl answerKeyUrl notificationUrl officialWebsiteUrl] in *.
  destruct url as [|x url]; [contradiction|].
  set (lowerUrl := toLowerCase (x :: url)).
  destruct (includes lowerUrl (js "apply") || includes lowerUrl (js "registration"))%bool;
  [|destruct (includes lowerUrl (js "notification") || includes lowerUrl (js "pdf"))%bool;
  [|destruct (includes lowerUrl (js "admit") || includes lowerUrl (js "hall-ticket"))%bool;
  [|destruct (includes lowerUrl (js "result"));
  [|destruct (includes lowerUrl (js "answer") || includes lowerUrl (js "key"))%bool;
  [|destruct (includes lowerUrl (js "gov.in") || includes lowerUrl (js "nic.in"))%bool]]]]].
  all: destruct f1 as [[|? ?]|]; try (exfalso; now apply (H1 [])).
  all: destruct f2 as [[|? ?]|]; try (exfalso; now apply (H3 [])).
  all: destruct f3 as [[|? ?]|]; try (exfalso; now apply (H4 [])).
  all: destruct f4 as [[|? ?]|]; try (exfalso; now apply (H5 [])).
  all: destruct f5 as [[|? ?]|]; try (exfalso; now apply (H2 [])).
  all: destruct f6 as [[|? ?]|]; try (exfalso; now apply (H6 [])).
  all: cbn [unset truthy negb linkOf applyOnlineUrl admitCardUrl resultUrl
            answerKeyUrl notificationUrl officialWebsiteUrl].
  all: split; [intros bk w; destruct bk; cbn; intros E; try discriminate;
                 injection E as <-; discriminate
              | intros bk; destruct bk; reflexivity].
Qed.

Lemma assignLinks_from `{CaseMapping} urls : forall links,
  Forall (fun u => u <> []) urls -> linksFilled links ->
  forall b,
    linkOf b (fold_left assignLink urls links) =
    match linkOf b links with
    | Some u => Some u
    | None => find (inBucket b) urls
    end.
Proof.
  induction urls as [|url urls IH]; intros links Hu Hl b; simpl.
  - destruct (linkOf b links); reflexivity.
  - inversion Hu as [|? ? Hurl Hrest]; subst.
    destruct (assignLink_linkOf links url Hurl Hl) as [Hl' Hstep].
    rewrite (IH _ Hrest Hl' b), Hstep.
    destruct (linkOf b links); [reflexivity|].
    destruct (inBucket b url); reflexivity.
Qed.

Lemma urls_nonempty text : Forall (fun u => u <> []) (matchAll urlRegex text).
Proof.
  apply Forall_forall. intros u Hu. apply matchAll_sound in Hu.
  destruct Hu as [Hlen _]. intros ->.
  change (minLen urlRegex) with 8 in Hlen. simpl in Hlen. lia.
Qed.

(** Each bucket holds the first URL of the document that belongs to it. *)
Lemma extractLinks_find `{CaseMapping} (text : jsstring) (b : Bucket) :
  linkOf b (extractLinks text) = find (inBucket b) (matchAll urlRegex text).
Proof.
  unfold extractLinks, assignLinks.
  rewrite (assignLinks_from _ noLinks (urls_nonempty text)).
  - destruct b; reflexivity.
  - intros b' u. destruct b'; discriminate.
Qed.

Lemma inBucket_same `{H : CaseMapping} b url :
  forallb isBasic url = true -> @inBucket H b url = @inBucket latin1Case b url.
Proof.
  intros Hb. unfold inBucket, bucketOf.
  now rewrite (@toLowerCase_basic H url Hb), (@toLowerCase_basic latin1Case url Hb).
Qed.

(** C7.  Each bucket holds the first URL of the document, in document
    order, whose first successful keyword check, in the fixed order, is the
    bucket's; so a URL lands in one bucket at most.  With the two links of
    the example the first is [applyOnlineUrl], the second [notificationUrl],
    and [officialWebsiteUrl] is absent. *)
Theorem extractLinks_first_in_bucket `{H : CaseMapping} (text : jsstring) :
  (forall b, linkOf b (extractLinks text) =
             find (inBucket b) (matchAll urlRegex text)) /\
  (forall b b' u, linkOf b (extractLinks text) = Some u ->
                  linkOf b' (extractLinks text) = Some u -> b = b') /\
  (matchAll urlRegex twoLinks =
     [js "https://ssc.nic.in/apply-online"; js "https://ssc.nic.in/notification.pdf"] /\
   applyOnlineUrl (extractLinks twoLinks) = Some (js "https://ssc.nic.in/apply-online") /\
   notificationUrl (extractLinks twoLinks) = Some (js "https://ssc.nic.in/notification.pdf") /\
   officialWebsiteUrl (extractLinks twoLinks) = None).
Proof.
  pose proof (@extractLinks_find H) as G.
  split; [apply G|]. split.
  - intros b b' u Hb Hb'. rewrite G in Hb, Hb'.
    apply find_some in Hb, Hb'. eapply inBucket_unique; [apply Hb | apply Hb'].
  - assert (E : matchAll urlRegex twoLinks =
              [js "https://ssc.nic.in/apply-online";
               js "https://ssc.nic.in/notification.pdf"])
      by (vm_compute; reflexivity).
    split; [exact E|].
    pose proof (G twoLinks ApplyOnline) as Ha.
    pose proof (G twoLinks Notification) as Hn.
    pose proof (G twoLinks OfficialWebsite) as Ho.
    rewrite E in Ha, Hn, Ho. cbn [find linkOf] in Ha, Hn, Ho.
    rewrite !(@inBucket_same H) in Ha, Hn, Ho by reflexivity.
    repeat split; [rewrite Ha | rewrite Hn | rewrite Ho]; vm_compute; reflexivity.
Qed.

Lemma extractLinks_first_in_bucket_witness :
  Notification = Notification /\
  find (inBucket ApplyOnline) (matchAll urlRegex twoLinks) =
    Some (js "https://ssc.nic.in/apply-online").
Proof.
  destruct (extractLinks_first_in_bucket twoLinks) as (Hfind & Hone & _ & Ha & Hn & _).
  split.
  - apply (Hone Notification Notification (js "https://ssc.nic.in/notification.pdf"));
      vm_compute; reflexivity.
  - rewrite <- Hfind. vm_compute. reflexivity.
Defined.

(** ** Age limits *)

Lemma den_digits g c c' : den (ignoreCase (plus dg)) g c c' -> digits g.
Proof.
  intros H. apply den_rep_cls in H. destruct H as (Hlo & Hf & _). split.
  - destruct Hlo as [Hlo|Hlo]; [|discriminate].
    destruct g; [simpl in Hlo; lia | discriminate].
  - revert Hf. apply forallb_impl. intros x. simpl.
    now rewrite fold_case_digit.
Qed.

Lemma digits_not_digitFree g s :
  digits g -> occursIn g s -> digitFree s = true -> False.
Proof.
  intros [Hne Hd] Ho Hs. unfold digitFree in Hs.
  pose proof (forallb_occursIn _ g s Ho Hs) as Hg.
  destruct g as [|x g]; [contradiction|]. simpl in Hd, Hg.
  apply andb_true_iff in Hd, Hg. destruct Hd as [Hd _], Hg as [Hg _].
  rewrite Hd in Hg. discriminate.
Qed.

Lemma categoryPatterns_shape :
  Forall (fun pattern => rangeOrMax (fst pattern)) categoryPatterns.
Proof.
  repeat constructor; eexists; eexists; repeat split; reflexivity.
Qed.

(** What a match of a category pattern has captured. *)
Lemma rangeOrMax_match r s m :
  rangeOrMax r -> exec r s = Some m ->
  (exists lo hi,
     group m 1 = Some lo /\ group m 2 = Some hi /\ group m 3 = None /\
     digits lo /\ digits hi /\ occursIn lo s) \/
  (exists mx,
     group m 1 = None /\ group m 2 = None /\ group m 3 = Some mx /\
     digits mx /\ occursIn mx s).
Proof.
  intros (a & b & -> & Ha1 & Ha2 & Ha3 & Hb3 & Hb1 & Hb2) E.
  apply exec_sound in E. destruct E as (Hd & pre & post & Es & _).
  assert (Hin : forall g, occursIn g (matched m) -> occursIn g s).
  { intros g Hg. apply (occursIn_trans _ _ _ Hg). exists pre, post. exact Es. }
  destruct Hd as [Hd|Hd].
  - left.
    destruct (assigns_sound 1 _ _ _ _ _ Ha1 Hd) as (lo & ? & ? & Hlo & Hdlo & Holo).
    destruct (assigns_sound 2 _ _ _ _ _ Ha2 Hd) as (hi & ? & ? & Hhi & Hdhi & _).
    exists lo, hi. repeat split; auto.
    + now rewrite (den_frame 3 a _ _ _ Ha3 Hd).
    + apply (den_digits _ _ _ Hdlo).
    + apply (den_digits _ _ _ Hdlo).
    + apply (den_digits _ _ _ Hdhi).
    + apply (den_digits _ _ _ Hdhi).
  - right.
    destruct (assigns_sound 3 _ _ _ _ _ Hb3 Hd) as (mx & ? & ? & Hmx & Hdmx & Homx).
    exists mx. repeat split; auto.
    + now rewrite (den_frame 1 b _ _ _ Hb1 Hd).
    + now rewrite (den_frame 2 b _ _ _ Hb2 Hd).
    + apply (den_digits _ _ _ Hdmx).
    + apply (den_digits _ _ _ Hdmx).
Qed.

Lemma digitFree_no_assign r i s :
  assigns r i = Some (ignoreCase (plus dg)) ->
  digitFree s = true -> exec r s = None.
Proof.
  intros Ha Hs. destruct (exec r s) as [m|] eqn:E; [|reflexivity].
  exfalso. apply exec_sound in E. destruct E as (Hd & pre & post & Es & _).
  destruct (assigns_sound i _ _ _ _ _ Ha Hd) as (g & ? & ? & _ & Hdg & Hog).
  apply (digits_not_digitFree g s (den_digits _ _ _ Hdg)); [|exact Hs].
  apply (occursIn_trans _ _ _ Hog). exists pre, post. exact Es.
Qed.

Lemma digitFree_no_category pattern s :
  In pattern categoryPatterns -> digitFree s = true ->
  exec (fst pattern) s = None.
Proof.
  intros Hin Hs. pose proof categoryPatterns_shape as Hshape.
  rewrite Forall_forall in Hshape. specialize (Hshape _ Hin).
  destruct (exec (fst pattern) s) as [m|] eqn:E; [|reflexivity].
  exfalso.
  destruct (rangeOrMax_match _ s m Hshape E)
    as [(lo & hi & _ & _ & _ & Hlo & _ & Ho)|(mx & _ & _ & _ & Hmx & Ho)].
  - apply (digits_not_digitFree lo s Hlo Ho Hs).
  - apply (digits_not_digitFree mx s Hmx Ho Hs).
Qed.

Lemma agesIn_digitFree s : digitFree s = true -> agesIn s = [].
Proof.
  intros Hs. unfold agesIn, seedAges.
  rewrite (digitFree_no_assign singleAgeRe 1 s eq_refl Hs).
  rewrite (digitFree_no_assign rangeRe 1 s eq_refl Hs).
  assert (G : forall l, incl l categoryPatterns ->
                        fold_left (ageStep s) l [] = []).
  { induction l as [|p l IH]; intros Hl; simpl; [reflexivity|].
    unfold ageStep at 2.
    rewrite (digitFree_no_category p s) by (auto; apply Hl; now left).
    apply IH. intros q Hq. apply Hl. now right. }
  apply G, incl_refl.
Qed.

Lemma digits_truthy g : digits g -> truthy g = true.
Proof. intros [Hne _]. destruct g; [contradiction | reflexivity]. Qed.

Lemma find_snoc {A : Type} (f : A -> bool) l x :
  find f (l ++ [x]) =
  match find f l with
  | Some e => Some e
  | None => if f x then Some x else None
  end.
Proof.
  induction l as [|y l IH]; cbn [app find]; [reflexivity|].
  destruct (f y); [reflexivity | exact IH].
Qed.

Lemma existsb_find {A : Type} (f : A -> bool) l :
  existsb f l = match find f l with Some _ => true | None => false end.
Proof.
  induction l as [|y l IH]; cbn [existsb find]; [reflexivity|].
  destruct (f y); [reflexivity | exact IH].
Qed.

(** What one round of the loop does to the entry of a category. *)
Lemma entryOf_ageStep searchText ages pattern cat :
  entryOf cat (ageStep searchText ages pattern) =
  match entryOf cat ages with
  | Some e => Some e
  | None =>
      if str_eqb (snd pattern) cat
      then option_map (categoryEntry pattern) (exec (fst pattern) searchText)
      else None
  end.
Proof.
  unfold ageStep, entryOf.
  destruct (exec (fst pattern) searchText) as [m|]; cbn [option_map].
  - rewrite existsb_find.
    destruct (str_eqb (snd pattern) cat) eqn:Ec.
    + apply str_eqb_eq in Ec. subst cat.
      destruct (find _ ages) as [e|] eqn:Ef; [exact Ef|].
      rewrite find_snoc, Ef. cbn [ageCategory]. now rewrite str_eqb_refl.
    + destruct (find (fun a => str_eqb (ageCategory a) (snd pattern)) ages).
      * destruct (find _ ages); reflexivity.
      * rewrite find_snoc. cbn [ageCategory]. rewrite Ec.
        destruct (find _ ages); reflexivity.
  - destruct (find _ ages); [reflexivity|]. now destruct (str_eqb _ cat).
Qed.

(** The entry of a category after the whole loop: the one that was there,
    or else the one its pattern builds. *)
Lemma entryOf_fold_ageStep searchText cat : forall l ages,
  NoDup (map snd l) ->
  entryOf cat (fold_left (ageStep searchText) l ages) =
  match entryOf cat ages with
  | Some e => Some e
  | None =>
      match find (fun p => str_eqb (snd p) cat) l with
      | Some p => option_map (categoryEntry p) (exec (fst p) searchText)
      | None => None
      end
  end.
Proof.
  induction l as [|p l IH]; intros ages Hn; cbn [fold_left find].
  - now destruct (entryOf cat ages).
  - inversion Hn as [|? ? Hp Hl]; subst.
    rewrite (IH _ Hl), entryOf_ageStep.
    destruct (entryOf cat ages) as [e|]; [reflexivity|].
    destruct (str_eqb (snd p) cat) eqn:E; [|reflexivity].
    apply str_eqb_eq in E. subst cat.
    destruct (exec (fst p) searchText); cbn [option_map]; [reflexivity|].
    now rewrite no_pattern_of.
Qed.

Lemma categories_distinct : NoDup (map snd categoryPatterns).
Proof.
  unfold categoryPatterns. cbn [map snd].
  repeat (constructor;
          [ let H := fresh in
            intros H; vm_compute in H;
            repeat (destruct H as [H|H]; [discriminate H|]); exact H |]).
  constructor.
Qed.

(** C3, as amended.  A category pattern matches only where it captures a
    number.  When it captures a direct range, the entry pushed (unless the
    category is there already) carries the two captured numbers; when it
    captures a maximum only, groups 1 and 2 are undefined and the entry
    carries minimum "18" and the captured maximum.  The list returned holds,
    for each of the four patterns that matches the searched text, one entry
    of its category: the one the document-wide patterns have seeded, if
    there is one, else the entry just described; for a pattern that does not
    match it holds no entry of the category but a seeded one.  The default
    "35" is therefore never used; and a text without any digit, whatever
    category keywords it holds, yields no entry at all. *)
Theorem extractAgeLimit_category_entries `{CaseMapping} (text : jsstring) :
  (forall pattern searchText m,
     In pattern categoryPatterns ->
     exec (fst pattern) searchText = Some m ->
     (exists lo hi,
        digits lo /\ digits hi /\
        group m 1 = Some lo /\ group m 2 = Some hi /\
        forall ages,
          ageStep searchText ages pattern =
          pushAge ages {| ageCategory := snd pattern; minAge := lo; maxAge := hi |})
     \/
     (exists mx,
        digits mx /\
        group m 1 = None /\ group m 2 = None /\ group m 3 = Some mx /\
        forall ages,
          ageStep searchText ages pattern =
          pushAge ages {| ageCategory := snd pattern;
                          minAge := js "18"; maxAge := mx |})) /\
  (forall pattern,
     In pattern categoryPatterns ->
     let searchText := sectionOr (extractSection text ageHeaders) text in
     match exec (fst pattern) searchText with
     | Some m =>
         exists e,
           ((exists lo hi,
               group m 1 = Some lo /\ group m 2 = Some hi /\
               e = {| ageCategory := snd pattern; minAge := lo; maxAge := hi |})
            \/
            (exists mx,
               group m 1 = None /\ group m 2 = None /\ group m 3 = Some mx /\
               e = {| ageCategory := snd pattern;
                      minAge := js "18"; maxAge := mx |})) /\
           entryOf (snd pattern) (extractAgeLimit text) =
             Some (match entryOf (snd pattern) (seedAges searchText) with
                   | Some seeded => seeded
                   | None => e
                   end)
     | None =>
         entryOf (snd pattern) (extractAgeLimit text) =
         entryOf (snd pattern) (seedAges searchText)
     end) /\
  (digitFree text = true -> extractAgeLimit text = []).
Proof.
  split; [|split].
  - intros pattern searchText m Hin E.
    pose proof categoryPatterns_shape as Hshape.
    rewrite Forall_forall in Hshape. specialize (Hshape _ Hin).
    destruct (rangeOrMax_match _ searchText m Hshape E)
      as [(lo & hi & H1 & H2 & H3 & Hlo & Hhi & _)|(mx & H1 & H2 & H3 & Hmx & _)].
    + left. exists lo, hi. repeat split; auto; try apply Hlo; try apply Hhi.
      intros ages. unfold ageStep, pushAge, groupOr, orElse. rewrite E, H1, H2.
      rewrite (digits_truthy lo Hlo), (digits_truthy hi Hhi). reflexivity.
    + right. exists mx. repeat split; auto; try apply Hmx.
      intros ages. unfold ageStep, pushAge, groupOr, orElse. rewrite E, H1, H2, H3.
      rewrite (digits_truthy mx Hmx). reflexivity.
  - intros pattern Hin searchText.
    assert (Hentry : entryOf (snd pattern) (extractAgeLimit text) =
              match entryOf (snd pattern) (seedAges searchText) with
              | Some e => Some e
              | None => option_map (categoryEntry pattern) (exec (fst pattern) searchText)
              end).
    { unfold extractAgeLimit, agesIn. fold searchText.
      rewrite (entryOf_fold_ageStep _ _ _ _ categories_distinct).
      now rewrite (pattern_of _ _ categories_distinct Hin). }
    destruct (exec (fst pattern) searchText) as [m|] eqn:E; cbn [option_map] in Hentry.
    + pose proof categoryPatterns_shape as Hshape.
      rewrite Forall_forall in Hshape. specialize (Hshape _ Hin).
      exists (categoryEntry pattern m). split.
      * unfold categoryEntry, groupOr, orElse.
        destruct (rangeOrMax_match _ searchText m Hshape E)
          as [(lo & hi & H1 & H2 & H3 & Hlo & Hhi & _)|(mx & H1 & H2 & H3 & Hmx & _)].
        -- left. exists lo, hi. rewrite H1, H2.
           now rewrite (digits_truthy lo Hlo), (digits_truthy hi Hhi).
        -- right. exists mx. rewrite H1, H2, H3.
           now rewrite (digits_truthy mx Hmx).
      * rewrite Hentry. now destruct (entryOf _ (seedAges searchText)).
    + rewrite Hentry. now destruct (entryOf _ (seedAges searchText)).
  - intros Hfree. unfold extractAgeLimit. apply agesIn_digitFree.
    unfold digitFree in *.
    apply (forallb_occursIn _ _ text (searchText_occurs text ageHeaders) Hfree).
Qed.

Lemma extractAgeLimit_category_entries_witness :
  (exists m, exec (fst (ignoreCase (Alt (ageRange [lit "obc"]) (ageMaxOnly "obc")), js "OBC"))
                  (js "OBC: relaxation, max 38 years") = Some m /\
             group m 1 = None /\ group m 3 = Some (js "38")) /\
  extractAgeLimit (js "OBC: relaxation, max 38 years") =
    [{| ageCategory := js "OBC"; minAge := js "18"; maxAge := js "38" |}] /\
  extractAgeLimit agesAsPerRules = [].
Proof.
  split; [|split].
  - eexists. repeat split; vm_compute; reflexivity.
  - vm_compute. reflexivity.
  - apply (proj2 (proj2 (extractAgeLimit_category_entries agesAsPerRules))).
    vm_compute. reflexivity.
Defined.

(** C3, as worded, fails twice.  The text [agesAsPerRules] names the four
    categories (and even the word "maximum") but holds no number, and no
    entry is produced for any of them, let alone one with maximum "35".
    And in [minMaxThenGeneral] the General pattern captures a maximum only,
    yet the General entry does not carry the minimum "18": the entry the
    document-wide pattern has seeded stays. *)
Lemma extractAgeLimit_no_default_entry :
  (includes (toLowerCase agesAsPerRules) (js "general") = true /\
   digitFree agesAsPerRules = true /\
   extractAgeLimit agesAsPerRules = [] /\
   ~ (exists e, In e (extractAgeLimit agesAsPerRules) /\ maxAge e = js "35")) /\
  ((exists m,
      exec (ignoreCase (Alt (ageRange [lit "general"]) (ageMaxOnly "general")))
           minMaxThenGeneral = Some m /\
      group m 1 = None /\ group m 2 = None /\ group m 3 = Some (js "35")) /\
   In (ignoreCase (Alt (ageRange [lit "general"]) (ageMaxOnly "general")), js "General")
      categoryPatterns /\
   extractAgeLimit minMaxThenGeneral =
     [{| ageCategory := js "General"; minAge := js "21"; maxAge := js "30" |}]).
Proof.
  assert (E : extractAgeLimit agesAsPerRules = []) by (vm_compute; reflexivity).
  split.
  - repeat split; try (vm_compute; reflexivity).
    rewrite E. intros (e & [] & _).
  - split; [|split].
    + eexists. repeat split; vm_compute; reflexivity.
    + now left.
    + vm_compute. reflexivity.
Qed.

(** ** The record *)

Lemma orUndefined_filled s : orUndefined s <> Some [].
Proof. destruct s; discriminate. Qed.

Lemma orUndefined_absent s : orUndefined s = None <-> s = [].
Proof.
  unfold orUndefined. destruct s; simpl; split; intros E;
    try discriminate; reflexivity.
Qed.

(** The optional strings of the record: [qualification], [state] and the
    six links are absent or non-empty; [eligibilityDetails] is always
    present, and is the empty string exactly when [qualification] is
    absent. *)
Lemma parseJobNotification_optional_strings `{CaseMapping} (text : jsstring) :
  qualification (parseJobNotification text) <> Some [] /\
  state (parseJobNotification text) <> Some [] /\
  (forall b, linkOf b (links (parseJobNotification text)) <> Some []) /\
  eligibilityDetails (parseJobNotification text) =
    Some (extractQualification text) /\
  (eligibilityDetails (parseJobNotification text) = Some [] <->
   qualification (parseJobNotification text) = None).
Proof.
  cbn [parseJobNotification qualification state links eligibilityDetails].
  repeat split; try apply orUndefined_filled.
  - intros b Hb.
    rewrite extractLinks_find in Hb.
    apply find_some in Hb. destruct Hb as [Hin _].
    pose proof (urls_nonempty text) as Hne. rewrite Forall_forall in Hne.
    now apply (Hne [] Hin).
  - intros E. injection E as E. now apply orUndefined_absent.
  - intros E. apply orUndefined_absent in E. now rewrite E.
Qed.

Lemma extractQualification_same `{H : CaseMapping} text :
  forallb isBasic text = true ->
  @extractQualification H text = @extractQualification latin1Case text.
Proof.
  intros Ht. unfold extractQualification.
  now rewrite (extractSection_same text qualHeaders Ht) by (repeat constructor).
Qed.

(** C2, at an input the route accepts (more than 50 units) that names no
    qualification: [qualification] is absent, as the claim wants it, but
    [eligibilityDetails], built from the same string without the guard, is
    the empty string. *)
Theorem parseJobNotification_eligibilityDetails_empty `{CaseMapping} :
  50 <= length (trim clerkNotice) /\
  qualification (parseJobNotification clerkNotice) = None /\
  eligibilityDetails (parseJobNotification clerkNotice) = Some [].
Proof.
  split; [vm_compute; repeat constructor|].
  cbn [parseJobNotification qualification eligibilityDetails].
  rewrite extractQualification_same by reflexivity.
  split; vm_compute; reflexivity.
Qed.

(** ** The case mapping of the host does not matter on Basic Latin text *)

Lemma toLowerCase_any `{H : CaseMapping} s :
  forallb isBasic s = true -> @toLowerCase H s = @toLowerCase latin1Case s.
Proof.
  intros Hs. now rewrite (@toLowerCase_basic H s Hs), (@toLowerCase_basic latin1Case s Hs).
Qed.

Lemma basic_searchText `{CaseMapping} text headers :
  forallb isBasic text = true ->
  forallb isBasic (sectionOr (extractSection text headers) text) = true.
Proof. apply forallb_occursIn, searchText_occurs. Qed.

Lemma basic_splitLines s :
  forallb isBasic s = true -> Forall (fun l => forallb isBasic l = true) (splitLines s).
Proof.
  induction s as [|c s IH]; simpl; intros Hs; [repeat constructor|].
  apply andb_true_iff in Hs. destruct Hs as [Hc Hs]. specialize (IH Hs).
  destruct (N.eqb c nl); [constructor; [reflexivity | exact IH]|].
  destruct (splitLines s) as [|l ls]; [repeat constructor; simpl; now rewrite Hc|].
  inversion IH as [|? ? Hl Hls]; subst. constructor; [|exact Hls].
  simpl. now rewrite Hc, Hl.
Qed.

Lemma basic_cap r s m i :
  forallb isBasic s = true ->
  exec r s = Some m \/ execAnchored r s = Some m ->
  forallb isBasic (cap m i) = true.
Proof.
  intros Hs Hm. unfold cap. destruct (group m i) as [g|] eqn:Eg; [|reflexivity].
  assert (Hd : den r (matched m) nocaps (group m) /\ occursIn (matched m) s).
  { destruct Hm as [Hm|Hm].
    - apply exec_sound in Hm. destruct Hm as (Hd & pre & post & E & _).
      split; [exact Hd | exists pre, post; exact E].
    - apply matchHere_sound in Hm. destruct Hm as (_ & Hd & post & E).
      split; [exact Hd | exists [], post; exact E]. }
  destruct Hd as [Hd Ho].
  destruct (den_caps_occur i g r _ _ _ Hd Eg) as [Hn|Hg]; [discriminate|].
  apply (forallb_occursIn _ g s); [|exact Hs].
  apply (occursIn_trans _ _ _ Hg Ho).
Qed.

Lemma detectType_same `{H : CaseMapping} text :
  forallb isBasic text = true -> @detectType H text = @detectType latin1Case text.
Proof. intros Ht. unfold detectType. now rewrite (toLowerCase_any text Ht). Qed.

Lemma extractState_same `{H : CaseMapping} text :
  forallb isBasic text = true -> @extractState H text = @extractState latin1Case text.
Proof. intros Ht. unfold extractState. now rewrite (toLowerCase_any text Ht). Qed.

Lemma basic_trim s : forallb isBasic s = true -> forallb isBasic (trim s) = true.
Proof. apply forallb_occursIn, occursIn_trim. Qed.

Lemma datesFromLines_same `{H : CaseMapping} lines : forall dates,
  Forall (fun l => forallb isBasic l = true) lines ->
  Forall (fun d => forallb isBasic (label d) = true) dates ->
  @datesFromLines H lines dates = @datesFromLines latin1Case lines dates.
Proof.
  unfold datesFromLines.
  induction lines as [|line lines IH]; intros dates Hl Hd; cbn [fold_left]; [reflexivity|].
  inversion Hl as [|? ? Hline Hrest]; subst.
  destruct (execAnchored colonLineRe line) as [m|] eqn:E; [|now apply IH].
  assert (Hlab : forallb isBasic (trim (cap m 1)) = true).
  { apply basic_trim. apply (basic_cap colonLineRe line m 1 Hline). now right. }
  rewrite (toLowerCase_any _ Hlab).
  assert (Hex : existsb (fun d => str_eqb (@toLowerCase H (label d))
                                         (@toLowerCase latin1Case (trim (cap m 1)))) dates =
                existsb (fun d => str_eqb (@toLowerCase latin1Case (label d))
                                         (@toLowerCase latin1Case (trim (cap m 1)))) dates).
  { clear - Hd. induction Hd as [|d ds Hd0 _ IHd]; cbn [existsb]; [reflexivity|].
    rewrite (toLowerCase_any _ Hd0). f_equal. exact IHd. }
  rewrite Hex. clear Hex.
  destruct (existsb _ dates); cbv iota; [apply IH; assumption|].
  destruct (Nat.ltb 3 _ && Nat.ltb _ 50)%bool; cbv iota; [|apply IH; assumption].
  apply IH; [exact Hrest|]. apply Forall_app. split; [exact Hd|].
  constructor; [exact Hlab | constructor].
Qed.

Lemma datesFromPatterns_labels searchText :
  Forall (fun d => forallb isBasic (label d) = true) (datesFromPatterns searchText).
Proof.
  unfold datesFromPatterns.
  assert (G : forall l dates,
            Forall (fun p => forallb isBasic (snd p) = true) l ->
            Forall (fun d => forallb isBasic (label d) = true) dates ->
            Forall (fun d => forallb isBasic (label d) = true)
              (fold_left
                 (fun dates pattern =>
                    match captured (exec (fst pattern) searchText) 1 with
                    | Some d => dates ++ [{| label := snd pattern; date := trim d |}]
                    | None => dates
                    end) l dates)).
  { induction l as [|p l IH]; intros dates Hl Hd; simpl; [exact Hd|].
    inversion Hl as [|? ? Hp Hrest]; subst. apply IH; [exact Hrest|].
    destruct (captured _ 1); [|exact Hd].
    apply Forall_app. split; [exact Hd|]. constructor; [exact Hp | constructor]. }
  apply G; repeat constructor.
Qed.

Lemma extractDates_same `{H : CaseMapping} text :
  forallb isBasic text = true -> @extractDates H text = @extractDates latin1Case text.
Proof.
  intros Ht. unfold extractDates.
  rewrite (extractSection_same text _ Ht) by (repeat constructor).
  apply datesFromLines_same; [|apply datesFromPatterns_labels].
  apply basic_splitLines. now apply (@basic_searchText latin1Case).
Qed.

Lemma extractAgeLimit_same `{H : CaseMapping} text :
  forallb isBasic text = true ->
  @extractAgeLimit H text = @extractAgeLimit latin1Case text.
Proof.
  intros Ht. unfold extractAgeLimit.
  now rewrite (extractSection_same text ageHeaders Ht) by (repeat constructor).
Qed.

Lemma extractPhysicalEligibility_same `{H : CaseMapping} text :
  forallb isBasic text = true ->
  @extractPhysicalEligibility H text = @extractPhysicalEligibility latin1Case text.
Proof.
  intros Ht. unfold extractPhysicalEligibility.
  now rewrite (extractSection_same text physicalHeaders Ht) by (repeat constructor).
Qed.

Lemma extractVacancyDetails_same `{H : CaseMapping} text :
  forallb isBasic text = true ->
  @extractVacancyDetails H text = @extractVacancyDetails latin1Case text.
Proof.
  intros Ht. unfold extractVacancyDetails.
  now rewrite (extractSection_same text _ Ht) by (repeat constructor).
Qed.

Lemma extractSelectionProcess_same `{H : CaseMapping} text :
  forallb isBasic text = true ->
  @extractSelectionProcess H text = @extractSelectionProcess latin1Case text.
Proof.
  intros Ht. unfold extractSelectionProcess.
  rewrite (extractSection_same text _ Ht) by (repeat constructor).
  set (searchText := sectionOr _ text).
  assert (Hs : forallb isBasic searchText = true)
    by now apply (@basic_searchText latin1Case).
  rewrite (toLowerCase_any searchText Hs).
  assert (G : forall l process,
            Forall (fun st => forallb isBasic st = true) l ->
            fold_left
              (fun process stage =>
                 if includes (@toLowerCase latin1Case searchText) (@toLowerCase H stage)
                 then let normalized := trim (replaceAll blanksRe (js " ") stage) in
                      if existsb (str_eqb normalized) process then process
                      else process ++ [normalized]
                 else process) l process =
            fold_left
              (fun process stage =>
                 if includes (@toLowerCase latin1Case searchText)
                             (@toLowerCase latin1Case stage)
                 then let normalized := trim (replaceAll blanksRe (js " ") stage) in
                      if existsb (str_eqb normalized) process then process
                      else process ++ [normalized]
                 else process) l process).
  { induction l as [|st l IH]; intros process Hl; cbn [fold_left]; [reflexivity|].
    inversion Hl as [|? ? Hst Hrest]; subst.
    rewrite (toLowerCase_any st Hst). now apply IH. }
  apply G. repeat constructor.
Qed.

Lemma assignLink_same `{H : CaseMapping} links url :
  forallb isBasic url = true ->
  @assignLink H links url = @assignLink latin1Case links url.
Proof. intros Hu. unfold assignLink. now rewrite (toLowerCase_any url Hu). Qed.

Lemma extractLinks_same `{H : CaseMapping} text :
  forallb isBasic text = true -> @extractLinks H text = @extractLinks latin1Case text.
Proof.
  intros Ht. unfold extractLinks, assignLinks.
  assert (Hu : Forall (fun u => forallb isBasic u = true) (matchAll urlRegex text)).
  { apply Forall_forall. intros u Hin. apply matchAll_sound in Hin.
    apply (forallb_occursIn _ u text (proj2 Hin) Ht). }
  generalize noLinks.
  induction Hu as [|u us Hu0 _ IH]; intros links; cbn [fold_left]; [reflexivity|].
  rewrite (assignLink_same links u Hu0). apply IH.
Qed.

(** On Basic Latin text the record is the same under every case mapping
    that lower-cases Basic Latin letter by letter. *)
Lemma parseJobNotification_same `{H : CaseMapping} text :
  forallb isBasic text = true ->
  @parseJobNotification H text = @parseJobNotification latin1Case text.
Proof.
  intros Ht. unfold parseJobNotification.
  rewrite (detectType_same text Ht), (extractDates_same text Ht),
    (extractFees_same text Ht), (extractAgeLimit_same text Ht),
    (extractPhysicalEligibility_same text Ht),
    (extractVacancyDetails_same text Ht),
    (extractSelectionProcess_same text Ht),
    (extractQualification_same text Ht), (extractState_same text Ht),
    (extractLinks_same text Ht).
  reflexivity.
Qed.

(* ================================================================== *)
(** * Further properties of the parser and of the slugs *)
(* ================================================================== *)

(** ** What the words of a pattern are made of *)

Lemma rounds_within (R : jsstring -> caps -> caps -> Prop) gs (q : charset) :
  (forall w c c', R w c c' -> forallb q w = true) ->
  forall n w c c', rounds R gs n w c c' -> forallb q w = true.
Proof.
  intros HR. induction n as [|n IH]; intros w c c' H; simpl in H.
  - destruct H as [-> _]. reflexivity.
  - destruct H as (w1 & w2 & c1 & -> & H1 & H2).
    rewrite forallb_app, (HR _ _ _ H1), (IH _ _ _ H2). reflexivity.
Qed.

Lemma within_den q r : forall w c c',
  within q r -> den r w c c' -> forallb q w = true.
Proof.
  induction r as [|inv p|a IHa b IHb|a IHa b IHb|lo hi a IHa|i a IHa];
    intros w c c' Hw H; cbn [within den] in *.
  - destruct H as [-> _]. reflexivity.
  - destruct H as (x & -> & Hx & _). cbn [forallb]. now rewrite (Hw x Hx).
  - destruct Hw as [Wa Wb]. destruct H as (w1 & w2 & c1 & -> & H1 & H2).
    rewrite forallb_app, (IHa _ _ _ Wa H1), (IHb _ _ _ Wb H2). reflexivity.
  - destruct Hw as [Wa Wb]. destruct H as [H|H]; eauto.
  - destruct H as (n & _ & _ & Hr).
    apply (rounds_within (den a) (groups a) q) in Hr; auto.
    intros; eapply IHa; eauto.
  - destruct H as (c1 & H & _). eauto.
Qed.

Lemma needs_den q r : forall w c c',
  needs q r -> den r w c c' -> existsb q w = true.
Proof.
  induction r as [|inv p|a IHa b IHb|a IHa b IHb|lo hi a IHa|i a IHa];
    intros w c c' Hn H; cbn [needs den] in *.
  - contradiction.
  - destruct H as (x & -> & Hx & _). cbn [existsb]. now rewrite (Hn x Hx).
  - destruct H as (w1 & w2 & c1 & -> & H1 & H2). rewrite existsb_app.
    destruct Hn as [Hn|Hn].
    + now rewrite (IHa _ _ _ Hn H1).
    + rewrite (IHb _ _ _ Hn H2). apply orb_true_r.
  - destruct Hn as [Na Nb]. destruct H as [H|H]; eauto.
  - destruct Hn as (Hlo & Hhi & Hn). destruct H as (n & Hn1 & _ & Hr).
    destruct n as [|n].
    + exfalso. destruct Hn1 as [L|E]; [lia | now apply Hhi].
    + simpl in Hr. destruct Hr as (w1 & w2 & c1 & -> & H1 & _).
      rewrite existsb_app, (IHa _ _ _ Hn H1). reflexivity.
  - destruct H as (c1 & H & _). eauto.
Qed.

(** ** Trimming *)

Lemma trimStart_all_space s : forallb isSpace s = true -> trimStart s = [].
Proof.
  induction s as [|c s IH]; simpl; [reflexivity|].
  rewrite andb_true_iff. intros [Hc Hs]. rewrite Hc. auto.
Qed.

Lemma trimStart_keeps x s :
  In x s -> isSpace x = false -> In x (trimStart s).
Proof.
  induction s as [|c s IH]; simpl; [tauto|].
  intros [->|Hin] Hx.
  - rewrite Hx. now left.
  - destruct (isSpace c); [auto | now right].
Qed.

Lemma trim_keeps x s : In x s -> isSpace x = false -> In x (trim s).
Proof.
  intros Hin Hx. unfold trim, trimEnd. rewrite <- in_rev.
  apply trimStart_keeps; [|exact Hx]. rewrite <- in_rev.
  now apply trimStart_keeps.
Qed.

Lemma trim_all_space s : forallb isSpace s = true -> trim s = [].
Proof.
  intros Hs. unfold trim. now rewrite (trimStart_all_space s Hs).
Qed.

Lemma existsb_In (q : charset) s : existsb q s = true -> exists x, In x s /\ q x = true.
Proof. apply existsb_exists. Qed.

Lemma trim_nonempty s : existsb notSpace s = true -> trim s <> [].
Proof.
  intros He. apply existsb_exists in He. destruct He as (x & Hin & Hx).
  unfold notSpace in Hx. apply negb_true_iff in Hx.
  pose proof (trim_keeps x s Hin Hx) as Hk. intros E. rewrite E in Hk. contradiction.
Qed.

Lemma trimStart_head s x t : trimStart s = x :: t -> isSpace x = false.
Proof.
  induction s as [|c s IH]; simpl; [discriminate|].
  destruct (isSpace c) eqn:Ec; [exact IH|]. intros E; injection E as <- _. exact Ec.
Qed.

Lemma trimStart_suffix s : exists pre, s = pre ++ trimStart s.
Proof.
  induction s as [|c s IH]; simpl; [exists []; reflexivity|].
  destruct (isSpace c); [|exists []; reflexivity].
  destruct IH as (pre & E). exists (c :: pre). simpl. now f_equal.
Qed.

(** A trimmed string neither starts nor ends with white space. *)
Lemma trim_head s x t : trim s = x :: t -> isSpace x = false.
Proof.
  unfold trim, trimEnd. intros E.
  destruct (trimStart_suffix (rev (trimStart s))) as (pre & Ep).
  apply (f_equal (@rev _)) in Ep. rewrite rev_involutive, rev_app_distr, E in Ep.
  simpl in Ep. apply (trimStart_head s x (t ++ rev pre)). exact Ep.
Qed.

Lemma trim_last s u x : trim s = u ++ [x] -> isSpace x = false.
Proof.
  unfold trim, trimEnd. intros E.
  apply (f_equal (@rev _)) in E. rewrite rev_involutive, rev_app_distr in E.
  simpl in E. apply (trimStart_head (rev (trimStart s)) x (rev u)). exact E.
Qed.

(** ** Ranges of the classes, and the [i] flag on them *)

Lemma space_range y : isSpace y = true -> (y <= 32 \/ 160 <= y)%N.
Proof.
  unfold isSpace, between. rewrite !orb_true_iff, !andb_true_iff, !N.leb_le, !N.eqb_eq.
  lia.
Qed.

Lemma alpha_range y : isAlpha y = true -> (65 <= y <= 122)%N.
Proof.
  unfold isAlpha, isUpper, isLower, between.
  rewrite !orb_true_iff, !andb_true_iff, !N.leb_le. lia.
Qed.

Lemma alpha_notSpace y : isAlpha y = true -> notSpace y = true.
Proof.
  intros Ha. unfold notSpace. apply negb_true_iff.
  destruct (isSpace y) eqn:Es; [|reflexivity].
  apply space_range in Es. apply alpha_range in Ha. lia.
Qed.

Lemma range_notSpace y : (33 <= y <= 127)%N -> notSpace y = true.
Proof.
  intros Hy. unfold notSpace. apply negb_true_iff.
  destruct (isSpace y) eqn:Es; [|reflexivity]. apply space_range in Es. lia.
Qed.

Lemma upperBasic_cases x :
  upperBasic x = x \/ (isLower x = true /\ isUpper (upperBasic x) = true).
Proof.
  unfold upperBasic. destruct (isLower x) eqn:E; [right|now left].
  split; [reflexivity|]. unfold isLower, isUpper, between in *.
  rewrite andb_true_iff, !N.leb_le in *. lia.
Qed.

Lemma lowerBasic_cases x :
  lowerBasic x = x \/ (isUpper x = true /\ isLower (lowerBasic x) = true).
Proof.
  unfold lowerBasic. destruct (isUpper x) eqn:E; [right|now left].
  split; [reflexivity|]. unfold isLower, isUpper, between in *.
  rewrite andb_true_iff, !N.leb_le in *. lia.
Qed.

Lemma upper_is_alpha x : isUpper x = true -> isAlpha x = true.
Proof. unfold isAlpha. now intros ->. Qed.

Lemma lower_is_alpha x : isLower x = true -> isAlpha x = true.
Proof. unfold isAlpha. intros ->. apply orb_true_r. Qed.

(** Under the [i] flag a class matches a unit of the class or a letter. *)
Lemma fold_case_cases (p : charset) x :
  fold_case p x = true ->
  p x = true \/ (isAlpha x = true /\ (p (upperBasic x) = true \/ p (lowerBasic x) = true)).
Proof.
  unfold fold_case. rewrite orb_true_iff. intros [H|H].
  - destruct (upperBasic_cases x) as [E|[L _]]; [rewrite E in H; now left|].
    right. split; [now apply lower_is_alpha | now left].
  - destruct (lowerBasic_cases x) as [E|[U _]]; [rewrite E in H; now left|].
    right. split; [now apply upper_is_alpha | now right].
Qed.

Lemma fold_case_false (p : charset) x : fold_case p x = false -> p x = false.
Proof.
  unfold fold_case. rewrite orb_false_iff. intros [H1 H2].
  destruct (upperBasic_cases x) as [E|[L _]]; [now rewrite E in H1|].
  unfold lowerBasic in H2. destruct (isUpper x) eqn:U; [|exact H2].
  unfold isLower, isUpper, between in *. rewrite andb_true_iff, !N.leb_le in *. lia.
Qed.

(** A letter of a pattern matches letters only. *)
Lemma letter_anyCase_alpha c x :
  isAlpha c = true -> fold_case (N.eqb c) x = true -> isAlpha x = true.
Proof.
  intros Hc Hx. apply fold_case_cases in Hx. destruct Hx as [Hx|[Ha _]]; [|exact Ha].
  apply N.eqb_eq in Hx. now subst.
Qed.

(** A class that holds no letter matches the same units under the flag. *)
Lemma fold_case_noLetter (p : charset) x :
  (forall y, p y = true -> isAlpha y = false) ->
  fold_case p x = true -> p x = true.
Proof.
  intros Hp Hx. apply fold_case_cases in Hx. destruct Hx as [Hx|[Ha [H|H]]]; [exact Hx| |].
  - destruct (upperBasic_cases x) as [E|[_ U]]; [now rewrite E in H|].
    apply Hp in H. apply upper_is_alpha in U. congruence.
  - destruct (lowerBasic_cases x) as [E|[_ L]]; [now rewrite E in H|].
    apply Hp in H. apply lower_is_alpha in L. congruence.
Qed.

Lemma fold_case_lettersSpaces x :
  fold_case lettersSpaces x = true -> lettersSpaces x = true.
Proof.
  intros Hx. apply fold_case_cases in Hx. destruct Hx as [Hx|[Ha _]]; [exact Hx|].
  unfold lettersSpaces, orset. now rewrite Ha.
Qed.

(** ** What a group of a pattern can hold *)

(** The group a pattern always assigns, read with [m && m[i]]: a non-empty
    word of the group's body that occurs in the text. *)
Lemma captured_den r i body text w :
  assigns r i = Some body ->
  captured (exec r text) i = Some w ->
  (exists c0 c1, den body w c0 c1) /\ w <> [] /\ occursIn w text.
Proof.
  intros Ha Hc. unfold captured in Hc.
  destruct (exec r text) as [m|] eqn:E; [|discriminate].
  apply exec_sound in E. destruct E as (Hd & pre & post & Ht & _).
  destruct (group m i) as [g|] eqn:Eg; [|discriminate].
  destruct (truthy g) eqn:Tg; [|discriminate]. injection Hc as <-.
  destruct (assigns_sound i _ _ _ _ _ Ha Hd) as (g' & c0 & c1 & Hg & Hdg & Ho).
  rewrite Eg in Hg. injection Hg as <-.
  split; [exists c0, c1; exact Hdg|]. split.
  - intros ->. discriminate.
  - apply (occursIn_trans _ (matched m)); [exact Ho|]. exists pre, post. exact Ht.
Qed.

(** The same for a group read as [m[i]] after a successful match. *)
Lemma cap_den r i body text m :
  assigns r i = Some body ->
  exec r text = Some m \/ execAnchored r text = Some m ->
  (exists c0 c1, den body (cap m i) c0 c1) /\ occursIn (cap m i) text.
Proof.
  intros Ha Hm.
  assert (H : den r (matched m) nocaps (group m) /\ occursIn (matched m) text).
  { destruct Hm as [Hm|Hm].
    - apply exec_sound in Hm. destruct Hm as (Hd & pre & post & Ht & _).
      split; [exact Hd|]. exists pre, post. exact Ht.
    - apply matchHere_sound in Hm. destruct Hm as (_ & Hd & post & Ht).
      split; [exact Hd|]. exists [], post. exact Ht. }
  destruct H as [Hd Ho].
  destruct (assigns_sound i _ _ _ _ _ Ha Hd) as (g & c0 & c1 & Hg & Hdg & Hog).
  unfold cap. rewrite Hg. split; [exists c0, c1; exact Hdg|].
  apply (occursIn_trans _ (matched m)); assumption.
Qed.

Lemma alpha_lettersSpaces x : isAlpha x = true -> lettersSpaces x = true.
Proof. unfold lettersSpaces, orset. now intros ->. Qed.

(** Exposes the characters and classes of a concrete pattern. *)
Ltac expose :=
  cbv -[fold_case N.eqb xorb lettersSpaces orset oneOf isAlpha isSpace isDigit
        isWord isUpper isLower notSpace quote].

Ltac letters_leaf :=
  let x := fresh "x" in let Hx := fresh "Hx" in
  intros x Hx; cbn [xorb] in Hx;
  first [ apply fold_case_lettersSpaces; exact Hx
        | apply alpha_lettersSpaces;
          eapply letter_anyCase_alpha; [|exact Hx]; reflexivity ].

(** ** extractDepartment *)

Lemma firstDepartment_letters text patterns :
  Forall (fun r => exists body, assigns r 1 = Some body /\ within lettersSpaces body)
         patterns ->
  forallb lettersSpaces (firstDepartment text patterns) = true /\
  length (firstDepartment text patterns) <= 100.
Proof.
  induction 1 as [|r l (body & Ha & Hw) _ IH]; simpl.
  - split; [reflexivity | vm_compute; lia].
  - destruct (captured (exec r text) 1) as [m1|] eqn:E; [|exact IH].
    destruct (captured_den _ _ _ _ _ Ha E) as ((c0 & c1 & Hd) & _ & _).
    apply (within_den _ _ _ _ _ Hw) in Hd. split.
    + apply (forallb_occursIn _ _ (trim m1)); [apply occursIn_slice|].
      apply (forallb_occursIn _ _ m1); [apply occursIn_trim | exact Hd].
    + unfold slice. rewrite length_firstn. lia.
Qed.

(** X4.  The department is made of letters of Basic Latin and white space
    only, and is at most 100 units long. *)
Theorem extractDepartment_letters (text : jsstring) :
  forallb lettersSpaces (extractDepartment text) = true /\
  length (extractDepartment text) <= 100.
Proof.
  apply firstDepartment_letters. unfold deptPatterns.
  repeat constructor; eexists; (split; [reflexivity|]);
    expose; repeat split; letters_leaf.
Qed.

(** ** extractVacancyDetails *)

Lemma stripCommas_digits g c c' :
  den (ignoreCase digitsCommas) g c c' -> forallb isDigit (stripCommas g) = true.
Proof.
  intros H. apply den_digitsCommas in H. destruct H as [_ H].
  rewrite stripCommas_filter. now apply digits_after_stripping.
Qed.

Lemma postRe_name : within lettersSpaces
  (ignoreCase (seq [plus (cls lettersSpaces);
                    opt (alts [lit "constable"; lit "officer"; lit "clerk";
                               lit "assistant"; lit "manager"; lit "engineer";
                               lit "teacher"; lit "inspector"])])).
Proof. expose; repeat split; letters_leaf. Qed.

Lemma trim_within (q : charset) s : forallb q s = true -> forallb q (trim s) = true.
Proof. apply forallb_occursIn, occursIn_trim. Qed.

Lemma vacanciesFromLines_shape lines :
  Forall vacancyShape (vacanciesFromLines lines) /\
  Forall (fun v => 3 < length (postName v)) (vacanciesFromLines lines).
Proof.
  unfold vacanciesFromLines.
  assert (G : forall l acc,
            Forall vacancyShape acc /\ Forall (fun v => 3 < length (postName v)) acc ->
            let r := fold_left
              (fun vacancies line =>
                 match exec postRe line with
                 | Some postMatch =>
                     if Nat.ltb 3 (length (trim (cap postMatch 1)))
                     then vacancies ++
                          [{| postName := trim (cap postMatch 1);
                              totalPost := stripCommas (cap postMatch 2);
                              eligibility := [] |}]
                     else vacancies
                 | None => vacancies
                 end) l acc in
            Forall vacancyShape r /\ Forall (fun v => 3 < length (postName v)) r).
  { induction l as [|line l IH]; intros acc Hacc; cbn [fold_left]; [exact Hacc|].
    apply IH. destruct (exec postRe line) as [m|] eqn:E; [|exact Hacc].
    destruct (Nat.ltb 3 (length (trim (cap m 1)))) eqn:E3; [|exact Hacc].
    apply Nat.ltb_lt in E3. destruct Hacc as [H1 H2].
    split; apply Forall_app; (split; [assumption|]); (constructor; [|constructor]).
    - destruct (cap_den postRe 1 _ line m eq_refl (or_introl E)) as ((c0 & c1 & Hd1) & _).
      destruct (cap_den postRe 2 _ line m eq_refl (or_introl E)) as ((c2 & c3 & Hd2) & _).
      split; [|split]; cbn [postName totalPost eligibility].
      + apply trim_within. apply (within_den _ _ _ _ _ postRe_name Hd1).
      + apply (stripCommas_digits _ _ _ Hd2).
      + reflexivity.
    - exact E3. }
  apply G. split; constructor.
Qed.

Lemma extractVacancyDetails_shape `{CaseMapping} (text : jsstring) :
  Forall vacancyShape (extractVacancyDetails text).
Proof.
  unfold extractVacancyDetails.
  match goal with |- context [vacanciesFromLines ?l] =>
    pose proof (proj1 (vacanciesFromLines_shape l)) as Hl;
    destruct (vacanciesFromLines l) as [|v vs] end; [|exact Hl].
  destruct (exec totalRe text) as [total|] eqn:Et; [|constructor].
  constructor; [|constructor].
  destruct (cap_den totalRe 1 _ text total eq_refl (or_introl Et)) as ((c2 & c3 & Hd2) & _).
  split; [|split]; cbn [postName totalPost eligibility].
  - destruct (exec roleRe text) as [m|] eqn:Er; [|reflexivity].
    destruct (cap_den roleRe 1 _ text m eq_refl (or_introl Er)) as ((c0 & c1 & Hd1) & _).
    apply trim_within. apply (within_den lettersSpaces _ _ _ _) in Hd1; [exact Hd1|].
    expose; repeat split; letters_leaf.
  - apply (stripCommas_digits _ _ _ Hd2).
  - reflexivity.
Qed.

(** X5.  Every vacancy entry has a name made of letters of Basic Latin and
    white space only and a count made of digits only (the commas are gone);
    its eligibility text is empty.  An entry read from a line of the text
    has a name of more than three units. *)
Theorem extractVacancyDetails_entries `{CaseMapping} (text : jsstring) :
  Forall vacancyShape (extractVacancyDetails text) /\
  forall lines, Forall (fun v => 3 < length (postName v)) (vacanciesFromLines lines).
Proof.
  split; [apply extractVacancyDetails_shape|].
  intros lines. apply vacanciesFromLines_shape.
Qed.

(** ** The total is never negative *)

Lemma digit_notSpace x : isDigit x = true -> isSpace x = false.
Proof.
  intros Hd. destruct (isSpace x) eqn:Es; [|reflexivity].
  apply space_range in Es. unfold isDigit, between in Hd.
  rewrite andb_true_iff, !N.leb_le in Hd. lia.
Qed.

Lemma parseIntOr0_digits s : forallb isDigit s = true -> (0 <= parseIntOr0 s)%Z.
Proof.
  intros Hs. unfold parseIntOr0, parseInt.
  destruct s as [|x s]; [cbn; lia|].
  cbn [forallb] in Hs. apply andb_true_iff in Hs. destruct Hs as [Hx Hs].
  cbn [trimStart]. rewrite (digit_notSpace x Hx).
  assert (E1 : N.eqb x (ch "-") = false).
  { apply N.eqb_neq. intros ->. discriminate. }
  assert (E2 : N.eqb x (ch "+") = false).
  { apply N.eqb_neq. intros ->. discriminate. }
  rewrite E1, E2.
  match goal with
  | |- context [let '(radix, s3) := ?p in _] => destruct p as [radix s3]
  end.
  destruct (digitsValue radix s3 None); lia.
Qed.

Lemma totalPostsOf_from (l : list VacancyEntry) : forall sum,
  Forall (fun v => forallb isDigit (totalPost v) = true) l ->
  (0 <= sum)%Z ->
  (0 <= fold_left (fun sum v => (sum + parseIntOr0 (totalPost v))%Z) l sum)%Z.
Proof.
  induction l as [|v l IH]; intros sum Hl Hsum; cbn [fold_left]; [exact Hsum|].
  inversion Hl as [|? ? Hv Hrest]; subst. apply IH; [exact Hrest|].
  pose proof (parseIntOr0_digits _ Hv). lia.
Qed.

(** X6.  The total of the posts, computed from the vacancy list the parser
    itself extracts, is a natural number: it is never negative.  (Stated,
    as the sum itself, for values and running totals in the safe integer
    range.) *)
Theorem totalPosts_not_negative `{CaseMapping} (text : jsstring) :
  safeTotals 0 (extractVacancyDetails text) ->
  exists n : N, totalPostsOf (extractVacancyDetails text) = Z.of_N n.
Proof.
  intros _.
  assert (Hpos : (0 <= totalPostsOf (extractVacancyDetails text))%Z).
  { unfold totalPostsOf. apply totalPostsOf_from; [|lia].
    pose proof (extractVacancyDetails_shape text) as Hs.
    revert Hs. apply Forall_impl. intros v (_ & Hd & _). exact Hd. }
  exists (Z.to_N (totalPostsOf (extractVacancyDetails text))).
  now rewrite Z2N.id.
Qed.

Lemma totalPosts_not_negative_witness :
  exists n : N,
    totalPostsOf (extractVacancyDetails (js "Constable : 1,200 Posts")) = Z.of_N n.
Proof.
  apply (totalPosts_not_negative (js "Constable : 1,200 Posts")).
  vm_compute. repeat split.
Defined.

(** ** extractSelectionProcess *)

Lemma existsb_str_eqb_absent x (l : list jsstring) :
  ~ In x l -> existsb (str_eqb x) l = false.
Proof.
  intros Hx. destruct (existsb (str_eqb x) l) eqn:E; [|reflexivity].
  apply existsb_exists in E. destruct E as (y & Hy & E).
  apply str_eqb_eq in E. subst. contradiction.
Qed.

Lemma stages_as_spelled :
  Forall (fun stage => trim (replaceAll blanksRe (js " ") stage) = stage) stages.
Proof. repeat constructor. Qed.

Lemma stages_NoDup : NoDup stages.
Proof.
  unfold stages. cbn [map].
  repeat (constructor;
          [ let H := fresh in
            intros H; vm_compute in H;
            repeat (destruct H as [H|H]; [discriminate H|]); exact H |]).
  constructor.
Qed.

Lemma selection_fold (f : jsstring -> bool) (l : list jsstring) : forall process,
  Forall (fun stage => trim (replaceAll blanksRe (js " ") stage) = stage) l ->
  NoDup l -> (forall x, In x l -> ~ In x process) ->
  fold_left
    (fun process stage =>
       if f stage then
         let normalized := trim (replaceAll blanksRe (js " ") stage) in
         if existsb (str_eqb normalized) process then process
         else process ++ [normalized]
       else process)
    l process
  = process ++ filter f l.
Proof.
  induction l as [|a l IH]; intros process Hn Hd Hfresh; cbn [fold_left filter].
  - now rewrite app_nil_r.
  - inversion Hn as [|? ? Ha Hn']; subst. inversion Hd as [|? ? Hal Hd']; subst.
    destruct (f a).
    + cbv zeta. rewrite Ha.
      rewrite (existsb_str_eqb_absent a process) by (apply Hfresh; now left).
      rewrite IH; [now rewrite <- app_assoc|assumption|assumption|].
      intros x Hx Hin. apply in_app_or in Hin. destruct Hin as [Hin|[<-|[]]].
      * apply (Hfresh x); [now right | exact Hin].
      * contradiction.
    + apply IH; [assumption|assumption|].
      intros x Hx. apply Hfresh. now right.
Qed.

(** X1.  The selection process is the table of stage names filtered by
    occurrence, case ignored, in the searched text (the selection section,
    or the whole text when there is none): every name comes out as the table
    spells it, in the order of the table, and none twice. *)
Theorem extractSelectionProcess_stages `{CaseMapping} (text : jsstring) :
  let selSection :=
    extractSection text
      [js "Selection Process"; js "SELECTION PROCESS"; js "Mode of Selection"] in
  let searchText := sectionOr selSection text in
  extractSelectionProcess text =
    filter (fun stage => includes (toLowerCase searchText) (toLowerCase stage)) stages /\
  NoDup (extractSelectionProcess text).
Proof.
  intros selSection searchText.
  assert (E : extractSelectionProcess text =
              filter (fun stage => includes (toLowerCase searchText) (toLowerCase stage))
                     stages).
  { unfold extractSelectionProcess. fold selSection. fold searchText.
    rewrite (selection_fold
               (fun stage => includes (toLowerCase searchText) (toLowerCase stage))
               stages []).
    - reflexivity.
    - apply stages_as_spelled.
    - apply stages_NoDup.
    - intros x _ []. }
  split; [exact E|]. rewrite E. apply NoDup_filter, stages_NoDup.
Qed.

(** ** extractState *)

Lemma firstState_find text l :
  firstState text l =
  option_map (fun state => if str_eqb state (js "UP") then js "Uttar Pradesh"
                           else if str_eqb state (js "MP") then js "Madhya Pradesh"
                           else state)
             (find (includes text) l).
Proof.
  induction l as [|state l IH]; cbn [firstState find]; [reflexivity|].
  destruct (includes text state); [reflexivity | exact IH].
Qed.

Lemma states_written_in_full :
  Forall (fun state =>
            let full := if str_eqb state (js "UP") then js "Uttar Pradesh"
                        else if str_eqb state (js "MP") then js "Madhya Pradesh"
                        else state in
            existsb (str_eqb full) stateNames = true /\
            (str_eqb full (js "Uttar Pradesh") = true ->
             str_eqb state (js "Uttar Pradesh") || str_eqb state (js "UP") = true))
         states.
Proof.
  unfold states. cbn [map].
  repeat (apply Forall_cons;
          [ split; [ vm_compute; reflexivity
                   | vm_compute; intros E; first [discriminate E | reflexivity] ] | ]).
  apply Forall_nil.
Qed.

Lemma In_by_str_eqb x (l : list jsstring) : existsb (str_eqb x) l = true -> In x l.
Proof.
  intros Hin. apply existsb_exists in Hin. destruct Hin as (y & Hy & Ey).
  apply str_eqb_eq in Ey. now rewrite Ey.
Qed.

(** X2.  The state is the empty string, "All India" or a name of the table
    written in full, never one of the two abbreviations; and it is
    "Uttar Pradesh" exactly when the text holds, in this very spelling,
    "Uttar Pradesh" or the two capitals "UP" anywhere, be it inside a longer
    word. *)
Theorem extractState_names `{CaseMapping} (text : jsstring) :
  In (extractState text) stateNames /\
  (extractState text = js "Uttar Pradesh" <->
   includes text (js "Uttar Pradesh") = true \/ includes text (js "UP") = true).
Proof.
  unfold extractState. rewrite firstState_find.
  pose proof states_written_in_full as Hall.
  rewrite Forall_forall in Hall. split.
  - destruct (find (includes text) states) as [state|] eqn:E; cbn [option_map].
    + apply find_some in E. destruct (Hall state (proj1 E)) as [Hin _].
      now apply In_by_str_eqb.
    + destruct (_ || _)%bool; apply In_by_str_eqb; vm_compute; reflexivity.
  - split.
    + destruct (find (includes text) states) as [state|] eqn:E; cbn [option_map].
      * apply find_some in E. destruct E as [Hin Hinc]. intros Hfull.
        destruct (Hall state Hin) as [_ Hup].
        rewrite Hfull in Hup. specialize (Hup (str_eqb_refl _)).
        apply orb_true_iff in Hup. destruct Hup as [Hup|Hup];
          apply str_eqb_eq in Hup; subst state; auto.
      * destruct (_ || _)%bool; intros E'; discriminate E'.
    + intros Hor. unfold states. cbn [map find].
      destruct (includes text (js "Uttar Pradesh")) eqn:E1; [reflexivity|].
      destruct Hor as [Hor|Hor]; [discriminate|]. rewrite Hor. reflexivity.
Qed.

(** ** What a replacement keeps *)

Lemma existsb_occursIn (q : charset) g s :
  occursIn g s -> existsb q g = true -> existsb q s = true.
Proof.
  intros (pre & post & ->) Hg. rewrite !existsb_app, Hg.
  now rewrite orb_true_r.
Qed.

(** A text in which a pattern matches holds a unit of every class the
    pattern cannot do without. *)
Lemma exec_needs q r s m :
  needs q r -> exec r s = Some m -> existsb q s = true.
Proof.
  intros Hn E. apply exec_sound in E. destruct E as (Hd & pre & post & Hs & _).
  apply (existsb_occursIn q (matched m)); [exists pre, post; exact Hs|].
  apply (needs_den _ _ _ _ _ Hn Hd).
Qed.

Lemma firstn_pre {A : Type} (a b : list A) : firstn (length a) (a ++ b) = a.
Proof. induction a as [|x a IH]; simpl; [now destruct b | now rewrite IH]. Qed.

Lemma skipn_pre {A : Type} (a b : list A) : skipn (length a) (a ++ b) = b.
Proof. induction a as [|x a IH]; simpl; [reflexivity | exact IH]. Qed.

(** Replacing the matches of a pattern keeps the units the pattern cannot
    match. *)
Lemma replaceAllFuel_keeps q r by_ x :
  within q r -> q x = false ->
  forall fuel s, In x s -> In x (replaceAllFuel fuel r by_ s).
Proof.
  intros Hw Hx. induction fuel as [|fuel IH]; intros s Hin; cbn [replaceAllFuel];
    [exact Hin|].
  destruct (exec r s) as [m|] eqn:E; [|exact Hin].
  apply exec_sound in E. destruct E as (Hd & pre & post & Hs & Hi).
  apply (within_den _ _ _ _ _ Hw) in Hd.
  assert (Hm : ~ In x (matched m)).
  { intros Hxm. rewrite forallb_forall in Hd. specialize (Hd x Hxm). congruence. }
  assert (Hpre : firstn (index m) s = pre).
  { rewrite Hs, Hi. apply firstn_pre. }
  assert (Hpost : skipn (index m + length (matched m)) s = post).
  { rewrite Hs, Hi, app_assoc, <- length_app. apply skipn_pre. }
  rewrite Hpre. apply in_or_app.
  rewrite Hs in Hin. apply in_app_or in Hin. destruct Hin as [Hin|Hin]; [now left|].
  right. apply in_or_app. right.
  apply in_app_or in Hin. destruct Hin as [Hin|Hin]; [contradiction|].
  destruct (matched m) as [|y w] eqn:Em.
  - assert (Hsk : skipn (index m) s = post).
    { rewrite Hs, Hi. simpl. apply skipn_pre. }
    rewrite Hsk. destruct post as [|z post]; [exact Hin|].
    destruct Hin as [->|Hin]; [now left | right; now apply IH].
  - rewrite Hpost. now apply IH.
Qed.

Lemma replaceAll_keeps q r by_ x s :
  within q r -> q x = false -> In x s -> In x (replaceAll r by_ s).
Proof. intros Hw Hx. now apply replaceAllFuel_keeps with (q := q). Qed.

Ltac alpha_leaf :=
  let x := fresh "x" in let Hx := fresh "Hx" in
  intros x Hx; cbn [xorb] in Hx;
  eapply letter_anyCase_alpha; [|exact Hx]; reflexivity.

(** Finds a unit a concrete pattern cannot do without, trying the parts of
    a sequence from the left. *)
Ltac needs_with leaf :=
  expose; repeat (split || left); first [lia | discriminate | leaf].

(** ** extractTitle *)

Lemma alpha_trim_nonempty s : existsb isAlpha s = true -> trim s <> [].
Proof.
  intros Hs. apply trim_nonempty. apply existsb_exists in Hs.
  destruct Hs as (x & Hin & Hx). apply existsb_exists. exists x.
  split; [exact Hin | now apply alpha_notSpace].
Qed.

Lemma titleLineRe_letter : needs isAlpha titleLineRe.
Proof. needs_with alpha_leaf. Qed.

Lemma titleRe_letter : needs isAlpha titleRe.
Proof. needs_with alpha_leaf. Qed.

Lemma alpha_cases x :
  isAlpha x = true -> (65 <= x <= 90 \/ 97 <= x <= 122)%N.
Proof.
  unfold isAlpha, isUpper, isLower, between.
  rewrite orb_true_iff, !andb_true_iff, !N.leb_le. tauto.
Qed.

Lemma emphasis_not_letter x : isAlpha x = true -> oneOf "*#_" x = false.
Proof.
  intros Ha. apply alpha_cases in Ha.
  unfold oneOf. change (js "*#_") with [42%N; 35%N; 95%N]. cbn [existsb].
  rewrite !orb_false_iff, !N.eqb_neq. lia.
Qed.

Lemma titleLine_nonempty lines t : titleLine lines = Some t -> t <> [].
Proof.
  induction lines as [|line rest IH]; cbn [titleLine]; [discriminate|].
  destruct (exec titleLineRe line) as [m|] eqn:E; [|exact IH].
  destruct (Nat.ltb (length line) 150); [|exact IH].
  intros Ht. injection Ht as <-.
  apply (exec_needs _ _ _ _ titleLineRe_letter) in E.
  apply existsb_exists in E. destruct E as (x & Hin & Hx).
  apply alpha_trim_nonempty. apply existsb_exists. exists x. split; [|exact Hx].
  apply (replaceAll_keeps (oneOf "*#_")).
  - unfold emphasisRe, plus, cls. cbn [within]. intros y Hy. exact Hy.
  - now apply emphasis_not_letter.
  - apply trim_keeps; [exact Hin|].
    apply alpha_notSpace in Hx. unfold notSpace in Hx. now apply negb_true_iff in Hx.
Qed.

Lemma extractTitle_filled (text : jsstring) : extractTitle text <> [].
Proof.
  unfold extractTitle.
  destruct (titleLine (firstn 10 (nonBlankLines text))) as [t|] eqn:Et.
  - apply (titleLine_nonempty _ _ Et).
  - destruct (exec titleRe text) as [m|] eqn:Em.
    + apply alpha_trim_nonempty.
      apply exec_sound in Em. destruct Em as (Hd & _).
      apply (needs_den _ _ _ _ _ titleRe_letter Hd).
    + destruct (nonBlankLines text) as [|first rest]; [discriminate|].
      unfold orElse. destruct (slice first 0 100) as [|x s]; discriminate.
Qed.

(** X3.  The title is never the empty string: it holds one unit at least. *)
Theorem extractTitle_nonempty (text : jsstring) : 1 <= length (extractTitle text).
Proof.
  pose proof (extractTitle_filled text) as Hne.
  destruct (extractTitle text); [contradiction | simpl; lia].
Qed.

(** ** extractLinks *)

Lemma matchAll_den r s u :
  In u (matchAll r s) -> (exists c, den r u nocaps c) /\ occursIn u s.
Proof.
  intros Hu. split; [|apply (matchAll_sound _ _ _ Hu)].
  apply matchAllFuel_sound in Hu. destruct Hu as (m & s1 & E & -> & _).
  apply exec_sound in E. destruct E as (Hd & _). now exists (group m).
Qed.

Lemma alpha_urlUnit x : isAlpha x = true -> urlUnit x = true.
Proof.
  intros Ha. unfold urlUnit, orset. apply negb_true_iff.
  pose proof (alpha_notSpace x Ha) as Hs. unfold notSpace in Hs.
  apply negb_true_iff in Hs. rewrite Hs. apply alpha_cases in Ha.
  unfold oneOf, quote. change (js "<>')]") with [60%N; 62%N; 39%N; 41%N; 93%N].
  cbn [existsb]. rewrite !orb_false_iff, !N.eqb_neq. lia.
Qed.

Lemma mark_anyCase c x :
  isAlpha c = false -> fold_case (N.eqb c) x = true -> x = c.
Proof.
  intros Hc Hx. apply fold_case_noLetter in Hx.
  - apply N.eqb_eq in Hx. now subst.
  - intros y Hy. apply N.eqb_eq in Hy. now subst.
Qed.

Ltac url_leaf :=
  let x := fresh "x" in let Hx := fresh "Hx" in
  intros x Hx; cbn [xorb] in Hx;
  first [ apply alpha_urlUnit; eapply letter_anyCase_alpha; [|exact Hx]; reflexivity
        | apply mark_anyCase in Hx; [subst x; reflexivity | reflexivity]
        | apply negb_true_iff, fold_case_false in Hx;
          unfold urlUnit; rewrite Hx; reflexivity ].

Lemma urlRegex_units : within urlUnit urlRegex.
Proof. expose; repeat split; url_leaf. Qed.

Lemma urlRegex_prefix u c c' :
  den urlRegex u c c' -> map lowerBasic (firstn 4 u) = js "http".
Proof.
  intros H.
  change urlRegex with
    (Seq (literalAnyCase (js "http"))
         (ignoreCase (seq [opt (lit "s"); lit "://";
            plus (ncls (orset isSpace (orset (oneOf "<>')]") (N.eqb quote))))]))) in H.
  cbn [den] in H. destruct H as (w1 & w2 & c1 & -> & H1 & _).
  apply (den_literalAnyCase (js "http") eq_refl) in H1. destruct H1 as [E _].
  assert (Hl : length w1 = 4) by (rewrite <- (length_map lowerBasic), E; reflexivity).
  rewrite <- Hl, firstn_pre. exact E.
Qed.

(** X7.  A link the parser returns occurs verbatim in the text; it is at
    least eight units long, starts with "http" in either case, and holds no
    white space, angle bracket, quote, closing parenthesis or closing
    square bracket. *)
Theorem extractLinks_verbatim `{CaseMapping} (text : jsstring) (b : Bucket)
    (u : jsstring) :
  linkOf b (extractLinks text) = Some u ->
  occursIn u text /\ 8 <= length u /\
  map lowerBasic (firstn 4 u) = js "http" /\
  forallb urlUnit u = true.
Proof.
  rewrite extractLinks_find. intros Hf. apply find_some in Hf. destruct Hf as [Hin _].
  pose proof (matchAll_sound _ _ _ Hin) as [Hlen _].
  destruct (matchAll_den _ _ _ Hin) as [(c & Hd) Ho].
  split; [exact Ho|]. split; [exact Hlen|]. split.
  - apply (urlRegex_prefix _ _ _ Hd).
  - apply (within_den _ _ _ _ _ urlRegex_units Hd).
Qed.

Lemma extractLinks_verbatim_witness :
  occursIn (js "https://ssc.nic.in/apply-online") twoLinks /\
  8 <= length (js "https://ssc.nic.in/apply-online") /\
  map lowerBasic (firstn 4 (js "https://ssc.nic.in/apply-online")) = js "http" /\
  forallb urlUnit (js "https://ssc.nic.in/apply-online") = true.
Proof.
  apply (extractLinks_verbatim twoLinks ApplyOnline). vm_compute. reflexivity.
Defined.

(** ** extractDates *)

Lemma trimStart_idem s : trimStart (trimStart s) = trimStart s.
Proof.
  induction s as [|x s IH]; [reflexivity|]. cbn [trimStart].
  destruct (isSpace x) eqn:E; [exact IH|]. cbn [trimStart]. now rewrite E.
Qed.

Lemma trim_idem s : trim (trim s) = trim s.
Proof.
  assert (E : trimStart (trim s) = trim s).
  { destruct (trim s) as [|x t] eqn:Et; [reflexivity|].
    apply trim_head in Et. cbn [trimStart]. now rewrite Et. }
  unfold trim at 1. rewrite E. unfold trim, trimEnd.
  now rewrite rev_involutive, trimStart_idem.
Qed.

(** Proves that the strings of a concrete list are pairwise different. *)
Ltac distinct_strings :=
  repeat (constructor;
          [ let H := fresh in
            intros H; vm_compute in H;
            repeat (destruct H as [H|H]; [discriminate H|]); exact H |]);
  constructor.

Lemma dateLabels_distinct `{CaseMapping} :
  NoDup (map (fun p : regex * jsstring => toLowerCase (snd p)) datePatterns).
Proof.
  unfold datePatterns. cbn [map snd].
  rewrite !toLowerCase_basic by reflexivity.
  distinct_strings.
Qed.

Lemma datesFromPatterns_distinct `{CaseMapping} searchText :
  NoDup (map (fun d => toLowerCase (label d)) (datesFromPatterns searchText)).
Proof.
  unfold datesFromPatterns.
  assert (G : forall l dates,
            NoDup (map (fun d => toLowerCase (label d)) dates ++
                   map (fun p : regex * jsstring => toLowerCase (snd p)) l) ->
            NoDup (map (fun d => toLowerCase (label d))
              (fold_left
                 (fun dates pattern =>
                    match captured (exec (fst pattern) searchText) 1 with
                    | Some d => dates ++ [{| label := snd pattern; date := trim d |}]
                    | None => dates
                    end) l dates))).
  { induction l as [|p l IH]; intros dates Hd; cbn [fold_left map] in *.
    - now rewrite app_nil_r in Hd.
    - apply IH. destruct (captured _ 1) as [d|].
      + rewrite map_app, <- app_assoc. exact Hd.
      + apply NoDup_remove_1 in Hd. exact Hd. }
  apply G. apply dateLabels_distinct.
Qed.

Lemma label_absent `{CaseMapping} dates lab :
  existsb (fun d => str_eqb (toLowerCase (label d)) lab) dates = false ->
  ~ In lab (map (fun d => toLowerCase (label d)) dates).
Proof.
  induction dates as [|d dates IH]; cbn [existsb map In]; [tauto|].
  rewrite orb_false_iff. intros [Hd Hr] [E|Hi].
  - rewrite E, str_eqb_refl in Hd. discriminate.
  - now apply IH.
Qed.

Lemma datesFromLines_distinct `{CaseMapping} lines : forall dates,
  NoDup (map (fun d => toLowerCase (label d)) dates) ->
  NoDup (map (fun d => toLowerCase (label d)) (datesFromLines lines dates)).
Proof.
  unfold datesFromLines.
  induction lines as [|line lines IH]; intros dates Hd; cbn [fold_left]; [exact Hd|].
  apply IH. destruct (execAnchored colonLineRe line) as [m|]; [|exact Hd].
  destruct (existsb _ dates) eqn:Ex; [exact Hd|].
  destruct (_ && _)%bool; [|exact Hd].
  rewrite map_app. apply NoDup_snoc; [exact Hd|].
  apply (label_absent _ _ Ex).
Qed.

(** X8.  No two entries of the date list have the same label, case
    ignored. *)
Theorem extractDates_labels_distinct `{CaseMapping} (text : jsstring) :
  NoDup (map (fun d => toLowerCase (label d)) (extractDates text)).
Proof.
  unfold extractDates. apply datesFromLines_distinct, datesFromPatterns_distinct.
Qed.

Lemma splitLines_head s :
  exists l ls post, splitLines s = l :: ls /\ s = l ++ post.
Proof.
  induction s as [|c s (l & ls & post & E & Hs)]; cbn [splitLines].
  - exists [], [], []. auto.
  - destruct (N.eqb c nl).
    + exists [], (splitLines s), (c :: s). auto.
    + rewrite E. exists (c :: l), ls, post. split; [reflexivity|].
      simpl. now rewrite <- Hs.
Qed.

(** Every line of a text is a piece of it. *)
Lemma splitLines_occurs s : forall l, In l (splitLines s) -> occursIn l s.
Proof.
  induction s as [|c s IH]; intros l Hl; cbn [splitLines] in Hl.
  - destruct Hl as [<-|[]]. apply occursIn_refl.
  - assert (Htail : forall l', occursIn l' s -> occursIn l' (c :: s)).
    { intros l' (pre & post & ->). exists (c :: pre), post. reflexivity. }
    destruct (N.eqb c nl).
    + destruct Hl as [<-|Hl]; [exists [], (c :: s); reflexivity|].
      apply Htail, IH, Hl.
    + destruct (splitLines_head s) as (l0 & ls & post & E & Hs).
      rewrite E in Hl, IH. destruct Hl as [<-|Hl].
      * exists [], post. simpl. now rewrite <- Hs.
      * apply Htail, IH. now right.
Qed.

Lemma dateUnit_range y :
  orset isDigit (oneOf "/-") y = true -> (45 <= y <= 57)%N.
Proof.
  unfold orset, oneOf, isDigit, between. change (js "/-") with [47%N; 45%N].
  cbn [existsb]. rewrite !orb_true_iff, andb_true_iff, !N.leb_le, !N.eqb_eq. lia.
Qed.

Lemma digit_range y : isDigit y = true -> (48 <= y <= 57)%N.
Proof. unfold isDigit, between. rewrite andb_true_iff, !N.leb_le. lia. Qed.

Lemma below_letters y : (y <= 64)%N -> isAlpha y = false.
Proof.
  intros Hy. destruct (isAlpha y) eqn:E; [|reflexivity].
  apply alpha_cases in E. lia.
Qed.

Lemma dateUnit_notSpace x :
  orset isDigit (oneOf "/-") x = true -> notSpace x = true.
Proof. intros Hx. apply dateUnit_range in Hx. apply range_notSpace. lia. Qed.

Lemma digit_is_notSpace x : isDigit x = true -> notSpace x = true.
Proof. intros Hx. apply digit_range in Hx. apply range_notSpace. lia. Qed.

Lemma dateUnit_anyCase x :
  fold_case (orset isDigit (oneOf "/-")) x = true -> notSpace x = true.
Proof.
  intros Hx. apply dateUnit_notSpace. revert Hx. apply fold_case_noLetter.
  intros y Hy. apply dateUnit_range in Hy. apply below_letters. lia.
Qed.

Ltac space_leaf :=
  let x := fresh "x" in let Hx := fresh "Hx" in
  intros x Hx; cbn [xorb] in Hx;
  first [ apply alpha_notSpace; eapply letter_anyCase_alpha; [|exact Hx]; reflexivity
        | apply dateUnit_anyCase; exact Hx
        | apply dateUnit_notSpace; exact Hx
        | rewrite fold_case_digit in Hx; apply digit_is_notSpace; exact Hx
        | apply digit_is_notSpace; exact Hx ].

Lemma datePatterns_dates :
  Forall (fun p : regex * jsstring =>
            exists body, assigns (fst p) 1 = Some body /\ needs notSpace body)
         datePatterns.
Proof.
  unfold datePatterns.
  repeat (apply Forall_cons;
          [ eexists; split; [reflexivity | needs_with space_leaf] |]).
  apply Forall_nil.
Qed.

Lemma colonLine_date : needs notSpace (alts [dateNumeric; dateWords]).
Proof. needs_with space_leaf. Qed.

Lemma trimmed_piece text searchText d :
  occursIn searchText text -> occursIn d searchText -> existsb notSpace d = true ->
  trim d <> [] /\ trim (trim d) = trim d /\ occursIn (trim d) text.
Proof.
  intros Ht Hd Hn. split; [now apply trim_nonempty|]. split; [apply trim_idem|].
  apply (occursIn_trans _ searchText); [|exact Ht].
  apply (occursIn_trans _ d); [apply occursIn_trim | exact Hd].
Qed.

Lemma datesFromPatterns_from text searchText :
  occursIn searchText text ->
  Forall (dateEntryFrom text) (datesFromPatterns searchText).
Proof.
  intros Ht. unfold datesFromPatterns.
  assert (G : forall l dates,
            Forall (fun p : regex * jsstring =>
                      In (snd p) (map snd datePatterns) /\
                      exists body, assigns (fst p) 1 = Some body /\
                                   needs notSpace body) l ->
            Forall (dateEntryFrom text) dates ->
            Forall (dateEntryFrom text)
              (fold_left
                 (fun dates pattern =>
                    match captured (exec (fst pattern) searchText) 1 with
                    | Some d => dates ++ [{| label := snd pattern; date := trim d |}]
                    | None => dates
                    end) l dates)).
  { induction l as [|p l IH]; intros dates Hl Hd; cbn [fold_left]; [exact Hd|].
    inversion Hl as [|? ? (Hin & body & Ha & Hn) Hrest]; subst.
    apply IH; [exact Hrest|].
    destruct (captured _ 1) as [d|] eqn:E; [|exact Hd].
    apply Forall_app. split; [exact Hd|]. constructor; [|constructor].
    destruct (captured_den _ _ _ _ _ Ha E) as ((c0 & c1 & Hden) & _ & Ho).
    apply (needs_den _ _ _ _ _ Hn) in Hden.
    destruct (trimmed_piece text searchText d Ht Ho Hden) as (H1 & H2 & H3).
    unfold dateEntryFrom. cbn [label date]. auto. }
  apply G; [|constructor].
  pose proof datePatterns_dates as Hd. rewrite Forall_forall in *.
  intros p Hp. split; [now apply in_map | apply Hd, Hp].
Qed.

Lemma datesFromLines_from `{CaseMapping} text searchText lines : forall dates,
  occursIn searchText text ->
  Forall (fun line => occursIn line searchText) lines ->
  Forall (dateEntryFrom text) dates ->
  Forall (dateEntryFrom text) (datesFromLines lines dates).
Proof.
  unfold datesFromLines.
  induction lines as [|line lines IH]; intros dates Ht Hl Hd; cbn [fold_left];
    [exact Hd|].
  inversion Hl as [|? ? Hline Hrest]; subst. apply IH; [exact Ht | exact Hrest |].
  destruct (execAnchored colonLineRe line) as [m|] eqn:E; [|exact Hd].
  destruct (existsb _ dates); [exact Hd|].
  destruct (Nat.ltb 3 _ && Nat.ltb _ 50)%bool eqn:El; [|exact Hd].
  apply andb_true_iff in El. destruct El as [E3 E50].
  apply Nat.ltb_lt in E3, E50.
  apply Forall_app. split; [exact Hd|]. constructor; [|constructor].
  destruct (cap_den colonLineRe 1 _ line m eq_refl (or_intror E))
    as ((c0 & c1 & Hd1) & Ho1).
  destruct (cap_den colonLineRe 2 _ line m eq_refl (or_intror E))
    as ((c2 & c3 & Hd2) & Ho2).
  apply (needs_den _ _ _ _ _ colonLine_date) in Hd2.
  destruct (trimmed_piece text searchText (cap m 2) Ht
              (occursIn_trans _ _ _ Ho2 Hline) Hd2) as (H1 & H2 & H3).
  unfold dateEntryFrom. cbn [label date]. repeat split; auto.
  right. split; [lia|]. split.
  - apply trim_within. apply den_rep_cls in Hd1. apply Hd1.
  - apply (occursIn_trans _ searchText); [|exact Ht].
    apply (occursIn_trans _ line); [|exact Hline].
    apply (occursIn_trans _ (cap m 1)); [apply occursIn_trim | exact Ho1].
Qed.

(** X9.  Every entry of the date list carries a date that is a non-empty
    piece of the text, free of blanks at both ends; its label is one of the
    seven of the pattern table, or else a piece of a line of the text, 4 to
    49 units long, that holds no colon. *)
Theorem extractDates_entries `{CaseMapping} (text : jsstring) :
  Forall (dateEntryFrom text) (extractDates text).
Proof.
  unfold extractDates.
  match goal with |- context [sectionOr ?s text] =>
    pose proof (searchText_occurs text
                  [js "Important Dates"; js "IMPORTANT DATES"; js "Important Date"])
      as Ht;
    set (searchText := sectionOr s text) in * end.
  apply (datesFromLines_from text searchText); [exact Ht| |].
  - apply Forall_forall. apply splitLines_occurs.
  - now apply datesFromPatterns_from.
Qed.

(** ** extractSection, whatever the headers *)

Lemma sectionAt_length text header idx : length (sectionAt text header idx) <= 1500.
Proof.
  unfold sectionAt. etransitivity; [apply trim_length|].
  unfold slice. rewrite length_firstn. lia.
Qed.

(** X10.  Whatever the headers, the section returned is a piece of the text
    without blanks at its ends, at most 1500 units long; it is the empty
    string when no header occurs in the text, case ignored. *)
Theorem extractSection_piece `{CaseMapping} (text : jsstring)
    (headers : list jsstring) :
  occursIn (extractSection text headers) text /\
  trim (extractSection text headers) = extractSection text headers /\
  length (extractSection text headers) <= 1500 /\
  (Forall (fun h => includes (toLowerCase text) (toLowerCase h) = false) headers ->
   extractSection text headers = []).
Proof.
  unfold extractSection. split; [apply sectionLoop_occurs|]. split; [|split].
  - induction headers as [|h hs IH]; cbn [sectionLoop]; [reflexivity|].
    destruct (indexOf _ (toLowerCase h)); [apply trim_idem | exact IH].
  - induction headers as [|h hs IH]; cbn [sectionLoop]; [simpl; lia|].
    destruct (indexOf _ (toLowerCase h)); [apply sectionAt_length | exact IH].
  - intros Hall. apply sectionLoop_none. revert Hall. apply Forall_impl.
    intros h. apply includes_false_indexOf.
Qed.

Lemma extractSection_piece_witness :
  extractSection clerkNotice ageHeaders = [].
Proof.
  apply (extractSection_piece clerkNotice ageHeaders).
  repeat constructor.
Defined.

(** ** extractAgeLimit, entry by entry *)

Lemma cap_digits r i text m :
  assigns r i = Some (ignoreCase (plus dg)) -> exec r text = Some m ->
  digits (cap m i).
Proof.
  intros Ha E.
  destruct (cap_den r i _ text m Ha (or_introl E)) as ((c0 & c1 & Hd) & _).
  apply (den_digits _ _ _ Hd).
Qed.

Lemma general_category : In (js "General") (map snd categoryPatterns).
Proof. now left. Qed.

Lemma seedAges_shape searchText :
  Forall ageShape (seedAges searchText) /\
  NoDup (map ageCategory (seedAges searchText)).
Proof.
  unfold seedAges.
  destruct (exec singleAgeRe searchText) as [m|] eqn:E1;
    destruct (exec rangeRe searchText) as [m'|] eqn:E2; cbn [length Nat.eqb app map].
  - split; [|repeat constructor; intros []].
    constructor; [|constructor]. split; [apply general_category|].
    split; eapply cap_digits; try exact E1; reflexivity.
  - split; [|repeat constructor; intros []].
    constructor; [|constructor]. split; [apply general_category|].
    split; eapply cap_digits; try exact E1; reflexivity.
  - split; [|repeat constructor; intros []].
    constructor; [|constructor]. split; [apply general_category|].
    split; eapply cap_digits; try exact E2; reflexivity.
  - split; constructor.
Qed.

Lemma ageStep_shape searchText ages pattern :
  In pattern categoryPatterns ->
  Forall ageShape ages /\ NoDup (map ageCategory ages) ->
  Forall ageShape (ageStep searchText ages pattern) /\
  NoDup (map ageCategory (ageStep searchText ages pattern)).
Proof.
  intros Hin [Hs Hn]. unfold ageStep.
  destruct (exec (fst pattern) searchText) as [m|] eqn:E; [|now split].
  destruct (existsb _ ages) eqn:Ex; [now split|].
  assert (Hd : digits (groupOr m 1 (js "18")) /\
               digits (groupOr m 2 (groupOr m 3 (js "35")))).
  { pose proof categoryPatterns_shape as Hshape.
    rewrite Forall_forall in Hshape. specialize (Hshape _ Hin).
    unfold groupOr, orElse.
    destruct (rangeOrMax_match _ searchText m Hshape E)
      as [(lo & hi & H1 & H2 & _ & Hlo & Hhi & _)|(mx & H1 & H2 & H3 & Hmx & _)].
    - rewrite H1, H2, (digits_truthy lo Hlo), (digits_truthy hi Hhi). now split.
    - rewrite H1, H2, H3, (digits_truthy mx Hmx). split; [|exact Hmx].
      split; [discriminate | reflexivity]. }
  split.
  - apply Forall_app. split; [exact Hs|]. constructor; [|constructor].
    split; [apply (in_map snd _ _ Hin) | exact Hd].
  - rewrite map_app. apply NoDup_snoc; [exact Hn|]. cbn [map ageCategory].
    clear - Ex. induction ages as [|a ages IH]; cbn [existsb map In] in *; [tauto|].
    apply orb_false_iff in Ex. destruct Ex as [Ea Er]. intros [Heq|Hi].
    + rewrite Heq, str_eqb_refl in Ea. discriminate.
    + now apply IH.
Qed.

Lemma agesIn_shape searchText :
  Forall ageShape (agesIn searchText) /\
  NoDup (map ageCategory (agesIn searchText)).
Proof.
  unfold agesIn.
  assert (G : forall l ages, incl l categoryPatterns ->
            Forall ageShape ages /\ NoDup (map ageCategory ages) ->
            Forall ageShape (fold_left (ageStep searchText) l ages) /\
            NoDup (map ageCategory (fold_left (ageStep searchText) l ages))).
  { induction l as [|p l IH]; intros ages Hl Ha; cbn [fold_left]; [exact Ha|].
    apply IH; [intros q Hq; apply Hl; now right|].
    apply ageStep_shape; [apply Hl; now left | exact Ha]. }
  apply G; [apply incl_refl | apply seedAges_shape].
Qed.

(** X11.  Every entry of the age list belongs to one of the four
    categories and carries a minimum and a maximum written in digits; no
    category comes twice, so the list has four entries at most. *)
Theorem extractAgeLimit_entries `{CaseMapping} (text : jsstring) :
  Forall ageShape (extractAgeLimit text) /\
  NoDup (map ageCategory (extractAgeLimit text)) /\
  length (extractAgeLimit text) <= 4.
Proof.
  unfold extractAgeLimit.
  destruct (agesIn_shape (sectionOr (extractSection text ageHeaders) text)) as [Hs Hn].
  split; [exact Hs|]. split; [exact Hn|].
  rewrite <- (length_map ageCategory).
  change 4 with (length (map snd categoryPatterns)).
  apply NoDup_incl_length; [exact Hn|].
  intros c Hc. apply in_map_iff in Hc. destruct Hc as (a & <- & Ha).
  rewrite Forall_forall in Hs. apply (Hs a Ha).
Qed.

(** ** extractQualification *)

(** X12.  The qualification is at most 500 units long. *)
Theorem extractQualification_length `{CaseMapping} (text : jsstring) :
  length (extractQualification text) <= 500.
Proof.
  unfold extractQualification.
  destruct (truthy _ && Nat.ltb 20 _)%bool.
  - unfold slice. rewrite length_firstn. lia.
  - unfold qualKeywords, qualPatterns. cbn [fold_left fst snd].
    repeat match goal with
           | |- context [exec ?r text] => destruct (exec r text)
           end;
      vm_compute; lia.
Qed.

(** ** The short information of the record *)

Lemma trimStart_solid s x u :
  isSpace x = false -> trimStart (s ++ x :: u) = trimStart s ++ x :: u.
Proof.
  intros Hx. induction s as [|y s IH]; cbn [app trimStart].
  - now rewrite Hx.
  - destruct (isSpace y); [exact IH | reflexivity].
Qed.

Lemma trimStart_blanks b r :
  forallb isSpace b = true -> trimStart (b ++ r) = trimStart r.
Proof.
  induction b as [|y b IH]; cbn [app forallb trimStart]; [reflexivity|].
  rewrite andb_true_iff. intros [Hy Hb]. rewrite Hy. now apply IH.
Qed.

(** Trimming keeps a piece that starts and ends with units other than
    blanks, whatever blanks follow it. *)
Lemma trim_solid s x u v y b :
  isSpace x = false -> x :: u = v ++ [y] -> isSpace y = false ->
  forallb isSpace b = true ->
  trim (s ++ (x :: u) ++ b) = trimStart s ++ x :: u.
Proof.
  intros Hx Ev Hy Hb. unfold trim, trimEnd.
  rewrite <- app_comm_cons, trimStart_solid by exact Hx.
  rewrite app_comm_cons, Ev, app_assoc, !rev_app_distr.
  rewrite trimStart_blanks by (rewrite forallb_forall in *; intros z Hz;
                               apply Hb; now apply in_rev).
  cbn [rev app trimStart]. rewrite Hy.
  change (y :: rev v ++ rev (trimStart s)) with ((y :: rev v) ++ rev (trimStart s)).
  rewrite rev_app_distr, rev_involutive. cbn [rev]. now rewrite rev_involutive.
Qed.

Lemma firstDepartment_head text patterns x u :
  firstDepartment text patterns = x :: u -> isSpace x = false.
Proof.
  induction patterns as [|r l IH]; cbn [firstDepartment].
  - intros E. injection E as <- _. reflexivity.
  - destruct (captured (exec r text) 1) as [m1|]; [|exact IH].
    unfold slice. cbn [skipn]. destruct (trim m1) as [|z t] eqn:Et; [discriminate|].
    rewrite Nat.sub_0_r. cbn [firstn]. intros E. injection E as <- _.
    apply (trim_head _ _ _ Et).
Qed.

(** Equality of two ways of writing the same pieces one after another. *)
Ltac same_pieces :=
  repeat first [rewrite <- app_assoc | progress cbn [app js map list_ascii_of_string]];
  rewrite ?app_nil_r; reflexivity.

(** X13.  For totals in the safe integer range, the short information is:
    the department and a blank (nothing when the department is empty), the
    words "has released notification for", the title and a full stop; then,
    after a blank, the sentence on the total when the total is positive;
    then, when the date list has an entry whose label holds "Last" with a
    date, a blank and the sentence on the last date.  Trimming removes
    nothing else than the blanks the template leaves at the two ends. *)
Theorem shortInfo_sentence `{CaseMapping} (text : jsstring) :
  safeTotals 0 (extractVacancyDetails text) ->
  let p := parseJobNotification text in
  let total := totalPostsOf (vacancyDetails p) in
  let totalPart :=
    if Z.ltb 0 total
    then js "Total " ++ decimal total ++ js " posts available."
    else [] in
  shortInfo p =
    (if truthy (department p) then department p ++ js " " else [])
    ++ js "has released notification for " ++ title p ++ js "."
    ++ match lastDateOf (importantDates p) with
       | Some d => js " " ++ totalPart ++ js " Last date to apply: " ++ d ++ js "."
       | None => if Z.ltb 0 total then js " " ++ totalPart else []
       end.
Proof.
  intros _. cbv zeta.
  cbn [shortInfo department title vacancyDetails importantDates parseJobNotification].
  unfold shortInfoOf.
  set (dept := extractDepartment text). set (ttl := extractTitle text).
  set (total := totalPostsOf (extractVacancyDetails text)).
  assert (Hpre : trimStart (dept ++ js " ") =
                 if truthy dept then dept ++ js " " else []).
  { destruct dept as [|x u] eqn:Ed; [reflexivity|].
    apply firstDepartment_head in Ed. cbn [app trimStart truthy]. now rewrite Ed. }
  clearbody dept ttl total.
  destruct (lastDateOf (extractDates text)) as [d|].
  - set (B := if Z.ltb 0 total then _ else []). clearbody B.
    transitivity (trim ((dept ++ js " ")
                        ++ (104%N :: js "as released notification for " ++ ttl ++ js "."
                                     ++ js " " ++ B ++ js " Last date to apply: "
                                     ++ d ++ js ".")
                        ++ [])).
    + f_equal; same_pieces.
    + rewrite (trim_solid _ _ _
                 (js "has released notification for " ++ ttl ++ js "." ++ js " "
                  ++ B ++ js " Last date to apply: " ++ d)
                 46%N);
        [ | reflexivity | same_pieces | reflexivity | reflexivity ].
      rewrite Hpre. f_equal; same_pieces.
  - destruct (Z.ltb 0 total).
    + transitivity (trim ((dept ++ js " ")
                          ++ (104%N :: js "as released notification for " ++ ttl ++ js "."
                                       ++ js " Total " ++ decimal total
                                       ++ js " posts available.")
                          ++ js " ")).
      * f_equal; same_pieces.
      * rewrite (trim_solid _ _ _
                   (js "has released notification for " ++ ttl ++ js "."
                    ++ js " Total " ++ decimal total ++ js " posts available")
                   46%N);
          [ | reflexivity | same_pieces | reflexivity | reflexivity ].
        rewrite Hpre. f_equal; same_pieces.
    + transitivity (trim ((dept ++ js " ")
                          ++ (104%N :: js "as released notification for " ++ ttl ++ js ".")
                          ++ js "  ")).
      * f_equal; same_pieces.
      * rewrite (trim_solid _ _ _ (js "has released notification for " ++ ttl) 46%N);
          [ | reflexivity | same_pieces | reflexivity | reflexivity ].
        rewrite Hpre. f_equal; same_pieces.
Qed.

Lemma shortInfo_sentence_witness :
  shortInfo (parseJobNotification constableNotice) =
  js "Recruitment has released notification for Staff Selection Commission Recruitment 2026. Total 3241 posts available. Last date to apply: 15/03/2026.".
Proof.
  rewrite (shortInfo_sentence constableNotice).
  - vm_compute. reflexivity.
  - vm_compute. repeat split.
Defined.

(** ** Replacing all the matches of a pattern *)

Lemma In_at {A : Type} (x : A) l :
  In x l -> exists j post, j < length l /\ skipn j l = x :: post.
Proof.
  intros Hin. apply in_split in Hin. destruct Hin as (pre & post & ->).
  exists (length pre), post. split; [rewrite length_app; simpl; lia|].
  apply skipn_pre.
Qed.

(** Where a pattern matches every single unit of a class and never the
    empty string, replacing all its matches leaves no unit of the class
    but those the replacement brings. *)
Lemma replaceAllFuel_units (q : charset) r by_ :
  1 <= minLen r ->
  (forall x, q x = true -> exists c0 c', den r [x] c0 c') ->
  forall fuel s, length s < fuel ->
    forall x, In x (replaceAllFuel fuel r by_ s) ->
      In x by_ \/ (In x s /\ q x = false).
Proof.
  intros Hmin Hunit.
  assert (Hleft : forall s x j post,
            skipn j s = x :: post -> j < length s -> ~ matchesAt r s j -> q x = false).
  { intros s x j post Hsk Hj Hno. destruct (q x) eqn:Eq; [|reflexivity].
    exfalso. apply Hno. destruct (Hunit x Eq) as (c0 & c' & Hd).
    exists [x], post, c0, c'. repeat split; [lia | exact Hsk | exact Hd]. }
  induction fuel as [|fuel IH]; intros s Hlen x Hin; [lia|].
  cbn [replaceAllFuel] in Hin.
  pose proof (exec_leftmost r s) as Hlm.
  destruct (exec r s) as [m|] eqn:E.
  - destruct Hlm as [_ Hlm].
    apply exec_sound in E. destruct E as (Hd & pre & post & Hs & Hi).
    pose proof (den_minLen _ _ _ _ Hd) as Hw.
    assert (Hpre : firstn (index m) s = pre).
    { rewrite Hs, Hi. apply firstn_pre. }
    assert (Hpost : skipn (index m + length (matched m)) s = post).
    { rewrite Hs, Hi, app_assoc, <- length_app. apply skipn_pre. }
    rewrite Hpre in Hin. apply in_app_or in Hin. destruct Hin as [Hin|Hin].
    + right. split; [rewrite Hs; apply in_or_app; now left|].
      destruct (In_at x pre Hin) as (j & post' & Hj & Hsk).
      apply (Hleft s x j (post' ++ matched m ++ post)).
      * rewrite Hs. rewrite skipn_app.
        replace (j - length pre) with 0 by lia. rewrite Hsk. reflexivity.
      * rewrite Hs, length_app. lia.
      * apply Hlm. lia.
    + apply in_app_or in Hin. destruct Hin as [Hin|Hin]; [now left|].
      destruct (matched m) as [|y w] eqn:Em; [simpl in Hw; lia|].
      rewrite Hpost in Hin.
      assert (Hlp : length post < fuel).
      { rewrite Hs, !length_app in Hlen. simpl in Hlen. lia. }
      destruct (IH post Hlp x Hin) as [Hb|[Hp Hq]]; [now left|].
      right. split; [|exact Hq]. rewrite Hs.
      apply in_or_app. right. apply in_or_app. now right.
  - right. split; [exact Hin|].
    destruct (In_at x s Hin) as (j & post & Hj & Hsk).
    apply (Hleft s x j post Hsk Hj). apply Hlm.
Qed.

Lemma replaceAll_units (q : charset) r by_ s x :
  1 <= minLen r ->
  (forall x, q x = true -> exists c0 c', den r [x] c0 c') ->
  In x (replaceAll r by_ s) -> In x by_ \/ (In x s /\ q x = false).
Proof.
  intros Hmin Hunit. unfold replaceAll.
  apply (replaceAllFuel_units q r by_ Hmin Hunit). lia.
Qed.

Lemma plus_cls_unit (p : charset) x :
  p x = true -> exists c0 c', den (plus (cls p)) [x] c0 c'.
Proof.
  intros Hx. exists nocaps, nocaps. apply den_rep_cls_intro; [simpl; lia|].
  simpl. now rewrite Hx.
Qed.

(** ** generateSlug *)

Lemma uint_digits d : forallb isDigit (js (NilEmpty.string_of_uint d)) = true.
Proof. induction d; cbn [NilEmpty.string_of_uint]; [reflexivity|..]; exact IHd. Qed.

Lemma decimal_digits z : forallb isDigit (decimal z) = true.
Proof.
  unfold decimal, NilZero.string_of_uint.
  destruct (N.to_uint (Z.to_N z)) eqn:E; try (rewrite <- E; apply uint_digits).
  reflexivity.
Qed.

Lemma stripStart_occurs p s : occursIn (stripStart p s) s.
Proof.
  induction s as [|x s (pre & post & E)]; cbn [stripStart]; [apply occursIn_refl|].
  destruct (p x); [|apply occursIn_refl].
  exists (x :: pre), post. simpl. now rewrite <- E.
Qed.

Lemma stripDashes_occurs s : occursIn (stripDashes s) s.
Proof.
  unfold stripDashes.
  apply (occursIn_trans _ (stripStart (N.eqb (ch "-")) s)); [|apply stripStart_occurs].
  rewrite <- (rev_involutive (stripStart (N.eqb (ch "-")) s)) at 2.
  apply occursIn_rev, stripStart_occurs.
Qed.

Lemma kept_slugUnit x :
  orset isWord (orset isSpace (oneOf "-")) x = true ->
  isUpper x = false -> isSpace x = false -> slugUnit x = true.
Proof.
  unfold orset, isWord, isAlpha, slugUnit, oneOf.
  change (js "-") with [45%N]. change (js "_-") with [95%N; 45%N]. cbn [existsb].
  intros Hk Hu Hs. rewrite Hu, Hs in Hk. cbn [orb] in *.
  rewrite !orb_false_r in *. rewrite <- !orb_assoc in *. exact Hk.
Qed.

(** X14.  The slug is made of small letters, digits, underscores and dashes
    only, whenever lower-casing the title leaves no capital of Basic Latin,
    as it does for every title of Basic Latin.  Its part before the year
    suffix is at most 60 units long. *)
Theorem generateSlug_units `{CaseMapping} (year : Z) (title : jsstring) :
  forallb (fun x => negb (isUpper x)) (toLowerCase title) = true ->
  forallb slugUnit (generateSlug year title) = true /\
  length (generateSlug year title) <= 60 + length (js "-" ++ decimal year).
Proof.
  intros Hlow. unfold generateSlug.
  set (s1 := replaceAll unsafeRe [] (toLowerCase title)).
  set (s2 := replaceAll blanksRe (js "-") s1).
  set (s3 := replaceAll dashesRe (js "-") s2).
  assert (H1 : forall x, In x s1 ->
            orset isWord (orset isSpace (oneOf "-")) x = true /\ isUpper x = false).
  { intros x Hx.
    apply (replaceAll_units
             (fun x => negb (orset isWord (orset isSpace (oneOf "-")) x))) in Hx.
    - destruct Hx as [[]|[Hin Hq]]. apply negb_false_iff in Hq. split; [exact Hq|].
      rewrite forallb_forall in Hlow. specialize (Hlow x Hin).
      now apply negb_true_iff in Hlow.
    - simpl. lia.
    - intros y Hy. exists nocaps, nocaps. exists y. repeat split. exact Hy. }
  assert (H2 : forall x, In x s2 -> slugUnit x = true).
  { intros x Hx. apply (replaceAll_units isSpace) in Hx.
    - destruct Hx as [[<-|[]]|[Hin Hq]]; [reflexivity|].
      destruct (H1 x Hin) as [Hk Hu]. now apply kept_slugUnit.
    - simpl. lia.
    - apply plus_cls_unit. }
  assert (H3 : forallb slugUnit s3 = true).
  { apply forallb_forall. intros x Hx.
    apply (replaceAll_units (N.eqb (ch "-"))) in Hx.
    - destruct Hx as [[<-|[]]|[Hin _]]; [reflexivity | now apply H2].
    - simpl. lia.
    - apply plus_cls_unit. }
  assert (H5 : forallb slugUnit (firstn 60 (stripDashes s3)) = true).
  { apply (forallb_occursIn _ _ (stripDashes s3)); [apply occursIn_firstn|].
    apply (forallb_occursIn _ _ s3); [apply stripDashes_occurs | exact H3]. }
  assert (L5 : length (firstn 60 (stripDashes s3)) <= 60).
  { rewrite length_firstn. lia. }
  destruct (exec yearRe title); cbn [negb].
  - split; [exact H5 | lia].
  - split.
    + rewrite !forallb_app, H5. cbn [andb]. apply andb_true_iff. split; [reflexivity|].
      pose proof (decimal_digits year) as Hd. revert Hd. apply forallb_impl.
      intros x Hx. unfold slugUnit. now rewrite Hx, orb_true_r.
    + rewrite length_app. lia.
Qed.

Lemma generateSlug_units_witness :
  forallb slugUnit (generateSlug 2026 (js "SSC CGL: 500+ Posts (Apply Now!)")) = true /\
  length (generateSlug 2026 (js "SSC CGL: 500+ Posts (Apply Now!)")) <=
    60 + length (js "-" ++ decimal 2026).
Proof.
  apply (generateSlug_units 2026 (js "SSC CGL: 500+ Posts (Apply Now!)")).
  vm_compute. reflexivity.
Defined.

(** ** The year suffix of a slug *)

Lemma den_yearRe w c c' :
  den yearRe w c c' <->
  (exists a b, w = js "20" ++ [a; b] /\ isDigit a = true /\ isDigit b = true) /\ c' = c.
Proof.
  change yearRe with (Seq (Seq (chr 50%N) (chr 48%N)) (Rep 2 (Some 2) (Chr false isDigit))).
  split.
  - intros (w1 & w2 & c1 & -> & (u1 & u2 & c2 & -> & (x & -> & Hx & ->) & (y & -> & Hy & ->)) & Hr).
    cbn [den] in Hr. destruct Hr as (n & Hlo & Hhi & Hr).
    assert (n = 2) by (specialize (Hhi 2 eq_refl); destruct Hlo as [Hlo|Hlo];
                      [lia | now injection Hlo]).
    subst n. apply rounds_cls in Hr. destruct Hr as (Hlen & Hf & ->).
    destruct w2 as [|a [|b [|z w2]]]; try discriminate Hlen.
    cbn [forallb xorb] in Hf. rewrite !andb_true_iff in Hf. destruct Hf as (Ha & Hb & _).
    cbn [xorb] in Hx, Hy. apply N.eqb_eq in Hx, Hy. subst x y.
    split; [|reflexivity]. exists a, b. auto.
  - intros [(a & b & -> & Ha & Hb) ->].
    exists (js "20"), [a; b], c. split; [reflexivity|]. split.
    + exists [50%N], [48%N], c. split; [reflexivity|].
      split; [exists 50%N | exists 48%N]; auto.
    + cbn [den]. exists 2. split; [now left|]. split; [intros h E; injection E; lia|].
      apply (rounds_cls_intro false isDigit c [a; b]).
      cbn [forallb xorb]. now rewrite Ha, Hb.
Qed.

Lemma exec_yearRe title :
  (exists m, exec yearRe title = Some m) <-> holdsYear title.
Proof.
  split.
  - intros (m & E). apply exec_sound in E. destruct E as (Hd & pre & post & Ht & _).
    apply den_yearRe in Hd. destruct Hd as [(a & b & Ew & Ha & Hb) _].
    exists pre, a, b, post. rewrite Ht, Ew, <- app_assoc. auto.
  - intros (pre & a & b & post & -> & Ha & Hb).
    pose proof (exec_leftmost yearRe (pre ++ js "20" ++ a :: b :: post)) as Hl.
    destruct (exec yearRe _) as [m|]; [now exists m|].
    exfalso. apply (Hl (length pre)).
    exists (js "20" ++ [a; b]), post, nocaps, nocaps.
    split; [rewrite length_app; lia|]. split; [now rewrite skipn_pre|].
    apply den_yearRe. split; [|reflexivity]. exists a, b. auto.
Qed.

(** X15.  The year is appended, after a dash, exactly when the title as
    given holds no "20" followed by two digits; the test reads the whole
    title, not the 60 units the slug keeps of it. *)
Theorem generateSlug_year_suffix `{CaseMapping} (year : Z) (title : jsstring) :
  let slug :=
    firstn 60
      (stripDashes
         (replaceAll dashesRe (js "-")
            (replaceAll blanksRe (js "-")
               (replaceAll unsafeRe [] (toLowerCase title))))) in
  (holdsYear title -> generateSlug year title = slug) /\
  (~ holdsYear title -> generateSlug year title = slug ++ js "-" ++ decimal year).
Proof.
  intros slug. unfold generateSlug. fold slug.
  pose proof (exec_yearRe title) as [H1 H2].
  destruct (exec yearRe title) as [m|]; cbn [negb]; split; intros Hy; try reflexivity.
  - exfalso. apply Hy. apply H1. now exists m.
  - apply H2 in Hy. destruct Hy as (m & E). discriminate E.
Qed.

Lemma generateSlug_year_suffix_witness :
  generateSlug 2026 (js "UP Police Constable 2025") = js "up-police-constable-2025".
Proof.
  rewrite (proj1 (generateSlug_year_suffix 2026 (js "UP Police Constable 2025"))).
  - vm_compute. reflexivity.
  - exists (js "UP Police Constable "), 50%N, 53%N, []. repeat split.
Defined.

(** ** ensureUniqueSlug *)

Lemma js_inj a b : js a = js b -> a = b.
Proof.
  unfold js. intros E.
  rewrite <- (string_of_list_ascii_of_string a), <- (string_of_list_ascii_of_string b).
  f_equal. revert E. generalize (list_ascii_of_string b).
  induction (list_ascii_of_string a) as [|x l IH]; intros [|y l'] E;
    try discriminate; [reflexivity|].
  simpl in E. injection E as Exy El. f_equal; [|now apply IH].
  now rewrite <- (ascii_N_embedding x), <- (ascii_N_embedding y), Exy.
Qed.

Lemma to_uint_nonnil n : N.to_uint n <> Decimal.Nil.
Proof.
  destruct n as [|p]; [discriminate|]. apply DecimalPos.Unsigned.to_uint_nonnil.
Qed.

(** Different counters are written differently. *)
Lemma decimal_inj a b : (0 <= a)%Z -> (0 <= b)%Z -> decimal a = decimal b -> a = b.
Proof.
  intros Ha Hb E. unfold decimal in E. apply js_inj in E.
  apply (f_equal NilZero.uint_of_string) in E.
  rewrite !NilZero.usu in E by apply to_uint_nonnil.
  injection E as E. apply DecimalN.Unsigned.to_uint_inj in E. lia.
Qed.

Lemma candidateSlug_inj baseSlug j k :
  candidateSlug baseSlug j = candidateSlug baseSlug k -> j = k.
Proof.
  assert (Hlen : forall n, length (candidateSlug baseSlug (S n)) <> length baseSlug).
  { intros n. cbn [candidateSlug]. rewrite length_app. simpl. lia. }
  destruct j as [|j], k as [|k]; intros E; [reflexivity| | |].
  - exfalso. apply (Hlen k). now rewrite <- E.
  - exfalso. apply (Hlen j). now rewrite E.
  - cbn [candidateSlug] in E. apply app_inv_head in E. apply app_inv_head in E.
    apply decimal_inj in E; lia.
Qed.

Lemma getPostBySlug_none posts s :
  getPostBySlug posts s = None <-> ~ taken posts s.
Proof.
  unfold getPostBySlug, taken.
  induction posts as [|p posts IH]; cbn [find map In].
  - split; [intros _ [] | reflexivity].
  - destruct (slug p) as [s'|] eqn:Ep.
    + destruct (str_eqb s' s) eqn:E.
      * apply str_eqb_eq in E. subst s'. split; [discriminate|].
        intros H. exfalso. apply H. now left.
      * apply str_eqb_neq in E. rewrite IH. split.
        -- intros H [H'|H']; [congruence | contradiction].
        -- intros H H'. apply H. now right.
    + rewrite IH. split.
      * intros H [H'|H']; [discriminate | contradiction].
      * intros H H'. apply H. now right.
Qed.

Lemma getPostBySlug_taken posts s :
  (getPostBySlug posts s = None <-> ~ taken posts s) /\
  (getPostBySlug posts s <> None <-> taken posts s).
Proof.
  pose proof (getPostBySlug_none posts s) as [H1 H2].
  split; [split; assumption|]. split.
  - intros Hn. unfold getPostBySlug in Hn.
    destruct (find _ posts) as [p|] eqn:E; [|contradiction].
    apply find_some in E. destruct E as [Hin Hp].
    destruct (slug p) as [s'|] eqn:Ep; [|discriminate].
    apply str_eqb_eq in Hp. subst s'. unfold taken. rewrite <- Ep.
    now apply in_map.
  - intros Ht Hn. apply H1 in Hn. contradiction.
Qed.

(** The loop returns the first free candidate from the one it is entered
    with, if there is one within [fuel] steps. *)
Lemma ensureUniqueLoop_first posts baseSlug : forall fuel k,
  match ensureUniqueLoop fuel posts baseSlug (Z.of_nat (S k))
          (candidateSlug baseSlug k) with
  | Some s =>
      exists j, k <= j <= k + fuel /\ s = candidateSlug baseSlug j /\
                ~ taken posts s /\
                forall i, k <= i < j -> taken posts (candidateSlug baseSlug i)
  | None => forall i, k <= i <= k + fuel -> taken posts (candidateSlug baseSlug i)
  end.
Proof.
  induction fuel as [|fuel IH]; intros k; cbn [ensureUniqueLoop];
    destruct (getPostBySlug_taken posts (candidateSlug baseSlug k)) as [Hn Hs];
    destruct (getPostBySlug posts (candidateSlug baseSlug k)) as [p|] eqn:E.
  - intros i Hi. replace i with k by lia. apply Hs. discriminate.
  - exists k. repeat split; [lia | lia | now apply Hn | intros i Hi; lia].
  - specialize (IH (S k)).
    replace (Z.of_nat (S k) + 1)%Z with (Z.of_nat (S (S k))) by lia.
    change (baseSlug ++ js "-" ++ decimal (Z.of_nat (S k)))
      with (candidateSlug baseSlug (S k)).
    destruct (ensureUniqueLoop fuel posts baseSlug _ _) as [s|].
    + destruct IH as (j & Hj & -> & Hfree & Hbefore).
      exists j. repeat split; [lia | lia | exact Hfree |].
      intros i Hi. destruct (Nat.eq_dec i k) as [->|Hne].
      * apply Hs. discriminate.
      * apply Hbefore. lia.
    + intros i Hi. destruct (Nat.eq_dec i k) as [->|Hne].
      * apply Hs. discriminate.
      * apply IH. lia.
  - exists k. repeat split; [lia | lia | now apply Hn | intros i Hi; lia].
Qed.

Lemma NoDup_map_inj {A B : Type} (f : A -> B) l :
  (forall x y, f x = f y -> x = y) -> NoDup l -> NoDup (map f l).
Proof.
  intros Hf. induction 1 as [|x l Hx Hl IH]; cbn [map]; constructor; [|exact IH].
  intros Hin. apply in_map_iff in Hin. destruct Hin as (y & E & Hy).
  apply Hf in E. subst y. contradiction.
Qed.

(** Not all of the first [length posts + 1] candidates can be taken. *)
Lemma candidates_not_all_taken posts baseSlug :
  ~ forall i, i <= length posts -> taken posts (candidateSlug baseSlug i).
Proof.
  intros Hall.
  assert (Hnd : NoDup (map (fun i => Some (candidateSlug baseSlug i))
                           (List.seq 0 (S (length posts))))).
  { apply NoDup_map_inj; [|apply seq_NoDup].
    intros i j E. injection E as E. now apply candidateSlug_inj in E. }
  apply NoDup_incl_length with (l' := map slug posts) in Hnd.
  - rewrite !length_map, length_seq in Hnd. lia.
  - intros c Hc. apply in_map_iff in Hc. destruct Hc as (i & <- & Hi).
    apply in_seq in Hi. apply Hall. lia.
Qed.

Lemma candidateSlug_units baseSlug k :
  forallb slugUnit baseSlug = true ->
  forallb slugUnit (candidateSlug baseSlug k) = true.
Proof.
  intros Hb. destruct k as [|k]; cbn [candidateSlug]; [exact Hb|].
  rewrite !forallb_app, Hb. cbn [andb]. apply andb_true_iff. split; [reflexivity|].
  pose proof (decimal_digits (Z.of_nat (S k))) as Hd. revert Hd.
  apply forallb_impl. intros x Hx. unfold slugUnit. now rewrite Hx, orb_true_r.
Qed.

(** X16.  With the table of posts fixed, [ensureUniqueSlug] terminates: after
    at most as many rounds as the table has rows it returns the first of
    the candidates [base], [base-1], [base-2], ... that no row of the table
    has for a slug.  A base made of slug units, as [generateSlug] yields
    them, gives a slug made of slug units. *)
Theorem ensureUniqueSlug_first_free (posts : list Post) (baseSlug : jsstring) :
  exists k,
    k <= length posts /\
    getPostBySlug posts (candidateSlug baseSlug k) = None /\
    (forall i, i < k -> taken posts (candidateSlug baseSlug i)) /\
    (forall fuel, length posts <= fuel ->
       ensureUniqueSlug fuel posts baseSlug = Some (candidateSlug baseSlug k)) /\
    (forallb slugUnit baseSlug = true ->
     forallb slugUnit (candidateSlug baseSlug k) = true).
Proof.
  pose proof (ensureUniqueLoop_first posts baseSlug (length posts) 0) as H0.
  pose proof (candidates_not_all_taken posts baseSlug) as Hpigeon.
  change (ensureUniqueLoop (length posts) posts baseSlug (Z.of_nat 1)
            (candidateSlug baseSlug 0))
    with (ensureUniqueSlug (length posts) posts baseSlug) in H0.
  destruct (ensureUniqueSlug (length posts) posts baseSlug) as [s|].
  - destruct H0 as (k & Hk & -> & Hfree & Hbefore). exists k.
    split; [lia|]. split; [now apply getPostBySlug_taken|].
    split; [intros i Hi; apply Hbefore; lia|].
    split; [|intros Hb; now apply candidateSlug_units].
    intros fuel Hfuel.
    pose proof (ensureUniqueLoop_first posts baseSlug fuel 0) as H1.
    change (ensureUniqueLoop fuel posts baseSlug (Z.of_nat 1)
              (candidateSlug baseSlug 0))
      with (ensureUniqueSlug fuel posts baseSlug) in H1.
    destruct (ensureUniqueSlug fuel posts baseSlug) as [s|].
    + destruct H1 as (j & Hj & -> & Hfree' & Hbefore'). f_equal. f_equal.
      destruct (Nat.lt_trichotomy j k) as [Hlt|[Heq|Hgt]]; [|exact Heq|].
      * exfalso. apply Hfree'. apply Hbefore. lia.
      * exfalso. apply Hfree. apply Hbefore'. lia.
    + exfalso. apply Hfree. apply H1. lia.
  - exfalso. apply Hpigeon. intros i Hi. apply H0. lia.
Qed.

Lemma ensureUniqueSlug_first_free_witness :
  ensureUniqueSlug 2 [{| slug := Some (js "ssc-cgl-2026") |};
                      {| slug := Some (js "ssc-cgl-2026-1") |}]
                   (js "ssc-cgl-2026") = Some (js "ssc-cgl-2026-2") /\
  forallb slugUnit (js "ssc-cgl-2026-2") = true.
Proof.
  destruct (ensureUniqueSlug_first_free
              [{| slug := Some (js "ssc-cgl-2026") |};
               {| slug := Some (js "ssc-cgl-2026-1") |}] (js "ssc-cgl-2026"))
    as (k & Hk & Hfree & Hbefore & Hrun & Hunits).
  assert (E : k = 2).
  { destruct k as [|[|[|k]]]; [discriminate Hfree | discriminate Hfree | reflexivity|].
    simpl in Hk. lia. }
  subst k. split.
  - apply (Hrun 2). simpl. lia.
  - apply Hunits. vm_compute. reflexivity.
Defined.
